(** * CodeSnippet Manager: the snippet store, its write path and its listing query

    A shallow embedding of the backend of the snippet manager:

    - [Text]: characters and numeric literals;
    - [Js]: the JavaScript built-ins the backend relies on (truthiness of
      strings, [String.prototype.split], [isNaN] on a route parameter);
    - [Sqlite]: the three tables of [config/database.js], a connection with
      its transaction snapshot and its [foreign_keys] pragma, and the
      statements the model issues (with SQLite's [LIKE] and [GROUP_CONCAT]);
    - [Database]: [createConnection] and [initializeDatabase];
    - [SnippetModel]: [getAllSnippets], [createSnippet] (the callback-driven
      tag loop with its [processedTags] counter and [checkCompletion]) and
      [deleteSnippet];
    - [SnippetController]: the request handlers in front of the model.

    What the embedding takes from SQLite and the driver:

    - every call works on its own connection; [PRAGMA foreign_keys] is a
      setting of the connection and is off when a connection is opened;
    - a transaction is a snapshot taken at [BEGIN], restored by [ROLLBACK]
      and dropped by [COMMIT]; [BEGIN] takes no lock and does not fail,
      [ROLLBACK] and [COMMIT] fail when no transaction is open, and
      [COMMIT] may fail like any statement that writes;
    - [BEGIN] and the snippet insert run in program order; the statements
      of the tag chains finish in an order the program does not fix (a
      [schedule]);
    - any data statement and [COMMIT] may fail for reasons outside the
      data ([faults]); a failure either leaves the transaction open (busy,
      locked) or makes SQLite roll the transaction back by itself (disk
      full, I/O error, out of memory), after which the connection runs
      every statement on its own;
    - a text compared with a rowid is converted by SQLite's own routine,
      through a double; for texts with a fraction or an exponent its
      result is a parameter of the embedding ([conversion]);
    - a request body is what [express.json()] has parsed, with string
      fields and an array of strings as [tags];
    - rowids are unbounded integers, [created_at] is a clock reading in
      seconds, and strings are sequences of ASCII characters, where
      SQLite's characters, JavaScript's code units and Rocq's [ascii]
      coincide. *)

From Stdlib Require Import List ZArith Lia Bool String Ascii Permutation Sorted.
Import ListNotations.

Local Open Scope string_scope.
Local Open Scope list_scope.
Local Open Scope Z_scope.

(** ** Characters and literals shared by the JavaScript and SQLite layers *)
Module Text.

Definition nonempty (s : string) : bool :=
  match s with
  | EmptyString => false
  | String _ _ => true
  end.

(** Tab, line feed, vertical tab, form feed, carriage return, space: the
    ASCII white space of both ECMAScript's [StrWhiteSpace] and SQLite's
    [sqlite3Isspace]. *)
Definition is_white (c : ascii) : bool :=
  let n := nat_of_ascii c in
  ((9 <=? n) && (n <=? 13))%nat || (n =? 32)%nat.

Definition is_digit (c : ascii) : bool :=
  let n := nat_of_ascii c in ((48 <=? n) && (n <=? 57))%nat.

Fixpoint skip_white (s : string) : string :=
  match s with
  | String c s' => if is_white c then skip_white s' else s
  | EmptyString => EmptyString
  end.

(** Drops trailing white space. *)
Fixpoint drop_white_end (s : string) : string :=
  match s with
  | EmptyString => EmptyString
  | String c s' =>
      match drop_white_end s' with
      | EmptyString => if is_white c then EmptyString else String c EmptyString
      | r => String c r
      end
  end.

Definition trim (s : string) : string := drop_white_end (skip_white s).

(** The digits at the head of [s] and what follows them. *)
Fixpoint span_digits (s : string) : string * string :=
  match s with
  | String c s' =>
      if is_digit c
      then let (d, r) := span_digits s' in (String c d, r)
      else (EmptyString, s)
  | EmptyString => (EmptyString, EmptyString)
  end.

Fixpoint all_chars (p : ascii -> bool) (s : string) : bool :=
  match s with
  | EmptyString => true
  | String c s' => p c && all_chars p s'
  end.

Definition nonempty_all (p : ascii -> bool) (s : string) : bool :=
  nonempty s && all_chars p s.

Definition has_minus (s : string) : bool :=
  match s with
  | String "-" _ => true
  | _ => false
  end.

Definition skip_sign (s : string) : string :=
  match s with
  | String "+" s' => s'
  | String "-" s' => s'
  | _ => s
  end.

(** The value of a string of decimal digits, most significant first. *)
Fixpoint digits_value (acc : Z) (s : string) : Z :=
  match s with
  | EmptyString => acc
  | String c s' => digits_value (10 * acc + (Z.of_nat (nat_of_ascii c) - 48)) s'
  end.

(** Whether character [c] occurs in [s]. *)
Fixpoint mem_char (c : ascii) (s : string) : bool :=
  match s with
  | EmptyString => false
  | String d s' => Ascii.eqb c d || mem_char c s'
  end.

End Text.

(** ** JavaScript built-ins *)
Module Js.
Import Text.

(** [!!s] for a string: only the empty string is falsy. *)
Definition truthy (s : string) : bool := nonempty s.

(** [!!v] for a value that may be [undefined] (a missing body field). *)
Definition truthy_opt (v : option string) : bool :=
  match v with
  | None => false
  | Some s => truthy s
  end.

(** [a || b] where [a] may be [undefined]. *)
Definition or_else {A} (truthy_a : A -> bool) (a : option A) (b : A) : A :=
  match a with
  | Some x => if truthy_a x then x else b
  | None => b
  end.

(** [s.split(sep)] for a one-character separator: never the empty array;
    the empty string splits into one empty piece. *)
Fixpoint split (sep : ascii) (s : string) : list string :=
  match s with
  | EmptyString => [EmptyString]
  | String c s' =>
      if Ascii.eqb c sep then EmptyString :: split sep s'
      else match split sep s' with
           | [] => [String c EmptyString]
           | w :: ws => String c w :: ws
           end
  end.

(** *** [isNaN] on a string: [Number(s)] is [NaN] exactly when [s] is not a
    [StringNumericLiteral] (ECMAScript, StringToNumber). *)

Definition is_hex_digit (c : ascii) : bool :=
  let n := nat_of_ascii c in
  is_digit c || ((65 <=? n) && (n <=? 70))%nat || ((97 <=? n) && (n <=? 102))%nat.

Definition is_octal_digit (c : ascii) : bool :=
  let n := nat_of_ascii c in ((48 <=? n) && (n <=? 55))%nat.

Definition is_binary_digit (c : ascii) : bool :=
  let n := nat_of_ascii c in ((48 <=? n) && (n <=? 49))%nat.

(** [ExponentPart opt] followed by the end of the literal. *)
Definition exponent_then_end (s : string) : bool :=
  match s with
  | EmptyString => true
  | String c s' =>
      (Ascii.eqb c "e" || Ascii.eqb c "E")
      && nonempty_all is_digit (skip_sign s')
  end.

(** [StrUnsignedDecimalLiteral]. *)
Definition unsigned_decimal (s : string) : bool :=
  if String.eqb s "Infinity" then true
  else
    let (int_part, r) := span_digits s in
    match r with
    | String "." r' =>
        let (frac_part, r'') := span_digits r' in
        (nonempty int_part || nonempty frac_part) && exponent_then_end r''
    | _ => nonempty int_part && exponent_then_end r
    end.

(** [NonDecimalIntegerLiteral]: [0x..], [0o..], [0b..] (no sign). *)
Definition non_decimal (s : string) : bool :=
  match s with
  | String "0" (String p s') =>
      if Ascii.eqb p "x" || Ascii.eqb p "X" then nonempty_all is_hex_digit s'
      else if Ascii.eqb p "o" || Ascii.eqb p "O" then nonempty_all is_octal_digit s'
      else if Ascii.eqb p "b" || Ascii.eqb p "B" then nonempty_all is_binary_digit s'
      else false
  | _ => false
  end.

(** [StringNumericLiteral]: white space around nothing (the value 0) or
    around one numeric literal. *)
Definition string_numeric_literal (s : string) : bool :=
  let t := trim s in
  match t with
  | EmptyString => true
  | _ => non_decimal t || unsigned_decimal (skip_sign t)
  end.

Definition isNaN (s : string) : bool := negb (string_numeric_literal s).

End Js.

(** ** The SQLite store of [config/database.js] *)
Module Sqlite.

(** *** Rows and tables

    [snippets(id INTEGER PRIMARY KEY AUTOINCREMENT, title TEXT NOT NULL,
    code TEXT NOT NULL, language TEXT DEFAULT 'javascript',
    created_at DATETIME DEFAULT CURRENT_TIMESTAMP)].  [created_at] is the
    clock reading in seconds: the stored text [YYYY-MM-DD HH:MM:SS] has
    fixed width, so its text order is the order of the readings. *)
Record snippet_row := {
  s_id : Z;
  s_title : string;
  s_code : string;
  s_language : string;
  s_created_at : Z
}.

(** [tags(id INTEGER PRIMARY KEY AUTOINCREMENT, name TEXT UNIQUE NOT NULL)]. *)
Record tag_row := { t_id : Z; t_name : string }.

(** [snippet_tags(snippet_id, tag_id, PRIMARY KEY (snippet_id, tag_id))],
    both columns declared with [ON DELETE CASCADE] foreign keys. *)
Record link_row := { l_snippet_id : Z; l_tag_id : Z }.

(** The database file.  [seq_snippets] and [seq_tags] are the rows of
    [sqlite_sequence] that [AUTOINCREMENT] maintains: the largest rowid ever
    handed out for the table. *)
Record database := {
  snippets : list snippet_row;
  tags : list tag_row;
  snippet_tags : list link_row;
  seq_snippets : Z;
  seq_tags : Z
}.

Definition empty_database : database :=
  {| snippets := []; tags := []; snippet_tags := [];
     seq_snippets := 0; seq_tags := 0 |}.

(** What a statement's callback receives as [err]. *)
Inductive sql_error :=
| ConstraintPrimaryKey   (* UNIQUE constraint failed: snippet_tags.snippet_id, snippet_tags.tag_id *)
| ConstraintForeignKey   (* FOREIGN KEY constraint failed *)
| StoreFailure (code : nat)    (* busy, locked, ...: the statement fails, the transaction stays *)
| TransactionLost (code : nat) (* disk full, I/O error, out of memory: the transaction is rolled back *)
| NoTransaction.         (* cannot commit, cannot rollback - no transaction is active *)

(** Whether SQLite answers the error by rolling the open transaction back
    on its own. *)
Definition ends_transaction (e : sql_error) : bool :=
  match e with
  | TransactionLost _ => true
  | _ => false
  end.

(** *** Connections

    A connection sees the database through [c_db].  [c_saved] is the state
    to return to on [ROLLBACK] while a transaction is open.  [c_foreign_keys]
    is the connection's [PRAGMA foreign_keys]: the setting belongs to the
    connection, and SQLite opens every connection with it off. *)
Record connection := {
  c_db : database;
  c_saved : option database;
  c_foreign_keys : bool
}.

Definition open (db : database) : connection :=
  {| c_db := db; c_saved := None; c_foreign_keys := false |}.

Definition pragma_foreign_keys_on (c : connection) : connection :=
  {| c_db := c_db c; c_saved := c_saved c; c_foreign_keys := true |}.

Definition with_db (c : connection) (db : database) : connection :=
  {| c_db := db; c_saved := c_saved c; c_foreign_keys := c_foreign_keys c |}.

(** [BEGIN TRANSACTION]: inside a transaction the statement is an error
    and changes nothing. *)
Definition begin_transaction (c : connection) : connection :=
  match c_saved c with
  | Some _ => c
  | None => {| c_db := c_db c; c_saved := Some (c_db c);
               c_foreign_keys := c_foreign_keys c |}
  end.

(** [COMMIT] that succeeds: what the transaction wrote is kept.  Whether
    it succeeds is for the model to say ([SnippetModel.run_commit]). *)
Definition commit (c : connection) : connection :=
  {| c_db := c_db c; c_saved := None; c_foreign_keys := c_foreign_keys c |}.

(** The return to the state saved at [BEGIN], by [ROLLBACK] or by SQLite
    itself. *)
Definition rollback (c : connection) : connection :=
  match c_saved c with
  | Some d => {| c_db := d; c_saved := None; c_foreign_keys := c_foreign_keys c |}
  | None => c
  end.

(** What a failed statement does to the connection: nothing, or, for an
    error that ends the transaction, the rollback SQLite does by itself.
    The connection is then outside any transaction, and what later
    statements write is kept. *)
Definition fail_statement (c : connection) (e : sql_error) : connection :=
  if ends_transaction e then rollback c else c.

(** [db.close()]: what the file holds afterwards.  A transaction still
    open when the connection goes away is rolled back. *)
Definition close (c : connection) : database :=
  match c_saved c with
  | Some d => d
  | None => c_db c
  end.

(** *** Statements *)

Definition max_id (ids : list Z) : Z := fold_right Z.max 0 ids.

(** The rowid [AUTOINCREMENT] picks: one more than the largest rowid the
    table holds or ever held. *)
Definition next_rowid (seq : Z) (ids : list Z) : Z := Z.max seq (max_id ids) + 1.

(** [INSERT INTO snippets (title, code, language) VALUES (?, ?, ?)], run at
    clock reading [now]; returns [this.lastID]. *)
Definition insert_snippet (db : database) (title code language : string) (now : Z)
  : database * Z :=
  let id := next_rowid (seq_snippets db) (map s_id (snippets db)) in
  ({| snippets := snippets db ++
        [{| s_id := id; s_title := title; s_code := code;
            s_language := language; s_created_at := now |}];
      tags := tags db;
      snippet_tags := snippet_tags db;
      seq_snippets := id;
      seq_tags := seq_tags db |}, id).

Definition has_tag_name (db : database) (name : string) : bool :=
  existsb (fun t => String.eqb (t_name t) name) (tags db).

(** [INSERT OR IGNORE INTO tags (name) VALUES (?)]: a name already in the
    table violates [UNIQUE]; the conflict clause skips the row without an
    error.  The rowid is picked before the constraint is checked, and
    [sqlite_sequence] keeps it also when the row is skipped. *)
Definition insert_or_ignore_tag (db : database) (name : string) : database :=
  let id := next_rowid (seq_tags db) (map t_id (tags db)) in
  {| snippets := snippets db;
     tags := if has_tag_name db name then tags db
             else tags db ++ [{| t_id := id; t_name := name |}];
     snippet_tags := snippet_tags db;
     seq_snippets := seq_snippets db;
     seq_tags := id |}.

(** [SELECT id FROM tags WHERE name = ?] through [db.get]: the first
    matching row, [undefined] when there is none. *)
Definition select_tag_id (db : database) (name : string) : option Z :=
  option_map t_id (find (fun t => String.eqb (t_name t) name) (tags db)).

Definition link_eqb (a b : link_row) : bool :=
  (l_snippet_id a =? l_snippet_id b) && (l_tag_id a =? l_tag_id b).

Definition has_link (db : database) (l : link_row) : bool :=
  existsb (link_eqb l) (snippet_tags db).

(** [INSERT INTO snippet_tags (snippet_id, tag_id) VALUES (?, ?)]: the pair
    must be new; with foreign keys on, both parents must exist. *)
Definition insert_snippet_tag (c : connection) (snippet_id tag_id : Z)
  : sql_error + connection :=
  let db := c_db c in
  let l := {| l_snippet_id := snippet_id; l_tag_id := tag_id |} in
  if has_link db l then inl ConstraintPrimaryKey
  else if c_foreign_keys c
          && negb (existsb (fun s => s_id s =? snippet_id) (snippets db)
                   && existsb (fun t => t_id t =? tag_id) (tags db))
  then inl ConstraintForeignKey
  else inr (with_db c
         {| snippets := snippets db;
            tags := tags db;
            snippet_tags := snippet_tags db ++ [l];
            seq_snippets := seq_snippets db;
            seq_tags := seq_tags db |}).

(** *** Comparing a bound parameter with the rowid

    The route hands the id over as text; the tests hand over a number. *)
Inductive sql_value :=
| VInteger (z : Z)
| VText (s : string).

(** The exponent of a numeric text: nothing, or [e]/[E], an optional sign
    and at least one digit, then the end. *)
Definition exponent_value (s : string) : option Z :=
  match s with
  | EmptyString => Some 0
  | String c s' =>
      if Ascii.eqb c "e" || Ascii.eqb c "E" then
        if Text.nonempty_all Text.is_digit (Text.skip_sign s')
        then let e := Text.digits_value 0 (Text.skip_sign s') in
             Some (if Text.has_minus s' then - e else e)
        else None
      else None
  end.

(** The value of a well-formed real literal when that value is an
    integer, computed exactly. *)
Definition decimal_value (t : string) : option Z :=
  let u := Text.skip_sign t in
  let (int_part, r) := Text.span_digits u in
  let (frac_part, r') :=
    match r with
    | String "." r1 => Text.span_digits r1
    | _ => (EmptyString, r)
    end in
  if Text.nonempty int_part || Text.nonempty frac_part then
    match exponent_value r' with
    | None => None
    | Some e =>
        let m := Text.digits_value 0 (int_part ++ frac_part) in
        let scale := e - Z.of_nat (String.length frac_part) in
        let signed v := if Text.has_minus t then - v else v in
        if 0 <=? scale then Some (signed (m * 10 ^ scale))
        else if m mod 10 ^ (- scale) =? 0 then Some (signed (m / 10 ^ (- scale)))
        else None
    end
  else None.

(** An optional sign and decimal digits. *)
Definition integer_literal (t : string) : bool :=
  Text.nonempty_all Text.is_digit (Text.skip_sign t).

(** An optional sign, digits with an optional fraction (a digit on one
    side of the point at least), an optional exponent. *)
Definition real_literal (t : string) : bool :=
  let (int_part, r) := Text.span_digits (Text.skip_sign t) in
  let (frac_part, r') :=
    match r with
    | String "." r1 => Text.span_digits r1
    | _ => (EmptyString, r)
    end in
  (Text.nonempty int_part || Text.nonempty frac_part)
  && match exponent_value r' with
     | Some _ => true
     | None => false
     end.

(** SQLite turns a real literal into a double and the double, when it is
    a whole number, into an integer.  The double is the work of SQLite's
    own conversion routine, whose rounding depends on the build: long
    literals close to a whole number become that number
    ([0.99999999999999999999999] becomes 1).  A [conversion] stands for
    that routine: the integer a real literal ends up as, if any.  Nothing
    is assumed of it; what is proved holds whatever it returns. *)
Definition conversion := string -> option Z.

(** The conversion that does not round. *)
Definition no_rounding : conversion := decimal_value.

(** NUMERIC affinity applied to a text compared with the INTEGER PRIMARY
    KEY (white space around the literal allowed): an integer literal
    becomes its value, a real literal what [real] makes of it; any other
    text stays text and equals no rowid. *)
Definition text_as_integer (real : conversion) (s : string) : option Z :=
  let t := Text.trim s in
  if integer_literal t then
    let v := Text.digits_value 0 (Text.skip_sign t) in
    Some (if Text.has_minus t then - v else v)
  else if real_literal t then real t
  else None.

Definition value_as_rowid (real : conversion) (v : sql_value) : option Z :=
  match v with
  | VInteger z => Some z
  | VText s => text_as_integer real s
  end.

Definition rowid_is (real : conversion) (v : sql_value) (id : Z) : bool :=
  match value_as_rowid real v with
  | Some z => id =? z
  | None => false
  end.

(** [DELETE FROM snippets WHERE id = ?]; returns [this.changes], the number
    of snippet rows deleted.  The [ON DELETE CASCADE] action on
    [snippet_tags] runs only on a connection whose foreign keys are on. *)
Definition delete_snippet (real : conversion) (c : connection) (id : sql_value)
  : connection * Z :=
  let db := c_db c in
  let gone := filter (fun s => rowid_is real id (s_id s)) (snippets db) in
  let survives (l : link_row) :=
    negb (existsb (fun s => s_id s =? l_snippet_id l) gone) in
  (with_db c
     {| snippets := filter (fun s => negb (rowid_is real id (s_id s))) (snippets db);
        tags := tags db;
        snippet_tags :=
          if c_foreign_keys c then filter survives (snippet_tags db)
          else snippet_tags db;
        seq_snippets := seq_snippets db;
        seq_tags := seq_tags db |},
   Z.of_nat (List.length gone)).

(** *** [LIKE]

    [%] matches any run of characters, [_] any one character, every other
    pattern character itself, upper and lower case ASCII letters being
    equal.  No escape character is in force.  SQLite reads the pattern and
    the text as C strings: both end at their first NUL character. *)
Definition lower (c : ascii) : ascii :=
  let n := nat_of_ascii c in
  if ((65 <=? n) && (n <=? 90))%nat then ascii_of_nat (n + 32) else c.

Definition same_nocase (c d : ascii) : bool := Ascii.eqb (lower c) (lower d).

Fixpoint upto_nul (s : string) : string :=
  match s with
  | EmptyString => EmptyString
  | String c s' => if Ascii.eqb c zero then EmptyString else String c (upto_nul s')
  end.

Fixpoint like_chars (p s : string) {struct p} : bool :=
  match p with
  | EmptyString => negb (Text.nonempty s)
  | String pc p' =>
      if Ascii.eqb pc "%" then
        (fix any (s : string) : bool :=
           like_chars p' s
           || match s with
              | EmptyString => false
              | String _ s' => any s'
              end) s
      else
        match s with
        | EmptyString => false
        | String sc s' =>
            (Ascii.eqb pc "_" || same_nocase pc sc) && like_chars p' s'
        end
  end.

Definition like (p s : string) : bool := like_chars (upto_nul p) (upto_nul s).

(** *** The listing query

    [FROM snippets s LEFT JOIN snippet_tags st ON s.id = st.snippet_id
     LEFT JOIN tags t ON st.tag_id = t.id]: one row per snippet, link and
    tag; a snippet without links, and a link without its tag, still give
    one row, with [t.name] NULL. *)
Record joined_row := { j_snippet : snippet_row; j_tag_name : option string }.

Definition join_tags (db : database) (l : link_row) : list (option string) :=
  match filter (fun t => l_tag_id l =? t_id t) (tags db) with
  | [] => [None]
  | ts => map (fun t => Some (t_name t)) ts
  end.

(** The rows of [snippet_tags] are found through the index of its
    [PRIMARY KEY (snippet_id, tag_id)]: those of one snippet come by
    ascending [tag_id]. *)
Fixpoint insert_by_tag_id (l : link_row) (sorted : list link_row) : list link_row :=
  match sorted with
  | [] => [l]
  | h :: t =>
      if l_tag_id l <=? l_tag_id h then l :: h :: t
      else h :: insert_by_tag_id l t
  end.

Definition index_order (ls : list link_row) : list link_row :=
  fold_right insert_by_tag_id [] ls.

Definition join_links (db : database) (s : snippet_row) : list (option string) :=
  match index_order (filter (fun l => s_id s =? l_snippet_id l) (snippet_tags db)) with
  | [] => [None]
  | ls => flat_map (join_tags db) ls
  end.

Definition from_clause (db : database) : list joined_row :=
  flat_map (fun s => map (fun n => {| j_snippet := s; j_tag_name := n |})
                         (join_links db s))
           (snippets db).

(** [WHERE s.title LIKE ? OR s.code LIKE ? OR s.language LIKE ? OR
    t.name LIKE ?], all four parameters being [pattern].  [NULL LIKE ?] is
    NULL, which does not make the disjunction true. *)
Definition where_clause (pattern : string) (r : joined_row) : bool :=
  like pattern (s_title (j_snippet r))
  || like pattern (s_code (j_snippet r))
  || like pattern (s_language (j_snippet r))
  || match j_tag_name r with
     | Some n => like pattern n
     | None => false
     end.

(** [GROUP BY s.id]: the rows that passed [WHERE], gathered by snippet id.
    A group keeps the snippet columns and the [t.name] of each of its rows,
    in row order. *)
Definition group := (snippet_row * list (option string))%type.

Fixpoint add_to_group (r : joined_row) (gs : list group) : list group :=
  match gs with
  | [] => [(j_snippet r, [j_tag_name r])]
  | (s, ns) :: gs' =>
      if s_id s =? s_id (j_snippet r)
      then (s, j_tag_name r :: ns) :: gs'
      else (s, ns) :: add_to_group r gs'
  end.

Definition group_by_id (rows : list joined_row) : list group :=
  fold_right add_to_group [] rows.

(** [GROUP_CONCAT(t.name)]: the non-NULL names joined by commas; NULL when
    the group has none. *)
Fixpoint group_concat (ns : list (option string)) : option string :=
  match ns with
  | [] => None
  | None :: ns' => group_concat ns'
  | Some n :: ns' =>
      match group_concat ns' with
      | None => Some n
      | Some rest => Some (n ++ "," ++ rest)%string
      end
  end.

(** [ORDER BY s.created_at DESC]; groups of equal [created_at] keep their
    order (SQLite leaves the order among them open). *)
Fixpoint insert_desc (g : group) (sorted : list group) : list group :=
  match sorted with
  | [] => [g]
  | h :: t =>
      if s_created_at (fst h) <? s_created_at (fst g)
      then g :: h :: t
      else h :: insert_desc g t
  end.

Definition order_by_created_at_desc (gs : list group) : list group :=
  fold_right insert_desc [] gs.

(** A row as [db.all] hands it to the callback. *)
Record result_row := {
  r_id : Z;
  r_title : string;
  r_code : string;
  r_language : string;
  r_created_at : Z;
  r_tags : option string
}.

Definition select_columns (g : group) : result_row :=
  {| r_id := s_id (fst g);
     r_title := s_title (fst g);
     r_code := s_code (fst g);
     r_language := s_language (fst g);
     r_created_at := s_created_at (fst g);
     r_tags := group_concat (snd g) |}.

(** The whole [SELECT]; [pattern] is [None] when the query carries no
    [WHERE]. *)
Definition select_snippets (db : database) (pattern : option string)
  : list result_row :=
  let rows := from_clause db in
  let kept :=
    match pattern with
    | Some p => filter (where_clause p) rows
    | None => rows
    end in
  map select_columns (order_by_created_at_desc (group_by_id kept)).

End Sqlite.

(** ** [config/database.js] *)
Module Database.
Import Sqlite.

(** [createConnection]: a new connection to the database file.  Nothing is
    run on it; in particular no pragma. *)
Definition createConnection (db : database) : connection := open db.

(** [initializeDatabase]: opens a connection, turns foreign keys on for
    that connection, creates the three tables if they are missing (they are
    part of every [database] here, so the three statements change nothing)
    and closes the connection. *)
Definition initializeDatabase (db : database) : database :=
  let c := pragma_foreign_keys_on (createConnection db) in
  close c.

End Database.

(** ** [models/snippetModel.js] *)
Module SnippetModel.
Import Sqlite Database.

(** The statements the model sends to the store. *)
Inductive statement :=
| SqlBegin
| SqlCommit
| SqlRollback
| SqlInsertSnippet (title code language : string)
| SqlInsertTag (name : string)
| SqlSelectTag (name : string)
| SqlLink (snippet_id tag_id : Z)
| SqlDelete (id : sql_value)
| SqlSelectSnippets (pattern : option string).

(** One line of the store's log: a statement and the error it ended with. *)
Definition logged := (statement * option sql_error)%type.

(** Failures of the store that do not come from the data (I/O, disk,
    locking): whether the statement run at position [k] of the call fails,
    and with what.  The error tells whether the transaction survives
    ([ends_transaction]). *)
Definition faults := nat -> statement -> option sql_error.

Definition no_faults : faults := fun _ _ => None.

(** How a promise ends.  [Uncaught]: an exception left a callback, the
    promise is never settled.  [Pending]: callbacks are still outstanding. *)
Inductive promise (A : Type) :=
| Resolved (a : A)
| Rejected (e : sql_error)
| Uncaught
| Pending.
Arguments Resolved {A} a.
Arguments Rejected {A} e.
Arguments Uncaught {A}.
Arguments Pending {A}.

(** A finished call: what the database file holds, how the promise ended,
    and the statements that reached the store. *)
Record outcome (A : Type) := {
  file : database;
  settled : promise A;
  trace : list logged
}.
Arguments file {A} o.
Arguments settled {A} o.
Arguments trace {A} o.

(** *** [getAllSnippets] *)

Record snippet := {
  id : Z;
  title : string;
  code : string;
  language : string;
  created_at : Z;
  tag_names : list string   (* the [tags] property *)
}.

(** [{ ...row, tags: row.tags ? row.tags.split(',') : [] }]. *)
Definition parse_row (row : result_row) : snippet :=
  {| id := r_id row;
     title := r_title row;
     code := r_code row;
     language := r_language row;
     created_at := r_created_at row;
     tag_names :=
       match r_tags row with
       | Some t => if Js.truthy t then Js.split "," t else []
       | None => []
       end |}.

(** The parameter bound to the four [LIKE]s, [`%${searchQuery}%`]; an empty
    [searchQuery] adds no [WHERE] to the query. *)
Definition search_pattern (searchQuery : string) : option string :=
  if Js.truthy searchQuery then Some ("%" ++ searchQuery ++ "%")%string else None.

(** [getAllSnippets(searchQuery)]: one [SELECT] on a connection of its own;
    the rows are mapped to records, or the store's error is handed on. *)
Definition getAllSnippets (fault : faults) (db : database) (searchQuery : string)
  : outcome (list snippet) :=
  let c := createConnection db in
  let stmt := SqlSelectSnippets (search_pattern searchQuery) in
  match fault 0%nat stmt with
  | Some e =>
      {| file := close c; settled := Rejected e; trace := [(stmt, Some e)] |}
  | None =>
      let rows := select_snippets (c_db c) (search_pattern searchQuery) in
      {| file := close c;
         settled := Resolved (map parse_row rows);
         trace := [(stmt, None)] |}
  end.

(** *** [createSnippet] *)

(** [snippetData]: [{ title, code, language, tags }]. *)
Record snippet_data := {
  d_title : string;
  d_code : string;
  d_language : string;
  d_tags : list string
}.

(** [{ id: snippetId, ...snippetData }]. *)
Record created := { new_id : Z; new_data : snippet_data }.

(** [{ ...snippetData, tags: [] }]. *)
Definition without_tags (d : snippet_data) : snippet_data :=
  {| d_title := d_title d; d_code := d_code d;
     d_language := d_language d; d_tags := [] |}.

(** The variables the tag callbacks share: the connection, the statements
    handed to the driver whose callbacks have not run yet, [processedTags],
    [tagErrors], the promise, and the store's log. *)
Record tag_loop := {
  conn : connection;
  pending : list statement;
  processedTags : nat;
  tagErrors : list sql_error;
  result : promise created;
  log : list logged
}.

(** [db.run('ROLLBACK')], whose result the program does not read: the
    connection afterwards and the line of the log.  Outside a transaction
    the statement fails and changes nothing.  (Should the rollback of an
    open transaction fail, [db.close()] discards the transaction all the
    same.) *)
Definition run_rollback (c : connection) : connection * logged :=
  match c_saved c with
  | Some _ => (rollback c, (SqlRollback, None))
  | None => (c, (SqlRollback, Some NoTransaction))
  end.

(** [db.run('COMMIT')] as statement number [k] of the call; its result is
    not read either.  A commit that fails keeps nothing: the transaction
    is rolled back by SQLite or stays open until [db.close()]. *)
Definition run_commit (fault : faults) (k : nat) (c : connection)
  : connection * logged :=
  match c_saved c with
  | Some _ =>
      match fault k SqlCommit with
      | Some e => (fail_statement c e, (SqlCommit, Some e))
      | None => (commit c, (SqlCommit, None))
      end
  | None => (c, (SqlCommit, Some NoTransaction))
  end.

(** [checkCompletion()]: once every tag is counted, roll back and reject
    with [tagErrors[0]] if there was an error, commit and resolve if not. *)
Definition checkCompletion (fault : faults) (snippetId : Z) (data : snippet_data)
  (st : tag_loop) : tag_loop :=
  if (processedTags st =? List.length (d_tags data))%nat then
    match tagErrors st with
    | e :: _ =>
        {| conn := fst (run_rollback (conn st));
           pending := pending st;
           processedTags := processedTags st;
           tagErrors := tagErrors st;
           result := Rejected e;
           log := log st ++ [snd (run_rollback (conn st))] |}
    | [] =>
        {| conn := fst (run_commit fault (List.length (log st)) (conn st));
           pending := pending st;
           processedTags := processedTags st;
           tagErrors := tagErrors st;
           result := Resolved {| new_id := snippetId; new_data := data |};
           log := log st ++ [snd (run_commit fault (List.length (log st)) (conn st))] |}
    end
  else st.

(** [tagErrors.push(err); processedTags++; checkCompletion()] after
    statement [stmt] ended with [err], the statements in [rest] remaining. *)
Definition tag_failed (fault : faults) (snippetId : Z) (data : snippet_data)
  (st : tag_loop) (rest : list statement) (stmt : statement) (err : sql_error)
  : tag_loop :=
  checkCompletion fault snippetId data
    {| conn := fail_statement (conn st) err;
       pending := rest;
       processedTags := S (processedTags st);
       tagErrors := tagErrors st ++ [err];
       result := result st;
       log := log st ++ [(stmt, Some err)] |}.

(** The statement at position [i] of a list, and the list without it. *)
Fixpoint take_at {A} (i : nat) (l : list A) {struct l} : option (A * list A) :=
  match l with
  | [] => None
  | x :: l' =>
      match i with
      | O => Some (x, l')
      | S i' =>
          match take_at i' l' with
          | Some (y, r) => Some (y, x :: r)
          | None => None
          end
      end
  end.

(** The driver finishes one of the outstanding statements; which one is
    not fixed by the program ([choice] is reduced modulo their number). *)
Definition pick {A} (choice : nat) (l : list A) : option (A * list A) :=
  take_at (choice mod List.length l) l.

(** One statement finishes and its callback runs. *)
Definition step (fault : faults) (snippetId : Z) (data : snippet_data)
  (choice : nat) (st : tag_loop) : tag_loop :=
  match pick choice (pending st) with
  | None => st
  | Some (stmt, rest) =>
      match fault (List.length (log st)) stmt with
      | Some err => tag_failed fault snippetId data st rest stmt err
      | None =>
          match stmt with
          | SqlInsertTag name =>
              (* INSERT OR IGNORE succeeded: look the tag up *)
              {| conn := with_db (conn st)
                           (insert_or_ignore_tag (c_db (conn st)) name);
                 pending := rest ++ [SqlSelectTag name];
                 processedTags := processedTags st;
                 tagErrors := tagErrors st;
                 result := result st;
                 log := log st ++ [(stmt, None)] |}
          | SqlSelectTag name =>
              match select_tag_id (c_db (conn st)) name with
              | Some tag_id =>
                  (* row.id: link the snippet to the tag *)
                  {| conn := conn st;
                     pending := rest ++ [SqlLink snippetId tag_id];
                     processedTags := processedTags st;
                     tagErrors := tagErrors st;
                     result := result st;
                     log := log st ++ [(stmt, None)] |}
              | None =>
                  (* row is undefined: row.id throws inside the callback *)
                  {| conn := conn st;
                     pending := [];
                     processedTags := processedTags st;
                     tagErrors := tagErrors st;
                     result := Uncaught;
                     log := log st ++ [(stmt, None)] |}
              end
          | SqlLink snippet_id tag_id =>
              match insert_snippet_tag (conn st) snippet_id tag_id with
              | inl err => tag_failed fault snippetId data st rest stmt err
              | inr c' =>
                  checkCompletion fault snippetId data
                    {| conn := c';
                       pending := rest;
                       processedTags := S (processedTags st);
                       tagErrors := tagErrors st;
                       result := result st;
                       log := log st ++ [(stmt, None)] |}
              end
          | _ => st
          end
      end
  end.

(** The order in which the driver finishes outstanding statements: the
    choice made at each step. *)
Definition schedule := nat -> nat.

(** First in, first out. *)
Definition fifo : schedule := fun _ => 0%nat.

Fixpoint run_callbacks (fault : faults) (snippetId : Z) (data : snippet_data)
  (sched : schedule) (fuel step_no : nat) (st : tag_loop) : tag_loop :=
  match fuel with
  | O => st
  | S fuel' =>
      run_callbacks fault snippetId data sched fuel' (S step_no)
        (step fault snippetId data (sched step_no) st)
  end.

(** [tags.forEach(...)]: the insert of every tag is handed to the driver;
    no callback has run, [processedTags] is 0 and [tagErrors] is empty.
    [so_far] is what the store has logged for the call. *)
Definition forEach_tag (c : connection) (tags : list string) (so_far : list logged)
  : tag_loop :=
  {| conn := c;
     pending := map SqlInsertTag tags;
     processedTags := 0;
     tagErrors := [];
     result := Pending;
     log := so_far |}.

(** What the caller and the database file are left with when the loop
    stops: [db.close()] has run if the promise was settled, and a process
    that died in a callback leaves its transaction open. *)
Definition finished (st : tag_loop) : outcome created :=
  {| file := close (conn st); settled := result st; trace := log st |}.

(** [language || 'javascript']. *)
Definition language_or_default (l : string) : string :=
  if Js.truthy l then l else "javascript".

(** [createSnippet(snippetData)], run at clock reading [now].  Every tag
    takes three statements, so [3 * tags.length] steps let every callback
    run. *)
Definition createSnippet (fault : faults) (sched : schedule) (now : Z)
  (db : database) (data : snippet_data) : outcome created :=
  let c0 := begin_transaction (createConnection db) in
  let ins := SqlInsertSnippet (d_title data) (d_code data)
               (language_or_default (d_language data)) in
  match fault 1%nat ins with
  | Some err =>
      let undone := run_rollback (fail_statement c0 err) in
      {| file := close (fst undone);
         settled := Rejected err;
         trace := [(SqlBegin, None); (ins, Some err); snd undone] |}
  | None =>
      let (db1, snippetId) :=
        insert_snippet (c_db c0) (d_title data) (d_code data)
          (language_or_default (d_language data)) now in
      let c1 := with_db c0 db1 in
      match d_tags data with
      | [] =>
          let done := run_commit fault 2 c1 in
          {| file := close (fst done);
             settled := Resolved {| new_id := snippetId;
                                    new_data := without_tags data |};
             trace := [(SqlBegin, None); (ins, None); snd done] |}
      | tags =>
          finished
            (run_callbacks fault snippetId data sched (3 * List.length tags) 0
               (forEach_tag c1 tags [(SqlBegin, None); (ins, None)]))
      end
  end.

(** The head of a tag's chain run back to back: [INSERT OR IGNORE INTO
    tags] and, from its callback, [SELECT id FROM tags WHERE name = ?].
    This is the insert-or-reuse of one tag name: the database afterwards
    and the [row.id] the lookup hands to the link. *)
Definition insert_or_reuse_tag (db : database) (name : string)
  : database * option Z :=
  let db' := insert_or_ignore_tag db name in
  (db', select_tag_id db' name).

(** *** [deleteSnippet] *)

(** [{ success: true, changes: this.changes }]. *)
Record deleted := { success : bool; changes : Z }.

(** [deleteSnippet(id)]: one [DELETE] on a connection of its own, outside
    any transaction. *)
Definition deleteSnippet (real : conversion) (fault : faults) (db : database)
  (id : sql_value) : outcome deleted :=
  let c := createConnection db in
  let stmt := SqlDelete id in
  match fault 0%nat stmt with
  | Some err =>
      {| file := close c; settled := Rejected err; trace := [(stmt, Some err)] |}
  | None =>
      let (c', n) := delete_snippet real c id in
      {| file := close c';
         settled := Resolved {| success := true; changes := n |};
         trace := [(stmt, None)] |}
  end.

End SnippetModel.

(** ** [controllers/snippetController.js] *)
Module SnippetController.
Import Sqlite SnippetModel.

(** What the handler does with the response object. *)
Inductive response (A : Type) :=
| Json (status : nat) (ok : bool) (message : string) (data : option A)
| Next (e : sql_error)     (* next(error): the error handler answers *)
| NoResponse.              (* the awaited promise never settles *)
Arguments Json {A} status ok message data.
Arguments Next {A} e.
Arguments NoResponse {A}.

(** A handled request: the database file afterwards, the response, and the
    statements that reached the store. *)
Record handled (A : Type) := {
  h_file : database;
  h_response : response A;
  h_trace : list logged
}.
Arguments h_file {A} h.
Arguments h_response {A} h.
Arguments h_trace {A} h.

(** [req.body] of [POST /api/snippets] once [express.json()] has accepted
    the request: an object whose [title], [code] and [language] are
    strings and whose [tags] is an array of strings, as the frontend sends
    them; a missing field is [None].  A request [express.json()] refuses
    never reaches the handler, and values of other types are outside the
    embedding. *)
Record create_body := {
  b_title : option string;
  b_code : option string;
  b_language : option string;
  b_tags : option (list string)
}.

Definition field (v : option string) : string :=
  match v with
  | Some s => s
  | None => EmptyString
  end.

(** [createSnippet(req, res, next)]. *)
Definition createSnippet (fault : faults) (sched : schedule) (now : Z)
  (db : database) (body : create_body) : handled created :=
  if negb (Js.truthy_opt (b_title body)) || negb (Js.truthy_opt (b_code body))
  then
    {| h_file := db;
       h_response := Json 400 false "Title and code are required" None;
       h_trace := [] |}
  else
    let r := SnippetModel.createSnippet fault sched now db
               {| d_title := field (b_title body);
                  d_code := field (b_code body);
                  d_language := Js.or_else Js.truthy (b_language body) "javascript";
                  d_tags := match b_tags body with Some t => t | None => [] end |} in
    {| h_file := file r;
       h_response :=
         match settled r with
         | Resolved s => Json 201 true "Snippet created successfully" (Some s)
         | Rejected e => Next e
         | Uncaught => NoResponse
         | Pending => NoResponse
         end;
       h_trace := trace r |}.

(** [deleteSnippet(req, res, next)]; [id] is [req.params.id], a string. *)
Definition deleteSnippet (real : conversion) (fault : faults) (db : database)
  (id : string) : handled unit :=
  if Js.isNaN id then
    {| h_file := db;
       h_response := Json 400 false "Invalid snippet ID" None;
       h_trace := [] |}
  else
    let r := SnippetModel.deleteSnippet real fault db (VText id) in
    {| h_file := file r;
       h_response :=
         match settled r with
         | Resolved d =>
             if changes d =? 0
             then Json 404 false "Snippet not found" None
             else Json 200 true "Snippet deleted successfully" None
         | Rejected e => Next e
         | Uncaught => NoResponse
         | Pending => NoResponse
         end;
       h_trace := trace r |}.

(** [getSnippets(req, res, next)]: [req.query.search || '']. *)
Definition getSnippets (fault : faults) (db : database) (search : option string)
  : handled (list snippet) :=
  let r := getAllSnippets fault db (Js.or_else Js.truthy search EmptyString) in
  {| h_file := file r;
     h_response :=
       match settled r with
       | Resolved l => Json 200 true EmptyString (Some l)
       | Rejected e => Next e
       | Uncaught => NoResponse
       | Pending => NoResponse
       end;
     h_trace := trace r |}.

End SnippetController.


(** * Around the model: the error middleware, the server's replies and the
      frontend's form logic

    - [Middleware]: [errorHandler] and [notFound] of
      [middleware/errorHandler.js], working on the response object;
    - [Server]: what a client receives for a handled request, the handler's
      [next(error)] going through [errorHandler];
    - [Utils]: [validateSnippetData] and [debounce] of the frontend's
      [utils.js];
    - [Api]: [fetchAPI] and the calls built on it;
    - [App]: [loadSnippets], [handleCreateSnippet] and
      [handleDeleteSnippet] of [app.js], run against the server;
    - [SnippetForm]: the tag list, [getData], [validate] and [submit] of
      the form component;
    - [SearchBar]: the debounced search of the search bar component.

    The request body travels as JSON and the search text as a query
    parameter; both arrive as they were sent. *)

(** ** [middleware/errorHandler.js] *)
Module Middleware.

(** An [Error] as the middleware reads it.  [statusCode] is a property the
    errors of the driver and [new Error(..)] do not have. *)
Record js_error := {
  statusCode : option nat;
  message : string;
  stack : string
}.

(** The body [errorHandler] sends; the [stack] property is there in
    development only. *)
Record error_json := {
  j_success : bool;
  j_message : string;
  j_stack : option string
}.

(** The response object: the status set so far (200 until [res.status] is
    called) and the body once one was sent. *)
Record res := {
  res_status : nat;
  res_sent : option error_json
}.

Definition new_res : res := {| res_status := 200%nat; res_sent := None |}.

(** [res.status(n)]. *)
Definition set_status (n : nat) (r : res) : res :=
  {| res_status := n; res_sent := res_sent r |}.

(** [res.json(body)]. *)
Definition send_json (j : error_json) (r : res) : res :=
  {| res_status := res_status r; res_sent := Some j |}.

(** [errorHandler(err, req, res, next)]; [development] is
    [process.env.NODE_ENV === 'development'].  In [err.statusCode || 500]
    the number 0 is falsy. *)
Definition errorHandler (development : bool) (err : js_error) (r : res) : res :=
  let statusCode :=
    match statusCode err with
    | Some n => if (n =? 0)%nat then 500%nat else n
    | None => 500%nat
    end in
  send_json
    {| j_success := false;
       j_message := if Js.truthy (message err) then message err
                    else "Internal Server Error";
       j_stack := if development then Some (stack err) else None |}
    (set_status statusCode r).

(** [notFound(req, res, next)]: the error made for [req.originalUrl]
    ([trace] is the stack the runtime gives it), the status set to 404, and
    the error handed to [next]. *)
Definition notFound (originalUrl : string) (trace : string) (r : res)
  : res * js_error :=
  let error := {| statusCode := None;
                  message := ("Not Found - " ++ originalUrl)%string;
                  stack := trace |} in
  (set_status 404%nat r, error).

End Middleware.

(** ** [server.js]: the replies of the API routes *)
Module Server.
Import Sqlite SnippetModel SnippetController Middleware.

(** The error the driver hands to a callback for a failed statement:
    SQLite's text for it ([text]) as the message, a stack, and no
    [statusCode]. *)
Definition driver_error (text : sql_error -> string) (trace : string)
  (e : sql_error) : js_error :=
  {| statusCode := None; message := text e; stack := trace |}.

(** What the client receives: the status line and the JSON body. *)
Record reply (A : Type) := {
  status : nat;
  success : bool;
  r_message : string;
  data : option A;
  r_stack : option string
}.
Arguments status {A} r.
Arguments success {A} r.
Arguments r_message {A} r.
Arguments data {A} r.
Arguments r_stack {A} r.

(** The process the server runs in: the store's conversion of real
    literals and its failures, the order of the callbacks, the clock,
    [NODE_ENV], and the texts and the stack of the driver's errors. *)
Record process := {
  p_real : conversion;
  p_fault : faults;
  p_sched : schedule;
  p_now : Z;
  p_development : bool;
  p_text : sql_error -> string;
  p_trace : string
}.

(** The reply to a handled request: the handler's own, or the one
    [errorHandler] sends for the error handed to [next]; none while the
    handler waits for a promise that does not settle. *)
Definition reply_to {A} (p : process) (r : response A) : option (reply A) :=
  match r with
  | Json s ok m d =>
      Some {| status := s; success := ok; r_message := m; data := d;
              r_stack := None |}
  | Next e =>
      let sent := errorHandler (p_development p)
                    (driver_error (p_text p) (p_trace p) e) new_res in
      match res_sent sent with
      | Some j =>
          Some {| status := res_status sent; success := j_success j;
                  r_message := j_message j; data := None;
                  r_stack := j_stack j |}
      | None => None
      end
  | NoResponse => None
  end.

(** [POST /api/snippets]: the file afterwards and the reply. *)
Definition post_snippets (p : process) (db : database) (body : create_body)
  : database * option (reply created) :=
  let h := SnippetController.createSnippet (p_fault p) (p_sched p) (p_now p) db body in
  (h_file h, reply_to p (h_response h)).

(** [GET /api/snippets], with or without [?search=]. *)
Definition get_snippets (p : process) (db : database) (search : option string)
  : database * option (reply (list snippet)) :=
  let h := SnippetController.getSnippets (p_fault p) db search in
  (h_file h, reply_to p (h_response h)).

(** [DELETE /api/snippets/:id]. *)
Definition delete_snippets (p : process) (db : database) (id : string)
  : database * option (reply unit) :=
  let h := SnippetController.deleteSnippet (p_real p) (p_fault p) db id in
  (h_file h, reply_to p (h_response h)).

(** A request no route takes ([app.use(notFound)], then
    [app.use(errorHandler)]). *)
Definition unrouted (development : bool) (originalUrl trace : string) : res :=
  let (r, error) := notFound originalUrl trace new_res in
  errorHandler development error r.

End Server.

(** ** The frontend's [utils.js] *)
Module Utils.

(** The object [validateSnippetData] reads; a property may be missing. *)
Record form_data := {
  f_title : option string;
  f_code : option string;
  f_language : option string;
  f_tags : list string
}.

Record validation := { isValid : bool; errors : list string }.

(** [!s || s.trim().length === 0] for a property that may be missing. *)
Definition blank (v : option string) : bool :=
  match v with
  | None => true
  | Some s => negb (Js.truthy s) || (String.length (Text.trim s) =? 0)%nat
  end.

(** [validateSnippetData(data)]: the messages are pushed in this order. *)
Definition validateSnippetData (data : form_data) : validation :=
  let errors0 : list string := [] in
  let errors1 :=
    if blank (f_title data) then errors0 ++ ["Title is required"]
    else if (200 <? String.length (SnippetController.field (f_title data)))%nat
         then errors0 ++ ["Title must be less than 200 characters"]
         else errors0 in
  let errors2 :=
    if blank (f_code data) then errors1 ++ ["Code is required"] else errors1 in
  let errors3 :=
    if negb (Js.truthy_opt (f_language data))
    then errors2 ++ ["Language is required"] else errors2 in
  {| isValid := (List.length errors3 =? 0)%nat; errors := errors3 |}.

(** [parts.join(sep)]. *)
Fixpoint join (sep : string) (parts : list string) : string :=
  match parts with
  | [] => EmptyString
  | [x] => x
  | x :: rest => (x ++ sep ++ join sep rest)%string
  end.

(** [debounce(func, delay)]: the closure keeps [timeoutId]; here, the
    arguments the pending timer will hand to [func], if a timer is
    pending.  When a due timer runs against later calls is up to the event
    loop, so the timer's running is an event of its own. *)
Definition debounced (A : Type) := option A.

(** A call of the debounced function: [clearTimeout], then [setTimeout]. *)
Definition debounced_call {A} (args : A) (timeoutId : debounced A) : debounced A :=
  Some args.

(** The pending timer runs: [func] is applied to the arguments of the call
    that set it.  No timer, no call. *)
Definition timer_runs {A} (timeoutId : debounced A) : debounced A * option A :=
  match timeoutId with
  | Some args => (None, Some args)
  | None => (None, None)
  end.

End Utils.

(** ** The frontend's [api.js] *)
Module Api.
Import Server SnippetController.

(** [response.ok]: a status from 200 to 299. *)
Definition ok (status : nat) : bool := ((200 <=? status) && (status <=? 299))%nat.

(** [fetchAPI]: the parsed body of a reply that is [ok]; otherwise the
    message of the [Error] it throws, [data.message || 'API request
    failed']. *)
Definition fetchAPI {A} (r : reply A) : string + reply A :=
  if ok (status r) then inr r
  else inl (if Js.truthy (r_message r) then r_message r else "API request failed").

(** The query of [getSnippets(searchQuery)]: [?search=] only for a truthy
    search text. *)
Definition search_parameter (searchQuery : string) : option string :=
  if Js.truthy searchQuery then Some searchQuery else None.

(** The body of [createSnippet(snippetData)], as [express.json()] reads
    it. *)
Definition request_body (data : Utils.form_data) : create_body :=
  {| b_title := Utils.f_title data;
     b_code := Utils.f_code data;
     b_language := Utils.f_language data;
     b_tags := Some (Utils.f_tags data) |}.

(** [`${snippetId}`], the last segment of the URL of [deleteSnippet]: an
    integer (below 10^21 in size) prints as its decimal digits, after a
    minus sign when it is negative. *)
Definition digit_char (d : Z) : ascii := ascii_of_nat (48 + Z.to_nat d).

Fixpoint digits (fuel : nat) (n : Z) (acc : string) : string :=
  match fuel with
  | O => acc
  | S fuel' =>
      let acc' := String (digit_char (n mod 10)) acc in
      if n <? 10 then acc' else digits fuel' (n / 10) acc'
  end.

Definition number_to_string (n : Z) : string :=
  if n <? 0 then String "-" (digits (S (Z.to_nat (- n))) (- n) EmptyString)
  else digits (S (Z.to_nat n)) n EmptyString.

End Api.

(** ** The frontend's [app.js] *)
Module App.
Import Sqlite SnippetModel Server Utils.

(** [UI.showNotification(message, type)]. *)
Record notification := { n_message : string; n_type : string }.

(** What a handler leaves behind: the database file on the server, the
    notifications shown in order, and [state.snippets]. *)
Record page := {
  server_file : database;
  shown : list notification;
  state_snippets : list snippet
}.

(** [loadSnippets(searchQuery)]: the listing becomes [state.snippets]; a
    failure is notified and not thrown on.  A request without a reply
    leaves the page waiting. *)
Definition loadSnippets (p : process) (searchQuery : string) (pg : page)
  : option page :=
  let (db, answer) := get_snippets p (server_file pg) (Api.search_parameter searchQuery) in
  match answer with
  | None => None
  | Some r =>
      match Api.fetchAPI r with
      | inr body =>
          Some {| server_file := db;
                  shown := shown pg;
                  state_snippets :=
                    match data body with Some l => l | None => [] end |}
      | inl _ =>
          Some {| server_file := db;
                  shown := shown pg ++
                    [{| n_message := "Failed to load snippets"; n_type := "danger" |}];
                  state_snippets := state_snippets pg |}
      end
  end.

(** The values of the form's elements when [Save] is clicked;
    [tagContainer] is what [UI.getTagsFromContainer()] reads. *)
Record form_inputs := {
  snippetTitle : string;
  snippetCode : string;
  snippetLanguage : string;
  tagContainer : list string
}.

(** [handleCreateSnippet()].  The listing is reloaded on the same server
    after the snippet was created. *)
Definition handleCreateSnippet (p : process) (inputs : form_inputs) (pg : page)
  : option page :=
  let snippetData :=
    {| f_title := Some (Text.trim (snippetTitle inputs));
       f_code := Some (Text.trim (snippetCode inputs));
       f_language := Some (snippetLanguage inputs);
       f_tags := tagContainer inputs |} in
  let validation := validateSnippetData snippetData in
  if negb (isValid validation) then
    Some {| server_file := server_file pg;
            shown := shown pg ++
              [{| n_message := join ", " (errors validation); n_type := "warning" |}];
            state_snippets := state_snippets pg |}
  else
    let (db, answer) := post_snippets p (server_file pg) (Api.request_body snippetData) in
    match answer with
    | None => None
    | Some r =>
        match Api.fetchAPI r with
        | inl _ =>
            Some {| server_file := db;
                    shown := shown pg ++
                      [{| n_message := "Failed to create snippet";
                          n_type := "danger" |}];
                    state_snippets := state_snippets pg |}
        | inr _ =>
            match loadSnippets p EmptyString
                    {| server_file := db; shown := shown pg;
                       state_snippets := state_snippets pg |} with
            | None => None
            | Some pg' =>
                Some {| server_file := server_file pg';
                        shown := shown pg' ++
                          [{| n_message := "Snippet created successfully!";
                              n_type := "success" |}];
                        state_snippets := state_snippets pg' |}
            end
        end
    end.

(** [handleDeleteSnippet(snippetId)]; [confirmed] is the answer to the
    [confirm] dialog. *)
Definition handleDeleteSnippet (p : process) (confirmed : bool) (snippetId : Z)
  (pg : page) : option page :=
  if negb confirmed then Some pg
  else
    let (db, answer) :=
      delete_snippets p (server_file pg) (Api.number_to_string snippetId) in
    match answer with
    | None => None
    | Some r =>
        match Api.fetchAPI r with
        | inl _ =>
            Some {| server_file := db;
                    shown := shown pg ++
                      [{| n_message := "Failed to delete snippet";
                          n_type := "danger" |}];
                    state_snippets := state_snippets pg |}
        | inr _ =>
            match loadSnippets p EmptyString
                    {| server_file := db; shown := shown pg;
                       state_snippets := state_snippets pg |} with
            | None => None
            | Some pg' =>
                Some {| server_file := server_file pg';
                        shown := shown pg' ++
                          [{| n_message := "Snippet deleted successfully";
                              n_type := "success" |}];
                        state_snippets := state_snippets pg' |}
            end
        end
    end.

End App.

(** ** The form component *)
Module SnippetForm.
Import Utils.

(** [s.toLowerCase()]. *)
Fixpoint toLowerCase (s : string) : string :=
  match s with
  | EmptyString => EmptyString
  | String c s' => String (Sqlite.lower c) (toLowerCase s')
  end.

(** [tags.includes(t)]. *)
Definition includes (tags : list string) (t : string) : bool :=
  existsb (String.eqb t) tags.

(** The fields of the component and the values of its elements;
    [languages] are the options of the dropdown. *)
Record form := {
  titleInput : string;
  codeInput : string;
  languageSelect : string;
  tagInput : string;
  languages : list string;
  tags : list string
}.

Definition with_tags (f : form) (ts : list string) : form :=
  {| titleInput := titleInput f; codeInput := codeInput f;
     languageSelect := languageSelect f; tagInput := tagInput f;
     languages := languages f; tags := ts |}.

(** [addTag(tagName)]: the form afterwards and the returned flag. *)
Definition addTag (tagName : string) (f : form) : form * bool :=
  if negb (Js.truthy tagName) || (String.length (Text.trim tagName) =? 0)%nat
  then (f, false)
  else
    let trimmedTag := toLowerCase (Text.trim tagName) in
    if includes (tags f) trimmedTag then (f, false)
    else (with_tags f (tags f ++ [trimmedTag]), true).

(** [removeTag(tagName)]. *)
Definition removeTag (tagName : string) (f : form) : form :=
  with_tags f (filter (fun tag => negb (String.eqb tag tagName)) (tags f)).

(** [reset()]: [selectedIndex = 0] selects the first option, if any. *)
Definition reset (f : form) : form :=
  {| titleInput := EmptyString; codeInput := EmptyString;
     languageSelect := hd EmptyString (languages f);
     tagInput := EmptyString;
     languages := languages f; tags := [] |}.

(** [getData()]. *)
Definition getData (f : form) : form_data :=
  {| f_title := Some (Text.trim (titleInput f));
     f_code := Some (Text.trim (codeInput f));
     f_language := Some (languageSelect f);
     f_tags := tags f |}.

(** [validate()]. *)
Definition validate (f : form) : validation :=
  let data := getData f in
  let errors0 : list string := [] in
  let errors1 :=
    if negb (Js.truthy_opt (f_title data))
    then errors0 ++ ["Title is required"] else errors0 in
  let errors2 :=
    if negb (Js.truthy_opt (f_code data))
    then errors1 ++ ["Code is required"] else errors1 in
  let errors3 :=
    if negb (Js.truthy_opt (f_language data))
    then errors2 ++ ["Language is required"] else errors2 in
  {| isValid := (List.length errors3 =? 0)%nat; errors := errors3 |}.

(** What [submit()] did: the [alert]s shown and the data handed to
    [onSubmit], if it was called. *)
Record submitted := {
  form_after : form;
  alerts : list string;
  handed : option form_data
}.

(** [submit()]; [onSubmit data] tells whether the promise of the callback
    resolves ([true]) or is rejected.  The errors are joined by a line
    feed. *)
Definition submit (onSubmit : form_data -> bool) (f : form) : submitted :=
  let validation := validate f in
  if negb (isValid validation) then
    {| form_after := f;
       alerts := [join (String (ascii_of_nat 10) EmptyString) (errors validation)];
       handed := None |}
  else
    let data := getData f in
    if onSubmit data then
      {| form_after := reset f; alerts := []; handed := Some data |}
    else
      {| form_after := f;
         alerts := ["Failed to save snippet. Please try again."];
         handed := Some data |}.

End SnippetForm.

(** ** The search bar component *)
Module SearchBar.

(** The value of the search input and the pending [debounceTimer] with the
    value its callback will search for. *)
Record search_bar := {
  searchInput : string;
  debounceTimer : option string
}.

(** What happens to the bar: the user types (the [input] event carries
    the new value), the pending timer runs, or [clear] or [setValue] is
    called. *)
Inductive bar_event :=
| Input (value : string)
| Timer
| Clear
| SetValue (value : string).

(** [performSearch(query)]: what [onSearch] is called with. *)
Definition performSearch (query : string) : string := Text.trim query.

(** [handleInput(value)]: [clearTimeout], then [setTimeout]. *)
Definition handleInput (value : string) (b : search_bar) : search_bar :=
  {| searchInput := searchInput b; debounceTimer := Some value |}.

(** The bar after an event and the calls of [onSearch] it made. *)
Definition on_event (b : search_bar) (e : bar_event) : search_bar * list string :=
  match e with
  | Input value =>
      (handleInput value {| searchInput := value; debounceTimer := debounceTimer b |},
       [])
  | Timer =>
      match debounceTimer b with
      | Some value =>
          ({| searchInput := searchInput b; debounceTimer := None |},
           [performSearch value])
      | None => (b, [])
      end
  | Clear =>
      ({| searchInput := EmptyString; debounceTimer := debounceTimer b |},
       [performSearch EmptyString])
  | SetValue value =>
      ({| searchInput := value; debounceTimer := debounceTimer b |},
       [performSearch value])
  end.

(** [getValue()]. *)
Definition getValue (b : search_bar) : string := Text.trim (searchInput b).

(** The bar after a run of events, and all calls of [onSearch] in order. *)
Fixpoint run (b : search_bar) (events : list bar_event) : search_bar * list string :=
  match events with
  | [] => (b, [])
  | e :: rest =>
      let (b1, calls1) := on_event b e in
      let (b2, calls2) := run b1 rest in
      (b2, calls1 ++ calls2)
  end.

End SearchBar.
(** * Vocabulary of the properties *)

Import Sqlite Database SnippetModel SnippetController.

(** ** Stores *)

(** The constraints the schema declares: [PRIMARY KEY] on both [id]
    columns and on the pair of [snippet_tags], [UNIQUE] on [tags.name]. *)
Record constraints_hold (db : database) : Prop := {
  snippet_ids_unique : NoDup (map s_id (snippets db));
  tag_ids_unique : NoDup (map t_id (tags db));
  tag_names_unique : NoDup (map t_name (tags db));
  links_unique : NoDup (snippet_tags db)
}.

(** [sqlite_sequence] is at least every rowid in use, and every link row
    was made for a snippet whose rowid it has seen. *)
Record sequence_ahead (db : database) : Prop := {
  snippets_below_seq : Forall (fun s => s_id s <= seq_snippets db) (snippets db);
  links_below_seq : Forall (fun l => l_snippet_id l <= seq_snippets db) (snippet_tags db);
  tags_below_seq : Forall (fun t => t_id t <= seq_tags db) (tags db)
}.


(** [name] is the name of a tag linked to snippet [sid] by a row of
    [snippet_tags]. *)
Definition is_linked (db : database) (sid : Z) (name : string) : Prop :=
  exists l t,
    In l (snippet_tags db) /\ l_snippet_id l = sid /\
    In t (tags db) /\ t_id t = l_tag_id l /\ t_name t = name.

(** The values of a list of nullable values, the NULLs dropped. *)
Fixpoint somes {A} (l : list (option A)) : list A :=
  match l with
  | [] => []
  | Some a :: l' => a :: somes l'
  | None :: l' => somes l'
  end.

(** The names the joins find for a snippet, in join order. *)
Definition linked_names (db : database) (s : snippet_row) : list string :=
  somes (join_links db s).

(** ** Listings *)

(** What a listing call hands to its caller (nothing when the promise is
    rejected). *)
Definition listed (fault : faults) (db : database) (searchQuery : string)
  : list snippet :=
  match settled (getAllSnippets fault db searchQuery) with
  | Resolved l => l
  | _ => []
  end.

(** A listed record shows the columns of a stored row. *)
Definition shows (s : snippet) (row : snippet_row) : Prop :=
  id s = s_id row /\ title s = s_title row /\ code s = s_code row /\
  language s = s_language row /\ created_at s = s_created_at row.

Definition group_id (g : group) : Z := s_id (fst g).

Definition row_id (r : joined_row) : Z := s_id (j_snippet r).

Definition make_row (s : snippet_row) (n : option string) : joined_row :=
  {| j_snippet := s; j_tag_name := n |}.

(** The order [ORDER BY s.created_at DESC] asks for. *)
Definition newer_first (a b : group) : Prop :=
  s_created_at (fst b) <= s_created_at (fst a).

(** The joined rows that pass the [WHERE] clause of a listing. *)
Definition kept_rows (db : database) (searchQuery : string) : list joined_row :=
  match search_pattern searchQuery with
  | Some p => filter (where_clause p) (from_clause db)
  | None => from_clause db
  end.

(** A tag name that survives the round trip through [GROUP_CONCAT] and
    [split(',')]: not empty, no comma. *)
Definition plain_name (n : string) : Prop :=
  n <> EmptyString /\ Text.mem_char "," n = false.

(** ** The search filter in the spec's words *)

(** "The text appears as a case-insensitive substring": [q] is found at
    the head of [s], letter case aside ... *)
Fixpoint starts_with_nocase (q s : string) : bool :=
  match q with
  | EmptyString => true
  | String c q' =>
      match s with
      | EmptyString => false
      | String d s' => same_nocase c d && starts_with_nocase q' s'
      end
  end.

(** ... or at the head of one of the tails of [s]. *)
Fixpoint contains_nocase (q s : string) : bool :=
  starts_with_nocase q s
  || match s with
     | EmptyString => false
     | String _ s' => contains_nocase q s'
     end.

Fixpoint lower_string (s : string) : string :=
  match s with
  | EmptyString => EmptyString
  | String c s' => String (lower c) (lower_string s')
  end.

(** "... in title, code, language, or any associated tag name." *)
Definition matches_search (db : database) (q : string) (row : snippet_row) : Prop :=
  contains_nocase q (s_title row) = true \/
  contains_nocase q (s_code row) = true \/
  contains_nocase q (s_language row) = true \/
  exists n, is_linked db (s_id row) n /\ contains_nocase q n = true.

(** A search text without the two characters [LIKE] reads as wildcards. *)
Definition wildcard_free (q : string) : bool :=
  negb (Text.mem_char "%" q) && negb (Text.mem_char "_" q).

(** A text without the NUL character, at which [LIKE] stops reading. *)
Definition nul_free (s : string) : bool := negb (Text.mem_char zero s).

(** A store none of whose searched texts holds a NUL character. *)
Definition texts_nul_free (db : database) : Prop :=
  (forall s, In s (snippets db) ->
     nul_free (s_title s) = true /\ nul_free (s_code s) = true /\
     nul_free (s_language s) = true) /\
  (forall t, In t (tags db) -> nul_free (t_name t) = true).

(** ** Request validation in the spec's words *)

(** A body field that is missing or the empty string. *)
Definition absent (v : option string) : Prop := v = None \/ v = Some "".

(** "A positive integer", written in decimal digits. *)
Definition is_positive_integer (s : string) : bool :=
  Text.nonempty_all Text.is_digit s && (0 <? Text.digits_value 0 s)%Z.

(** ** Sample data *)

(** The first sample snippet of the schema file, with two of its tags. *)
Definition array_map : snippet_data :=
  {| d_title := "Array Map Example";
     d_code := "const doubled = [1, 2, 3].map(n => n * 2);";
     d_language := "javascript";
     d_tags := ["array"; "functional"] |}.

(** The store after [createSnippet(array_map)] on an empty database. *)
Definition sample_db : database :=
  file (SnippetModel.createSnippet no_faults fifo 100 empty_database array_map).

(** A snippet with the given tag names. *)
Definition tagged (names : list string) : snippet_data :=
  {| d_title := "t"; d_code := "c"; d_language := "javascript"; d_tags := names |}.

(** The store after a snippet without tags was created on an empty
    database. *)
Definition untagged_db : database :=
  file (SnippetModel.createSnippet no_faults fifo 100 empty_database (tagged [])).

(** A store that fails the statements picked out by [fails], each with a
    failure that leaves the transaction open. *)
Definition busy_at (fails : statement -> bool) : faults :=
  fun _ stmt => if fails stmt then Some (StoreFailure 5) else None.

(** A store that runs full at the insert of the tag [name]: the insert
    fails and SQLite rolls the transaction back. *)
Definition disk_full_at_tag (name : string) : faults :=
  fun _ stmt =>
    match stmt with
    | SqlInsertTag n => if String.eqb n name then Some (TransactionLost 13) else None
    | _ => None
    end.

(** A store that is locked when the call commits. *)
Definition busy_at_commit : faults :=
  fun _ stmt =>
    match stmt with
    | SqlCommit => Some (StoreFailure 5)
    | _ => None
    end.

(** ** The tag loop *)

(** The three statements of a tag's chain, and the number of callbacks a
    pending statement still stands for. *)
Definition is_tag_statement (stmt : statement) : bool :=
  match stmt with
  | SqlInsertTag _ | SqlSelectTag _ | SqlLink _ _ => true
  | _ => false
  end.

Definition remaining (stmt : statement) : nat :=
  match stmt with
  | SqlInsertTag _ => 3
  | SqlSelectTag _ => 2
  | SqlLink _ _ => 1
  | _ => 0
  end.

Definition weight (l : list statement) : nat := list_sum (map remaining l).

(** The errors of a log, in the order the store reported them. *)
Definition failures (l : list logged) : list sql_error := somes (map snd l).

(** The error a caller sees when a statement failed: the first one the
    store reported. *)
Definition first_failure (l : list logged) : option sql_error :=
  hd_error (failures l).

(** A store none of whose failures ends the transaction: a failed
    statement changes nothing and the transaction stays open. *)
Definition statement_level (fault : faults) : Prop :=
  forall k stmt e, fault k stmt = Some e -> ends_transaction e = false.

(** What the shared variables of the tag loop satisfy after every
    callback on a store [fault] whose failures leave the transaction open,
    for the loop of snippet [snippetId] over [data], begun when the file
    held [db0]:
    - only statements of tag chains are outstanding, and the name of an
      outstanding lookup is in [tags];
    - while the promise is pending, [tagErrors] holds the failures of the
      log, the transaction is open, every tag is either counted in
      [processedTags] or has one statement outstanding, and some statement
      is outstanding;
    - once the promise is settled nothing is outstanding; a rejection
      carries the first error and the file is back at [db0]; a resolution
      has counted every tag without an error, and either the log holds no
      failure and the transaction is committed, or [COMMIT] failed, alone,
      and the file is back at [db0]; no callback has thrown. *)
Record loop_invariant (fault : faults) (snippetId : Z) (data : snippet_data)
  (db0 : database) (st : tag_loop) : Prop := {
  inv_statements : Forall (fun s => is_tag_statement s = true) (pending st);
  inv_lookups :
    forall name, In (SqlSelectTag name) (pending st) ->
                 has_tag_name (c_db (conn st)) name = true;
  inv_result :
    match result st with
    | Pending =>
        tagErrors st = failures (log st) /\
        c_saved (conn st) = Some db0 /\
        (processedTags st + List.length (pending st) = List.length (d_tags data))%nat /\
        pending st <> []
    | Rejected e =>
        pending st = [] /\ close (conn st) = db0 /\
        first_failure (log st) = Some e /\ hd_error (tagErrors st) = Some e
    | Resolved r =>
        pending st = [] /\ tagErrors st = [] /\
        r = {| new_id := snippetId; new_data := data |} /\
        processedTags st = List.length (d_tags data) /\
        ((failures (log st) = [] /\ c_saved (conn st) = None) \/
         (exists e k, fault k SqlCommit = Some e /\
                      failures (log st) = [e] /\ In (SqlCommit, Some e) (log st) /\
                      close (conn st) = db0))
    | Uncaught => False
    end
}.

(** The tag names whose insert or lookup is outstanding, and the tag ids
    whose link is outstanding. *)
Definition op_names (l : list statement) : list string :=
  flat_map (fun s => match s with
                     | SqlInsertTag n | SqlSelectTag n => [n]
                     | _ => []
                     end) l.

Definition op_tag_ids (l : list statement) : list Z :=
  flat_map (fun s => match s with
                     | SqlLink _ t => [t]
                     | _ => []
                     end) l.

(** The tag ids the rows of [snippet_tags] give to snippet [sid]. *)
Definition linked_ids (sid : Z) (db : database) : list Z :=
  map l_tag_id (filter (fun l => l_snippet_id l =? sid) (snippet_tags db)).

(** The tag ids snippet [sid] is linked to or about to be linked to. *)
Definition claimed_ids (sid : Z) (db : database) (pend : list statement) : list Z :=
  op_tag_ids pend ++ linked_ids sid db.

(** A tag loop in which nothing has failed, seen through the database
    [db] of its connection, that connection's foreign-key setting [fk],
    the outstanding statements [pend] and the count [processed]; the loop
    is for snippet [sid] with the distinct tag names [names], and started
    when the connection saw [db1].
    - Every name is at one stage: its insert or lookup is outstanding, or
      its tag id is claimed for the snippet; a name whose insert has run
      is in [tags].
    - No tag id is claimed twice, and every claimed id belongs to a tag
      named in [names] whose insert and lookup are done.
    - [tags] and [snippet_tags] have only grown, by tags named in [names]
      and by one link row of the snippet per processed tag. *)
Record clean (sid : Z) (names : list string) (db1 : database)
  (db : database) (fk : bool) (pend : list statement) (processed : nat) : Prop := {
  k_fk : fk = false;
  k_names : NoDup (map t_name (tags db));
  k_ids : NoDup (map t_id (tags db));
  k_pending : NoDup (op_names pend);
  k_pending_named : incl (op_names pend) names;
  k_link_sid : forall s t, In (SqlLink s t) pend -> s = sid;
  k_claimed : NoDup (claimed_ids sid db pend);
  k_claimed_named :
    forall tid, In tid (claimed_ids sid db pend) ->
      exists t, In t (tags db) /\ t_id t = tid /\
                In (t_name t) names /\ ~ In (t_name t) (op_names pend);
  k_progress :
    forall name, In name names ->
      In name (op_names pend) \/
      exists t, In t (tags db) /\ t_name t = name /\
                In (t_id t) (claimed_ids sid db pend);
  k_inserted :
    forall name, In name names ->
      In (SqlInsertTag name) pend \/ has_tag_name db name = true;
  k_tags :
    exists added, tags db = tags db1 ++ added /\ incl (map t_name added) names;
  k_links :
    exists added, snippet_tags db = snippet_tags db1 ++ added /\
                  Forall (fun l => l_snippet_id l = sid) added /\
                  List.length added = processed;
  k_snippets : snippets db = snippets db1 /\ seq_snippets db = seq_snippets db1
}.

(** The loop state seen that way, with an empty [tagErrors]. *)
Definition clean_state (sid : Z) (names : list string) (db1 : database)
  (st : tag_loop) : Prop :=
  tagErrors st = [] /\
  clean sid names db1 (c_db (conn st)) (c_foreign_keys (conn st))
        (pending st) (processedTags st).

(** ** The stores the application can produce *)

Definition store_ok (db : database) : Prop :=
  constraints_hold db /\ sequence_ahead db.

(** A database file the model can have produced out of the empty database
    by creating and deleting snippets, whatever the store failures, the
    conversion of real literals, the order of the callbacks and the
    clock. *)
Inductive reachable : database -> Prop :=
| reach_empty : reachable empty_database
| reach_create fault sched now db data :
    reachable db ->
    reachable (file (SnippetModel.createSnippet fault sched now db data))
| reach_delete real fault db id :
    reachable db ->
    reachable (file (SnippetModel.deleteSnippet real fault db id)).

(** The same, on a store none of whose failures ended a transaction. *)
Inductive undisturbed : database -> Prop :=
| calm_empty : undisturbed empty_database
| calm_create fault sched now db data :
    statement_level fault ->
    undisturbed db ->
    undisturbed (file (SnippetModel.createSnippet fault sched now db data))
| calm_delete real fault db id :
    undisturbed db ->
    undisturbed (file (SnippetModel.deleteSnippet real fault db id)).

(** What every statement keeps true of the tables, whatever fails: the
    declared constraints hold, rowids of snippets and tags start at 1, and
    none is above its entry in [sqlite_sequence]. *)
Record rows_ok (db : database) : Prop := {
  ro_constraints : constraints_hold db;
  ro_snippets : Forall (fun s => 0 < s_id s <= seq_snippets db) (snippets db);
  ro_tags : Forall (fun t => 0 < t_id t <= seq_tags db) (tags db)
}.

(** The same of a connection: of what it sees and of what it would roll
    back to. *)
Definition conn_rows_ok (c : connection) : Prop :=
  rows_ok (c_db c) /\ forall d, c_saved c = Some d -> rows_ok d.

(** What the tag loop of snippet [sid] keeps true of the database its
    connection sees: the constraints hold, the snippet is the latest one
    while the promise is pending, and every outstanding link is a link of
    that snippet. *)
Definition loop_store_ok (sid : Z) (st : tag_loop) : Prop :=
  store_ok (c_db (conn st)) /\
  (result st = Pending -> seq_snippets (c_db (conn st)) = sid) /\
  (forall s t, In (SqlLink s t) (pending st) -> s = sid).

(** ** Every order of the callbacks *)

(** The states the tag loop can be in after [fuel] callbacks, or earlier
    when nothing is outstanding, over all choices of the driver. *)
Fixpoint all_runs (fault : faults) (snippetId : Z) (data : snippet_data)
  (fuel : nat) (st : tag_loop) : list tag_loop :=
  match fuel with
  | O => [st]
  | S fuel' =>
      match pending st with
      | [] => [st]
      | _ =>
          flat_map (fun i => all_runs fault snippetId data fuel'
                               (step fault snippetId data i st))
                   (seq 0 (List.length (pending st)))
      end
  end.

(** The loop ended rejected with the primary-key violation and left the
    file of a connection opened on the empty database empty. *)
Definition rejected_on_empty (st : tag_loop) : bool :=
  match result st, close (conn st) with
  | Rejected ConstraintPrimaryKey,
    {| snippets := []; tags := []; snippet_tags := [];
       seq_snippets := 0; seq_tags := 0 |} => true
  | _, _ => false
  end.

(** * Vocabulary of the further properties *)

(** ** Listings, snippet by snippet *)

(** The [t.name]s of the joined rows of [row] that pass the [WHERE] clause
    of a listing for [searchQuery] (all of them when the query has no
    [WHERE]). *)
Definition passing_names (db : database) (searchQuery : string) (row : snippet_row)
  : list (option string) :=
  match search_pattern searchQuery with
  | Some p => filter (fun n => where_clause p (make_row row n)) (join_links db row)
  | None => join_links db row
  end.

(** The record a listing shows for [row] when the names [ns] passed. *)
Definition record_of (row : snippet_row) (ns : list (option string)) : snippet :=
  parse_row (select_columns (row, ns)).


(** ** The tag side of the link table *)

(** Every row of [snippet_tags] names a stored tag. *)
Definition links_have_tags (db : database) : Prop :=
  Forall (fun l => In (l_tag_id l) (map t_id (tags db))) (snippet_tags db).

(** What the tag loop of snippet [sid] has made of the database [db1] its
    connection saw when the loop started: [snippets] is untouched, [tags]
    and [snippet_tags] have only grown, the new link rows are rows of the
    snippet, and every link row names a stored tag if it did in [db1]. *)
Record grown (sid : Z) (db1 db : database) : Prop := {
  g_snippets : snippets db = snippets db1;
  g_seq : seq_snippets db = seq_snippets db1;
  g_tags : exists added, tags db = tags db1 ++ added;
  g_links : exists added, snippet_tags db = snippet_tags db1 ++ added /\
                          Forall (fun l => l_snippet_id l = sid) added;
  g_have_tags : links_have_tags db1 -> links_have_tags db
}.

(** While the promise is pending every outstanding link is a link of the
    snippet to a stored tag; until a rollback the tables have only
    grown. *)
Definition loop_tables (sid : Z) (db1 : database) (st : tag_loop) : Prop :=
  (result st = Pending ->
   forall s t, In (SqlLink s t) (pending st) ->
               s = sid /\ In t (map t_id (tags (c_db (conn st))))) /\
  match result st with
  | Pending | Resolved _ => grown sid db1 (c_db (conn st))
  | _ => True
  end.

(** The row [INSERT INTO snippets] stores for [data] at clock reading
    [now]. *)
Definition new_row (db : database) (data : snippet_data) (now : Z) : snippet_row :=
  {| s_id := next_rowid (seq_snippets db) (map s_id (snippets db));
     s_title := d_title data;
     s_code := d_code data;
     s_language := language_or_default (d_language data);
     s_created_at := now |}.

(** The record a listing shows for the snippet made from [data] at clock
    reading [now], with the tag names in the order [ns]. *)
Definition new_record (db : database) (data : snippet_data) (now : Z)
  (ns : list string) : snippet :=
  {| id := s_id (new_row db data now);
     title := d_title data;
     code := d_code data;
     language := language_or_default (d_language data);
     created_at := now;
     tag_names := ns |}.

(** ** Counting the links of a call *)

(** [tid] is the id of a stored tag whose name is one of [names]. *)
Definition named_tag (names : list string) (db : database) (tid : Z) : Prop :=
  exists t, In t (tags db) /\ t_id t = tid /\ In (t_name t) names.

(** The tag loop of snippet [sid] over [names], counted: while the promise
    is pending, outstanding inserts and lookups are for given names and
    outstanding links are links of the snippet to a tag with a given name;
    until a rollback, [snippet_tags] has gained such links only, one for
    each tag counted in [processedTags] without an error. *)
Definition loop_count (sid : Z) (names : list string) (db1 : database)
  (st : tag_loop) : Prop :=
  (result st = Pending ->
   (forall n, In (SqlInsertTag n) (pending st) \/ In (SqlSelectTag n) (pending st) ->
              In n names) /\
   (forall s t, In (SqlLink s t) (pending st) ->
                s = sid /\ named_tag names (c_db (conn st)) t)) /\
  match result st with
  | Pending | Resolved _ =>
      exists added,
        snippet_tags (c_db (conn st)) = snippet_tags db1 ++ added /\
        Forall (fun l => l_snippet_id l = sid /\
                         named_tag names (c_db (conn st)) (l_tag_id l)) added /\
        (List.length added + List.length (tagErrors st) = processedTags st)%nat
  | _ => True
  end.

(** Against a store that never fails of its own, on a connection whose
    foreign keys are off, the only error a callback sees is the
    primary-key violation of a link. *)
Definition only_primary_key (st : tag_loop) : Prop :=
  c_foreign_keys (conn st) = false /\
  Forall (fun e => e = ConstraintPrimaryKey) (tagErrors st).

(** ** Requests *)

(** The data the create handler hands to the model for a request body:
    [{ title, code, language: language || 'javascript', tags: tags || [] }]. *)
Definition body_data (body : create_body) : snippet_data :=
  {| d_title := field (b_title body);
     d_code := field (b_code body);
     d_language := Js.or_else Js.truthy (b_language body) "javascript";
     d_tags := match b_tags body with Some t => t | None => [] end |}.

(** A server process whose store does not fail of its own. *)
Definition healthy (real : conversion) (sched : schedule) (now : Z)
  (development : bool) (text : sql_error -> string) (trace : string)
  : Server.process :=
  {| Server.p_real := real;
     Server.p_fault := no_faults; Server.p_sched := sched; Server.p_now := now;
     Server.p_development := development; Server.p_text := text;
     Server.p_trace := trace |}.

(** The snippet data the create form sends for its inputs. *)
Definition input_data (inputs : App.form_inputs) : snippet_data :=
  {| d_title := Text.trim (App.snippetTitle inputs);
     d_code := Text.trim (App.snippetCode inputs);
     d_language := App.snippetLanguage inputs;
     d_tags := App.tagContainer inputs |}.

(** The object [handleCreateSnippet] validates and sends:
    [{ title, code, language, tags }]. *)
Definition sent_data (inputs : App.form_inputs) : Utils.form_data :=
  {| Utils.f_title := Some (Text.trim (App.snippetTitle inputs));
     Utils.f_code := Some (Text.trim (App.snippetCode inputs));
     Utils.f_language := Some (App.snippetLanguage inputs);
     Utils.f_tags := App.tagContainer inputs |}.

(** The inputs pass the form's validation: title and code are not blank,
    the title has at most 200 characters, a language is chosen. *)
Definition inputs_valid (inputs : App.form_inputs) : bool :=
  Text.nonempty (Text.trim (App.snippetTitle inputs))
  && (String.length (Text.trim (App.snippetTitle inputs)) <=? 200)%nat
  && Text.nonempty (Text.trim (App.snippetCode inputs))
  && Text.nonempty (App.snippetLanguage inputs).

Definition notify (text kind : string) : App.notification :=
  {| App.n_message := text; App.n_type := kind |}.

(** ** The form component in use *)

(** What can happen to a form: the user edits the fields, adds or removes
    a tag, the form is reset, or submitted to a callback. *)
Inductive form_event :=
| Edit (title code language tag : string)
| SetLanguages (options : list string)
| AddTag (tagName : string)
| RemoveTag (tagName : string)
| Reset
| Submit (onSubmit : Utils.form_data -> bool).

Definition after_event (f : SnippetForm.form) (e : form_event) : SnippetForm.form :=
  match e with
  | Edit title code language tag =>
      {| SnippetForm.titleInput := title; SnippetForm.codeInput := code;
         SnippetForm.languageSelect := language; SnippetForm.tagInput := tag;
         SnippetForm.languages := SnippetForm.languages f;
         SnippetForm.tags := SnippetForm.tags f |}
  | SetLanguages options =>
      {| SnippetForm.titleInput := SnippetForm.titleInput f;
         SnippetForm.codeInput := SnippetForm.codeInput f;
         SnippetForm.languageSelect := hd EmptyString options;
         SnippetForm.tagInput := SnippetForm.tagInput f;
         SnippetForm.languages := options;
         SnippetForm.tags := SnippetForm.tags f |}
  | AddTag tagName => fst (SnippetForm.addTag tagName f)
  | RemoveTag tagName => SnippetForm.removeTag tagName f
  | Reset => SnippetForm.reset f
  | Submit onSubmit => SnippetForm.form_after (SnippetForm.submit onSubmit f)
  end.

(** The form as its constructor leaves it, over the elements of the page:
    no tags, no languages. *)
Definition constructed (title code language tag : string) : SnippetForm.form :=
  {| SnippetForm.titleInput := title; SnippetForm.codeInput := code;
     SnippetForm.languageSelect := language; SnippetForm.tagInput := tag;
     SnippetForm.languages := []; SnippetForm.tags := [] |}.

(** A tag as the form keeps it: not empty, without white space around it,
    without upper-case letters. *)
Definition kept_tag (t : string) : Prop :=
  t <> EmptyString /\ Text.trim t = t /\ SnippetForm.toLowerCase t = t.

(** ** Debouncing *)

(** The calls of [func] a debounced function makes over a run of events:
    [Some args] is a call of the debounced function, [None] the running of
    the pending timer. *)
Fixpoint debounce_calls {A} (timeoutId : Utils.debounced A)
  (events : list (option A)) : list A :=
  match events with
  | [] => []
  | Some args :: rest => debounce_calls (Utils.debounced_call args timeoutId) rest
  | None :: rest =>
      match Utils.timer_runs timeoutId with
      | (t, Some args) => args :: debounce_calls t rest
      | (t, None) => debounce_calls t rest
      end
  end.

(** ** Sample inputs *)

(** The record the unfiltered listing of [sample_db] shows. *)
Definition array_map_record : snippet :=
  {| id := 1;
     title := "Array Map Example";
     code := "const doubled = [1, 2, 3].map(n => n * 2);";
     language := "javascript";
     created_at := 100;
     tag_names := ["array"; "functional"] |}.

(** A page in front of [sample_db] that has shown nothing yet. *)
Definition sample_page : App.page :=
  {| App.server_file := sample_db; App.shown := []; App.state_snippets := [] |}.

(** What a user may have typed into the create form. *)
Definition loop_inputs : App.form_inputs :=
  {| App.snippetTitle := " Endless loop ";
     App.snippetCode := "for (;;) {}";
     App.snippetLanguage := "javascript";
     App.tagContainer := ["loop"; "control"] |}.

(** The text of the driver's errors, when it does not matter. *)
Definition some_text (e : sql_error) : string := "SQLITE_ERROR".
(** * Properties *)

(** ** Lists *)

Lemma in_somes {A} (a : A) l : In a (somes l) <-> In (Some a) l.
Proof.
  induction l as [|[b|] l IH]; simpl.
  - tauto.
  - rewrite IH. split; intros [H|H]; auto; left; congruence.
  - rewrite IH. split; [auto | intros [H|H]; [discriminate | trivial]].
Qed.

Lemma somes_app {A} (l1 l2 : list (option A)) :
  somes (l1 ++ l2) = somes l1 ++ somes l2.
Proof.
  induction l1 as [|[a|] l1 IH]; simpl; rewrite ?IH; reflexivity.
Qed.

Lemma somes_map_Some {A} (l : list A) : somes (map Some l) = l.
Proof. induction l; simpl; congruence. Qed.

(** ** GROUP BY *)

Lemma add_to_group_ids r gs :
  map group_id (add_to_group r gs) =
  if existsb (fun i => i =? row_id r) (map group_id gs)
  then map group_id gs
  else map group_id gs ++ [row_id r].
Proof.
  induction gs as [|[s ns] gs IH]; simpl; [reflexivity|].
  change (group_id (s, ns)) with (s_id s).
  change (row_id r) with (s_id (j_snippet r)) in *.
  destruct (s_id s =? s_id (j_snippet r)) eqn:E; simpl.
  - reflexivity.
  - rewrite IH. change (group_id (s, ns)) with (s_id s).
    destruct (existsb _ (map group_id gs)); reflexivity.
Qed.

Lemma existsb_eqb_In i l : existsb (fun j => j =? i) l = true <-> In i l.
Proof.
  rewrite existsb_exists. split.
  - intros (j & Hj & E). apply Z.eqb_eq in E. now subst.
  - intros H. exists i. split; [trivial | apply Z.eqb_refl].
Qed.

Lemma group_by_id_ids rows i :
  In i (map group_id (group_by_id rows)) <-> In i (map row_id rows).
Proof.
  revert i. induction rows as [|r rows IH]; intros i; simpl; [tauto|].
  rewrite add_to_group_ids.
  destruct (existsb _ _) eqn:E.
  - apply existsb_eqb_In in E. rewrite IH in E. rewrite IH.
    split; [auto | intros [H|H]; [now subst | trivial]].
  - rewrite in_app_iff, IH. simpl. tauto.
Qed.

Lemma group_by_id_NoDup rows : NoDup (map group_id (group_by_id rows)).
Proof.
  induction rows as [|r rows IH]; simpl; [constructor|].
  rewrite add_to_group_ids.
  destruct (existsb _ _) eqn:E; [trivial|].
  apply NoDup_app_remove_l with (l := []). simpl.
  assert (~ In (row_id r) (map group_id (group_by_id rows))) as N.
  { intros H. apply existsb_eqb_In in H. congruence. }
  clear E. revert N IH. generalize (map group_id (group_by_id rows)) as l.
  induction l as [|a l IHl]; simpl; intros N D.
  - constructor; [tauto | constructor].
  - inversion D; subst. constructor.
    + rewrite in_app_iff. simpl. intuition congruence.
    + apply IHl; tauto.
Qed.

Lemma add_to_group_In r gs g :
  NoDup (map group_id gs) ->
  In g (add_to_group r gs) ->
  (group_id g <> row_id r /\ In g gs) \/
  (group_id g = row_id r /\
   exists ns, snd g = j_tag_name r :: ns /\
     (In (fst g, ns) gs \/
      (ns = [] /\ fst g = j_snippet r /\ ~ In (row_id r) (map group_id gs)))).
Proof.
  induction gs as [|[s ns] gs IH]; simpl; intros D H.
  - destruct H as [<-|[]]. right. split; [reflexivity|].
    exists []. simpl. tauto.
  - inversion D as [|? ? Hs D']; subst.
    destruct (s_id s =? s_id (j_snippet r)) eqn:E.
    + apply Z.eqb_eq in E. destruct H as [<-|H].
      * right. split; [exact E|]. exists ns. simpl. auto.
      * left. split; [|auto]. intros Eg. apply Hs.
        replace (group_id (s, ns)) with (group_id g)
          by (unfold group_id, row_id in *; simpl; congruence).
        now apply in_map.
    + apply Z.eqb_neq in E. destruct H as [<-|H].
      * left. split; [exact E | auto].
      * destruct (IH D' H) as [[N I]|[Eg (ms & Hs' & C)]].
        -- left. auto.
        -- right. split; [exact Eg|]. exists ms. split; [exact Hs'|].
           destruct C as [C|(C1 & C2 & C3)]; [auto|].
           right. repeat split; trivial.
           intros [F|F]; [now apply E | now apply C3].
Qed.

Lemma filter_none {A} (f : A -> bool) l :
  (forall x, In x l -> f x = false) -> filter f l = [].
Proof.
  induction l as [|a l IH]; simpl; intros H; [reflexivity|].
  rewrite (H a) by auto. apply IH. auto.
Qed.

(** The names of a group are the [t.name] of the rows with its id, in row
    order; its snippet columns come from one of the rows. *)
Lemma group_by_id_spec rows g :
  In g (group_by_id rows) ->
  snd g = map j_tag_name (filter (fun r => row_id r =? group_id g) rows) /\
  exists r, In r rows /\ j_snippet r = fst g.
Proof.
  revert g. induction rows as [|r rows IH]; simpl; intros g H; [contradiction|].
  apply add_to_group_In in H; [|apply group_by_id_NoDup].
  destruct H as [[N I]|[Eg (ns & Hs & C)]].
  - destruct (IH g I) as (IH1 & r' & I' & E').
    assert ((row_id r =? group_id g) = false) as -> by (apply Z.eqb_neq; congruence).
    split; [exact IH1 | eauto].
  - rewrite <- Eg, Z.eqb_refl. simpl.
    destruct C as [I|(-> & Ef & N)].
    + destruct (IH _ I) as (IH1 & r' & I' & E').
      simpl in IH1. split; [|eauto].
      rewrite Hs. f_equal. exact IH1.
    + split; [|exists r; auto].
      rewrite Hs. f_equal. rewrite filter_none; [reflexivity|].
      intros x Hx. apply Z.eqb_neq. intros Ex. apply N.
      apply group_by_id_ids. rewrite <- Eg, <- Ex. now apply in_map.
Qed.

(** ** ORDER BY *)

Lemma insert_desc_perm g l : Permutation (insert_desc g l) (g :: l).
Proof.
  induction l as [|h t IH]; simpl; [reflexivity|].
  destruct (_ <? _); [reflexivity|].
  rewrite IH. apply perm_swap.
Qed.

Lemma order_by_perm gs : Permutation (order_by_created_at_desc gs) gs.
Proof.
  induction gs as [|g gs IH]; simpl; [reflexivity|].
  rewrite insert_desc_perm. now constructor.
Qed.

Lemma insert_desc_sorted g l :
  StronglySorted newer_first l -> StronglySorted newer_first (insert_desc g l).
Proof.
  induction l as [|h t IH]; simpl; intros S.
  - repeat constructor.
  - inversion S as [|? ? St Ft]; subst.
    destruct (s_created_at (fst h) <? s_created_at (fst g)) eqn:E.
    + apply Z.ltb_lt in E. constructor; [exact S|].
      constructor; [unfold newer_first; lia|].
      eapply Forall_impl; [|exact Ft]. unfold newer_first. intros; lia.
    + apply Z.ltb_ge in E. constructor; [auto|].
      eapply Permutation_Forall; [symmetry; apply insert_desc_perm|].
      constructor; [exact E | exact Ft].
Qed.

Lemma order_by_sorted gs : StronglySorted newer_first (order_by_created_at_desc gs).
Proof.
  induction gs as [|g gs IH]; simpl; [constructor|].
  now apply insert_desc_sorted.
Qed.

(** ** The joins *)

Lemma in_from_clause db r :
  In r (from_clause db) <->
  In (j_snippet r) (snippets db) /\ In (j_tag_name r) (join_links db (j_snippet r)).
Proof.
  unfold from_clause. rewrite in_flat_map. split.
  - intros (s & Hs & Hr). apply in_map_iff in Hr.
    destruct Hr as (n & <- & Hn). simpl. auto.
  - intros [Hs Hn]. exists (j_snippet r). split; [exact Hs|].
    apply in_map_iff. exists (j_tag_name r). split; [|exact Hn].
    now destruct r.
Qed.

Lemma in_join_tags_Some db l n :
  In (Some n) (join_tags db l) <->
  exists t, In t (tags db) /\ t_id t = l_tag_id l /\ t_name t = n.
Proof.
  unfold join_tags.
  destruct (filter _ (tags db)) as [|t0 ts] eqn:F.
  - split.
    + intros [H|[]]. discriminate.
    + intros (t & Ht & E & _).
      assert (In t (filter (fun t => l_tag_id l =? t_id t) (tags db))) as C
        by (apply filter_In; split; [trivial | apply Z.eqb_eq; congruence]).
      rewrite F in C. contradiction.
  - rewrite <- F. rewrite in_map_iff. split.
    + intros (t & E & Ht). apply filter_In in Ht. destruct Ht as [Ht Et].
      apply Z.eqb_eq in Et. exists t. repeat split; congruence.
    + intros (t & Ht & E & En). exists t. split; [congruence|].
      apply filter_In. split; [trivial | apply Z.eqb_eq; congruence].
Qed.

(** Reading the link rows through the index reorders them and nothing
    else. *)
Lemma insert_by_tag_id_perm l ls : Permutation (insert_by_tag_id l ls) (l :: ls).
Proof.
  induction ls as [|h t IH]; simpl; [reflexivity|].
  destruct (l_tag_id l <=? l_tag_id h); [reflexivity|].
  rewrite IH. apply perm_swap.
Qed.

Lemma index_order_perm ls : Permutation (index_order ls) ls.
Proof.
  induction ls as [|l ls IH]; simpl; [reflexivity|].
  rewrite insert_by_tag_id_perm. now constructor.
Qed.

Lemma index_order_nil ls : index_order ls = [] -> ls = [].
Proof.
  intros E. pose proof (index_order_perm ls) as P. rewrite E in P.
  now apply Permutation_nil in P.
Qed.

Lemma in_index_order l ls : In l (index_order ls) <-> In l ls.
Proof.
  split; apply Permutation_in;
    [apply index_order_perm | symmetry; apply index_order_perm].
Qed.

Lemma in_join_links_Some db s n :
  In (Some n) (join_links db s) <-> is_linked db (s_id s) n.
Proof.
  unfold join_links, is_linked.
  destruct (index_order _) as [|l0 ls] eqn:F.
  - apply index_order_nil in F. split.
    + intros [H|[]]. discriminate.
    + intros (l & t & Hl & E & _).
      assert (In l (filter (fun l => s_id s =? l_snippet_id l) (snippet_tags db))) as C
        by (apply filter_In; split; [trivial | apply Z.eqb_eq; congruence]).
      rewrite F in C. contradiction.
  - rewrite <- F. rewrite in_flat_map. split.
    + intros (l & Hl & Hn). apply in_index_order, filter_In in Hl.
      destruct Hl as [Hl El].
      apply Z.eqb_eq in El. apply in_join_tags_Some in Hn.
      destruct Hn as (t & Ht & E1 & E2). exists l, t. repeat split; congruence.
    + intros (l & t & Hl & E & Ht & E1 & E2). exists l. split.
      * apply in_index_order, filter_In.
        split; [trivial | apply Z.eqb_eq; congruence].
      * apply in_join_tags_Some. eauto.
Qed.

Lemma in_linked_names db s n :
  In n (linked_names db s) <-> is_linked db (s_id s) n.
Proof. unfold linked_names. rewrite in_somes. apply in_join_links_Some. Qed.

(** A snippet without link rows joins to a single row whose [t.name] is
    NULL. *)
Lemma join_links_unlinked db s :
  (forall l, In l (snippet_tags db) -> l_snippet_id l <> s_id s) ->
  join_links db s = [None].
Proof.
  intros H. unfold join_links. rewrite filter_none; [reflexivity|].
  intros l Hl. apply Z.eqb_neq. intros E. now apply (H l Hl).
Qed.

Lemma filter_flat_map {A B} (f : B -> bool) (g : A -> list B) l :
  filter f (flat_map g l) = flat_map (fun x => filter f (g x)) l.
Proof.
  induction l as [|a l IH]; simpl; [reflexivity|].
  now rewrite filter_app, IH.
Qed.

Lemma flat_map_nil {A B} (g : A -> list B) l :
  (forall x, In x l -> g x = []) -> flat_map g l = [].
Proof.
  induction l as [|a l IH]; simpl; intros H; [reflexivity|].
  rewrite (H a), IH; auto.
Qed.

Lemma filter_all {A} (f : A -> bool) l :
  (forall x, In x l -> f x = true) -> filter f l = l.
Proof.
  induction l as [|a l IH]; simpl; intros H; [reflexivity|].
  rewrite (H a), IH; auto.
Qed.

(** With unique snippet ids, the joined rows carrying the id of a stored
    snippet are that snippet's rows. *)
Lemma from_clause_rows_of db s :
  NoDup (map s_id (snippets db)) ->
  In s (snippets db) ->
  filter (fun r => row_id r =? s_id s) (from_clause db) =
  map (make_row s) (join_links db s).
Proof.
  unfold from_clause. rewrite filter_flat_map.
  induction (snippets db) as [|a l IH]; simpl; intros D H; [contradiction|].
  inversion D as [|? ? Na D']; subst.
  destruct H as [->|H].
  - rewrite filter_all.
    + rewrite flat_map_nil; [apply app_nil_r|].
      intros x Hx. apply filter_none. intros r Hr.
      apply in_map_iff in Hr. destruct Hr as (n & <- & _).
      apply Z.eqb_neq. unfold row_id. simpl. intros E. apply Na.
      rewrite <- E. now apply in_map.
    + intros r Hr. apply in_map_iff in Hr. destruct Hr as (n & <- & _).
      apply Z.eqb_refl.
  - rewrite filter_none.
    + simpl. now apply IH.
    + intros r Hr. apply in_map_iff in Hr. destruct Hr as (n & <- & _).
      apply Z.eqb_neq. unfold row_id. simpl. intros E. apply Na.
      rewrite E. now apply in_map.
Qed.

(** ** The listing *)

Lemma listed_unfold db q :
  listed no_faults db q =
  map parse_row (map select_columns
    (order_by_created_at_desc (group_by_id (kept_rows db q)))).
Proof. reflexivity. Qed.

(** A listing call is rejected when the store fails and otherwise resolves
    with the listing. *)
Lemma getAllSnippets_settles fault db q :
  settled (getAllSnippets fault db q) =
  match fault 0%nat (SqlSelectSnippets (search_pattern q)) with
  | Some e => Rejected e
  | None => Resolved (listed no_faults db q)
  end.
Proof.
  unfold getAllSnippets.
  destruct (fault 0%nat _); reflexivity.
Qed.

Lemma in_listed db q s :
  In s (listed no_faults db q) <->
  exists g, In g (group_by_id (kept_rows db q)) /\ s = parse_row (select_columns g).
Proof.
  rewrite listed_unfold, map_map, in_map_iff. split.
  - intros (g & E & H). exists g. split; [|auto].
    eapply Permutation_in; [apply order_by_perm | exact H].
  - intros (g & H & E). exists g. split; [auto|].
    eapply Permutation_in; [symmetry; apply order_by_perm | exact H].
Qed.

Lemma in_kept_rows db q r :
  In r (kept_rows db q) -> In r (from_clause db).
Proof.
  unfold kept_rows. destruct (search_pattern q); [|trivial].
  intros H. now apply filter_In in H.
Qed.

Lemma group_concat_None ns :
  (forall n, In n ns -> n = None) -> group_concat ns = None.
Proof.
  induction ns as [|[n|] ns IH]; simpl; intros H.
  - reflexivity.
  - discriminate (H (Some n)). auto.
  - apply IH. auto.
Qed.

(** C10. A snippet without association rows is listed with [tags] equal
    to the empty array: every record a listing (filtered or not) holds for
    it has an empty tag list, and the unfiltered listing does hold one. *)
Theorem unlinked_snippet_has_empty_tags :
  forall db q row,
    In row (snippets db) ->
    (forall l, In l (snippet_tags db) -> l_snippet_id l <> s_id row) ->
    (forall s, In s (listed no_faults db q) -> id s = s_id row ->
               tag_names s = []) /\
    (exists s, In s (listed no_faults db EmptyString) /\ id s = s_id row /\
               tag_names s = []).
Proof.
  intros db q row Hrow Hno.
  assert (forall q' s, In s (listed no_faults db q') -> id s = s_id row ->
                       tag_names s = []) as P.
  { intros q' s Hs Hid. apply in_listed in Hs. destruct Hs as (g & Hg & ->).
    apply group_by_id_spec in Hg. destruct Hg as (Hn & _).
    unfold parse_row, select_columns. simpl. simpl in Hid.
    rewrite group_concat_None; [reflexivity|].
    intros n Hin. rewrite Hn in Hin. apply in_map_iff in Hin.
    destruct Hin as (r & <- & Hr). apply filter_In in Hr.
    destruct Hr as [Hr Er]. apply Z.eqb_eq in Er.
    apply in_kept_rows, in_from_clause in Hr. destruct Hr as [_ Hr].
    rewrite join_links_unlinked in Hr.
    - destruct Hr as [<-|[]]. reflexivity.
    - intros l Hl. unfold row_id, group_id in Er. rewrite Er, Hid. now apply Hno. }
  split; [apply P|].
  assert (In (s_id row) (map group_id (group_by_id (kept_rows db EmptyString)))) as H.
  { apply group_by_id_ids. apply in_map_iff.
    exists (make_row row None). split; [reflexivity|].
    apply in_from_clause. simpl. split; [exact Hrow|].
    rewrite join_links_unlinked by exact Hno. now left. }
  apply in_map_iff in H. destruct H as (g & Eg & Hg).
  assert (In (parse_row (select_columns g)) (listed no_faults db EmptyString)) as L
    by (apply in_listed; eauto).
  exists (parse_row (select_columns g)). split; [exact L|]. split; [exact Eg|].
  apply (P EmptyString _ L Eg).
Qed.

(** ** LIKE against the spec's substring test *)

Lemma like_percent s : like_chars "%" s = true.
Proof.
  induction s as [|c s IH]; [reflexivity|].
  simpl in *. exact IH.
Qed.

Lemma like_any p s :
  like_chars (String "%" p) s =
  like_chars p s || match s with
                    | EmptyString => false
                    | String _ s' => like_chars (String "%" p) s'
                    end.
Proof. destruct s; reflexivity. Qed.

Lemma like_literal c p s :
  Ascii.eqb c "%" = false ->
  like_chars (String c p) s =
  match s with
  | EmptyString => false
  | String d s' => (Ascii.eqb c "_" || same_nocase c d) && like_chars p s'
  end.
Proof. intros H. destruct s; simpl; rewrite H; reflexivity. Qed.

Lemma wildcard_free_cons c q :
  wildcard_free (String c q) = true ->
  Ascii.eqb c "%" = false /\ Ascii.eqb c "_" = false /\ wildcard_free q = true.
Proof.
  unfold wildcard_free. cbn [Text.mem_char].
  rewrite (Ascii.eqb_sym "%" c), (Ascii.eqb_sym "_" c).
  destruct (Ascii.eqb c "%"), (Ascii.eqb c "_"); simpl; intros H;
    rewrite ?andb_false_r in H; try discriminate; auto.
Qed.

Lemma like_prefix q s :
  wildcard_free q = true ->
  like_chars (q ++ "%")%string s = starts_with_nocase q s.
Proof.
  revert s. induction q as [|c q IH]; intros s W.
  - apply like_percent.
  - apply wildcard_free_cons in W. destruct W as (W1 & W2 & W3).
    change (String c q ++ "%")%string with (String c (q ++ "%")%string).
    rewrite like_literal by exact W1. rewrite W2.
    destruct s as [|d s]; [reflexivity|].
    simpl. now rewrite IH.
Qed.

(** On a wildcard-free text the pattern [%text%] is the substring test. *)
Lemma like_chars_contains q s :
  wildcard_free q = true ->
  like_chars ("%" ++ q ++ "%")%string s = contains_nocase q s.
Proof.
  intros W. change ("%" ++ q ++ "%")%string with (String "%" (q ++ "%")%string).
  induction s as [|d s IH].
  - rewrite like_any, like_prefix by exact W. reflexivity.
  - rewrite like_any, like_prefix, IH by exact W. reflexivity.
Qed.

(** A text without NUL is read whole. *)
Lemma nul_free_cons c s :
  nul_free (String c s) = true -> Ascii.eqb c zero = false /\ nul_free s = true.
Proof.
  unfold nul_free. cbn [Text.mem_char]. rewrite (Ascii.eqb_sym zero c).
  destruct (Ascii.eqb c zero); simpl; intros H; [discriminate | auto].
Qed.

Lemma upto_nul_whole s : nul_free s = true -> upto_nul s = s.
Proof.
  induction s as [|c s IH]; [reflexivity|]. intros H.
  apply nul_free_cons in H. destruct H as [H1 H2].
  cbn [upto_nul]. rewrite H1, IH by exact H2. reflexivity.
Qed.

Lemma nul_free_pattern q :
  nul_free q = true -> nul_free ("%" ++ q ++ "%")%string = true.
Proof.
  intros H. change ("%" ++ q ++ "%")%string with (String "%" (q ++ "%")%string).
  unfold nul_free in *. cbn [Text.mem_char]. change (Ascii.eqb zero "%") with false.
  cbn [orb]. induction q as [|c q IH]; [reflexivity|].
  cbn [Text.mem_char append] in *.
  destruct (Ascii.eqb zero c); [discriminate H | exact (IH H)].
Qed.

Lemma like_contains q s :
  wildcard_free q = true ->
  nul_free q = true ->
  nul_free s = true ->
  like ("%" ++ q ++ "%")%string s = contains_nocase q s.
Proof.
  intros W Nq Ns. unfold like.
  rewrite (upto_nul_whole _ (nul_free_pattern q Nq)), (upto_nul_whole s Ns).
  now apply like_chars_contains.
Qed.

Lemma starts_with_nocase_iff q s :
  starts_with_nocase q s = true <->
  exists mid post, s = (mid ++ post)%string /\ lower_string mid = lower_string q.
Proof.
  revert s. induction q as [|c q IH]; intros s; simpl.
  - split; [|reflexivity]. intros _. exists "", s. auto.
  - destruct s as [|d s].
    + split; [discriminate|]. intros (mid & post & E & L).
      destruct mid; simpl in *; discriminate.
    + rewrite andb_true_iff, IH. unfold same_nocase. rewrite Ascii.eqb_eq. split.
      * intros (E & mid & post & -> & L). exists (String d mid), post.
        simpl. split; [reflexivity | congruence].
      * intros (mid & post & E & L). destruct mid as [|e mid]; [discriminate|].
        simpl in *. injection E as <- ->. injection L as L1 L2. eauto.
Qed.

Lemma contains_nocase_iff q s :
  contains_nocase q s = true <->
  exists pre mid post,
    s = (pre ++ mid ++ post)%string /\ lower_string mid = lower_string q.
Proof.
  induction s as [|d s IH].
  - simpl. rewrite orb_false_r, starts_with_nocase_iff. split.
    + intros (mid & post & E & L). exists "", mid, post. auto.
    + intros (pre & mid & post & E & L). destruct pre; [|discriminate].
      exists mid, post. auto.
  - cbn [contains_nocase]. rewrite orb_true_iff, IH, starts_with_nocase_iff. split.
    + intros [(mid & post & E & L)|(pre & mid & post & E & L)].
      * exists "", mid, post. auto.
      * exists (String d pre), mid, post. simpl. split; congruence.
    + intros (pre & mid & post & E & L). destruct pre as [|e pre].
      * left. exists mid, post. auto.
      * right. simpl in E. injection E as <- ->. eauto.
Qed.

(** ** Filtered listings *)

Lemma shows_parse_row g : shows (parse_row (select_columns g)) (fst g).
Proof. repeat split. Qed.

Lemma join_tags_nonempty db l : join_tags db l <> [].
Proof.
  unfold join_tags. destruct (filter _ (tags db)); simpl; discriminate.
Qed.

Lemma join_links_nonempty db s : join_links db s <> [].
Proof.
  unfold join_links. destruct (index_order _) as [|l ls]; [discriminate|].
  simpl. intros E. apply app_eq_nil in E. destruct E as [E _].
  now apply join_tags_nonempty in E.
Qed.

Lemma search_pattern_nonempty q :
  q <> EmptyString -> search_pattern q = Some ("%" ++ q ++ "%")%string.
Proof. destruct q; [congruence | reflexivity]. Qed.

Lemma linked_name_nul_free db sid n :
  texts_nul_free db -> is_linked db sid n -> nul_free n = true.
Proof.
  intros [_ T] (l & t & _ & _ & Ht & _ & <-). now apply T.
Qed.

Lemma where_clause_contains db q row n :
  wildcard_free q = true ->
  nul_free q = true ->
  texts_nul_free db ->
  In row (snippets db) ->
  In n (join_links db row) ->
  where_clause ("%" ++ q ++ "%")%string (make_row row n) =
  contains_nocase q (s_title row)
  || contains_nocase q (s_code row)
  || contains_nocase q (s_language row)
  || match n with
     | Some name => contains_nocase q name
     | None => false
     end.
Proof.
  intros W Nq T Hrow Hn. unfold where_clause, make_row. cbn [j_snippet j_tag_name].
  destruct (proj1 T row Hrow) as (N1 & N2 & N3).
  rewrite !like_contains by trivial.
  destruct n as [name|]; [|reflexivity].
  rewrite like_contains; trivial.
  apply (linked_name_nul_free db (s_id row)); [exact T|].
  now apply in_join_links_Some.
Qed.

Lemma where_clause_matches db q r :
  wildcard_free q = true ->
  nul_free q = true ->
  texts_nul_free db ->
  In r (from_clause db) ->
  where_clause ("%" ++ q ++ "%")%string r = true ->
  matches_search db q (j_snippet r).
Proof.
  intros W Nq T Hr H.
  pose proof (proj1 (in_from_clause db r) Hr) as [Hrow Hn].
  replace r with (make_row (j_snippet r) (j_tag_name r)) in H by (now destruct r).
  rewrite (where_clause_contains db q _ _ W Nq T Hrow Hn) in H.
  apply orb_true_iff in H. destruct H as [H|H].
  - apply orb_true_iff in H. destruct H as [H|H].
    + apply orb_true_iff in H. destruct H as [H|H].
      * left. exact H.
      * right. left. exact H.
    + right. right. left. exact H.
  - right. right. right. destruct (j_tag_name r) as [n|] eqn:E; [|discriminate].
    exists n. split; [|exact H]. now apply in_join_links_Some.
Qed.

Lemma matches_has_kept_row db q row :
  q <> EmptyString ->
  wildcard_free q = true ->
  nul_free q = true ->
  texts_nul_free db ->
  In row (snippets db) ->
  matches_search db q row ->
  exists r, In r (kept_rows db q) /\ j_snippet r = row.
Proof.
  intros Hq W Nq T Hrow M. unfold kept_rows. rewrite search_pattern_nonempty by exact Hq.
  assert (forall n, In n (join_links db row) ->
            where_clause ("%" ++ q ++ "%")%string (make_row row n) = true ->
            exists r, In r (filter (where_clause ("%" ++ q ++ "%")%string) (from_clause db))
                      /\ j_snippet r = row) as K.
  { intros n Hn Hw. exists (make_row row n). split; [|reflexivity].
    apply filter_In. split; [|exact Hw]. apply in_from_clause. simpl. auto. }
  pose proof (where_clause_contains db q row) as E.
  destruct (join_links db row) as [|n0 ns] eqn:J;
    [now apply join_links_nonempty in J|].
  destruct M as [M|[M|[M|(n & L & M)]]].
  - apply (K n0); [now left|]. rewrite E, M by (trivial; now left). reflexivity.
  - apply (K n0); [now left|]. rewrite E, M by (trivial; now left).
    now rewrite orb_true_r.
  - apply (K n0); [now left|]. rewrite E, M by (trivial; now left).
    now rewrite !orb_true_r.
  - assert (In (Some n) (n0 :: ns)) as Hn
      by (rewrite <- J; now apply in_join_links_Some).
    apply (K (Some n) Hn). rewrite E, M by trivial. now rewrite !orb_true_r.
Qed.

(** X17.  The search, where it does what it is meant to.  For a non-empty
    search text without the [LIKE] wildcards [%] and [_] and without NUL,
    on a store whose texts hold no NUL, the listing holds exactly the
    stored snippets in which the text is found, letter case of ASCII
    letters aside, in the title, the code, the language or the name of a
    linked tag; a match in a tag name alone is enough, and a snippet
    without tags is listed when title, code or language match. *)
Theorem search_lists_exactly_the_matches :
  forall db q,
    q <> EmptyString ->
    wildcard_free q = true ->
    nul_free q = true ->
    texts_nul_free db ->
    (forall s, In s (listed no_faults db q) ->
       exists row, In row (snippets db) /\ shows s row /\ matches_search db q row) /\
    (forall row, In row (snippets db) -> matches_search db q row ->
       exists s, In s (listed no_faults db q) /\ id s = s_id row) /\
    (forall row, In row (snippets db) ->
       (forall l, In l (snippet_tags db) -> l_snippet_id l <> s_id row) ->
       contains_nocase q (s_title row) = true \/
       contains_nocase q (s_code row) = true \/
       contains_nocase q (s_language row) = true ->
       exists s, In s (listed no_faults db q) /\ id s = s_id row).
Proof.
  intros db q Hq W Nq T.
  assert (forall row, In row (snippets db) -> matches_search db q row ->
            exists s, In s (listed no_faults db q) /\ id s = s_id row) as B.
  { intros row Hrow M.
    destruct (matches_has_kept_row db q row Hq W Nq T Hrow M) as (r & Hr & <-).
    assert (In (row_id r) (map group_id (group_by_id (kept_rows db q)))) as H
      by (apply group_by_id_ids; now apply in_map).
    apply in_map_iff in H. destruct H as (g & Eg & Hg).
    exists (parse_row (select_columns g)). split; [|exact Eg].
    apply in_listed. eauto. }
  split; [|split; [exact B|]].
  - intros s Hs. apply in_listed in Hs. destruct Hs as (g & Hg & ->).
    apply group_by_id_spec in Hg. destruct Hg as (_ & r & Hr & E).
    exists (fst g). rewrite <- E.
    unfold kept_rows in Hr. rewrite search_pattern_nonempty in Hr by exact Hq.
    apply filter_In in Hr. destruct Hr as [Hr Hw].
    split; [now apply in_from_clause in Hr|].
    split; [rewrite E; apply shows_parse_row|].
    now apply (where_clause_matches db q r W Nq T).
  - intros row Hrow _ M. apply B; [exact Hrow|].
    unfold matches_search. tauto.
Qed.

(** ** GROUP_CONCAT and [split] *)

Lemma split_not_nil sep s : Js.split sep s <> [].
Proof.
  destruct s as [|c s]; simpl; [discriminate|].
  destruct (Ascii.eqb c sep); [discriminate|].
  destruct (Js.split sep s); discriminate.
Qed.

(** Splitting [n,rest] yields [n] and the pieces of [rest] when [n] holds
    no separator. *)
Lemma split_joined sep n rest :
  Text.mem_char sep n = false ->
  Js.split sep (n ++ String sep rest)%string = n :: Js.split sep rest.
Proof.
  induction n as [|c n IH]; simpl; intros H.
  - now rewrite Ascii.eqb_refl.
  - apply orb_false_iff in H. destruct H as [H1 H2].
    rewrite Ascii.eqb_sym, H1, (IH H2). reflexivity.
Qed.

Lemma split_single sep n :
  Text.mem_char sep n = false -> Js.split sep n = [n].
Proof.
  induction n as [|c n IH]; simpl; intros H; [reflexivity|].
  apply orb_false_iff in H. destruct H as [H1 H2].
  rewrite Ascii.eqb_sym, H1, (IH H2). reflexivity.
Qed.

Lemma group_concat_split ns :
  (forall n, In (Some n) ns -> plain_name n) ->
  match group_concat ns with
  | None => somes ns = []
  | Some t => t <> EmptyString /\ Js.split "," t = somes ns
  end.
Proof.
  induction ns as [|[n|] ns IH]; simpl; intros H.
  - reflexivity.
  - destruct (H n) as [Hn Hc]; [now left|].
    specialize (IH (fun m Hm => H m (or_intror Hm))).
    destruct (group_concat ns) as [rest|].
    + destruct IH as [_ IH]. split.
      * destruct n; [congruence | discriminate].
      * change (n ++ "," ++ rest)%string with (n ++ String "," rest)%string.
        rewrite split_joined by exact Hc. now rewrite IH.
    + rewrite IH. split; [exact Hn | now apply split_single].
  - apply IH. intros m Hm. apply H. now right.
Qed.

(** The tag list of a listed record whose tag names are plain is the list
    of the non-NULL names of its group. *)
Lemma parse_row_tag_names g :
  (forall n, In (Some n) (snd g) -> plain_name n) ->
  tag_names (parse_row (select_columns g)) = somes (snd g).
Proof.
  intros H. unfold parse_row, select_columns. simpl.
  pose proof (group_concat_split (snd g) H) as P.
  destruct (group_concat (snd g)) as [t|]; [|now rewrite P].
  destruct P as [Ht P]. destruct t; [congruence|]. exact P.
Qed.

(** ** Unfiltered listings *)

Lemma NoDup_map_injective {A B} (f : A -> B) l a b :
  NoDup (map f l) -> In a l -> In b l -> f a = f b -> a = b.
Proof.
  induction l as [|x l IH]; simpl; intros D Ha Hb E; [contradiction|].
  inversion D as [|? ? N D']; subst.
  destruct Ha as [->|Ha], Hb as [->|Hb]; trivial.
  - exfalso. apply N. rewrite E. now apply in_map.
  - exfalso. apply N. rewrite <- E. now apply in_map.
  - now apply IH.
Qed.

Lemma NoDup_map_filter {A B} (f : A -> B) (p : A -> bool) l :
  NoDup (map f l) -> NoDup (map f (filter p l)).
Proof.
  induction l as [|x l IH]; simpl; intros D; [constructor|].
  inversion D as [|? ? N D']; subst.
  destruct (p x); simpl; [|auto].
  constructor; [|auto].
  intros H. apply N. apply in_map_iff in H. destruct H as (y & E & Hy).
  apply filter_In in Hy. apply in_map_iff. exists y. tauto.
Qed.

Lemma somes_join_tags db l :
  somes (join_tags db l) =
  map t_name (filter (fun t => l_tag_id l =? t_id t) (tags db)).
Proof.
  unfold join_tags. destruct (filter _ (tags db)) as [|t ts]; [reflexivity|].
  generalize (t :: ts). intros l0. induction l0; simpl; congruence.
Qed.

Lemma NoDup_app_intro {A} (l1 l2 : list A) :
  NoDup l1 -> NoDup l2 -> (forall x, In x l1 -> ~ In x l2) -> NoDup (l1 ++ l2).
Proof.
  induction l1 as [|a l1 IH]; simpl; intros D1 D2 H; [exact D2|].
  inversion D1 as [|? ? N D1']; subst. constructor.
  - rewrite in_app_iff. intros [F|F]; [now apply N | now apply (H a); auto].
  - apply IH; auto.
Qed.

Lemma link_row_eq (a b : link_row) :
  l_snippet_id a = l_snippet_id b -> l_tag_id a = l_tag_id b -> a = b.
Proof. destruct a, b; simpl; congruence. Qed.

(** With unique tag names and unique link rows, the names linked to a
    snippet are pairwise different. *)
Lemma linked_names_NoDup db s :
  NoDup (map t_name (tags db)) ->
  NoDup (snippet_tags db) ->
  NoDup (linked_names db s).
Proof.
  intros Dn Dl. unfold linked_names, join_links.
  assert (NoDup (index_order
                   (filter (fun l => s_id s =? l_snippet_id l) (snippet_tags db)))) as D
    by (eapply Permutation_NoDup;
        [symmetry; apply index_order_perm | now apply NoDup_filter]).
  assert (forall l, In l (index_order
                     (filter (fun l => s_id s =? l_snippet_id l) (snippet_tags db)))
                    -> l_snippet_id l = s_id s) as Hs.
  { intros l Hl. apply in_index_order, filter_In in Hl. destruct Hl as [_ E].
    apply Z.eqb_eq in E. congruence. }
  destruct (index_order _) as [|l0 ls] eqn:F; [constructor|].
  clear F. revert D Hs. generalize (l0 :: ls). clear l0 ls.
  intros ls. induction ls as [|l ls IH]; simpl; intros D Hs; [constructor|].
  inversion D as [|? ? N D']; subst.
  rewrite somes_app. apply NoDup_app_intro.
  - rewrite somes_join_tags. now apply NoDup_map_filter.
  - apply IH; auto.
  - intros n H1 H2. apply N.
    apply in_somes, in_join_tags_Some in H1. destruct H1 as (t & Ht & Et & En).
    apply in_somes, in_flat_map in H2. destruct H2 as (l' & Hl' & H2).
    apply in_join_tags_Some in H2. destruct H2 as (t' & Ht' & Et' & En').
    assert (t = t') by (apply (NoDup_map_injective t_name (tags db)); congruence).
    subst t'. replace l with l'; [exact Hl'|].
    apply link_row_eq; [rewrite !Hs by auto; reflexivity | congruence].
Qed.

Lemma StronglySorted_map {A B} (f : A -> B) (R : B -> B -> Prop) l :
  StronglySorted (fun a b => R (f a) (f b)) l -> StronglySorted R (map f l).
Proof.
  induction 1 as [|a l S IH F]; simpl; constructor; [exact IH|].
  apply Forall_map. exact F.
Qed.

Lemma StronglySorted_weaken {A} (R R' : A -> A -> Prop) l :
  (forall a b, R a b -> R' a b) -> StronglySorted R l -> StronglySorted R' l.
Proof.
  intros W. induction 1 as [|a l S IH F]; constructor; [exact IH|].
  eapply Forall_impl; [|exact F]. auto.
Qed.

(** Without a search text nothing is filtered. *)
Lemma group_of_stored_snippet db g :
  NoDup (map s_id (snippets db)) ->
  In g (group_by_id (from_clause db)) ->
  In (fst g) (snippets db) /\ snd g = join_links db (fst g).
Proof.
  intros D Hg. apply group_by_id_spec in Hg. destruct Hg as (Hn & r & Hr & E).
  apply in_from_clause in Hr. destruct Hr as [Hr _]. rewrite E in Hr.
  split; [exact Hr|].
  rewrite Hn. unfold group_id. rewrite from_clause_rows_of by assumption.
  rewrite map_map. simpl. apply map_id.
Qed.

Lemma groups_cover_snippets db :
  NoDup (map s_id (snippets db)) ->
  Permutation (map group_id (group_by_id (from_clause db))) (map s_id (snippets db)).
Proof.
  intros D. apply NoDup_Permutation; [apply group_by_id_NoDup | exact D |].
  intros i. rewrite group_by_id_ids. unfold from_clause.
  rewrite !in_map_iff. split.
  - intros (r & <- & Hr). apply in_flat_map in Hr. destruct Hr as (s & Hs & Hr).
    apply in_map_iff in Hr. destruct Hr as (n & <- & _). exists s. auto.
  - intros (s & <- & Hs).
    destruct (join_links db s) as [|n ns] eqn:E; [now apply join_links_nonempty in E|].
    exists (make_row s n). split; [reflexivity|].
    apply in_flat_map. exists s. split; [exact Hs|].
    rewrite E. now left.
Qed.

(** X16.  While the schema's uniqueness constraints hold and every
    tag name is non-empty and free of commas, the listing without a search
    text holds every stored snippet once, newest [created_at] first, and
    the tag list of each record has no duplicates and holds exactly the
    names its rows in [snippet_tags] lead to. *)
Theorem unfiltered_listing_is_complete_and_ordered :
  forall db,
    constraints_hold db ->
    (forall t, In t (tags db) -> plain_name (t_name t)) ->
    Permutation (map id (listed no_faults db EmptyString)) (map s_id (snippets db)) /\
    (forall s, In s (listed no_faults db EmptyString) ->
       exists row, In row (snippets db) /\ shows s row) /\
    StronglySorted Z.ge (map created_at (listed no_faults db EmptyString)) /\
    (forall s, In s (listed no_faults db EmptyString) ->
       NoDup (tag_names s) /\
       forall n, In n (tag_names s) <-> is_linked db (id s) n).
Proof.
  intros db C Hplain. destruct C as [Ds Dt Dn Dl].
  assert (forall g, In g (group_by_id (from_clause db)) ->
            tag_names (parse_row (select_columns g)) = linked_names db (fst g)) as T.
  { intros g Hg. destruct (group_of_stored_snippet db g Ds Hg) as [_ E].
    rewrite parse_row_tag_names; [now rewrite E|].
    intros n Hn. rewrite E in Hn. apply in_join_links_Some in Hn.
    destruct Hn as (l & t & _ & _ & Ht & _ & <-). now apply Hplain. }
  split; [|split; [|split]].
  - rewrite listed_unfold, !map_map. simpl.
    change (fun x : group => s_id (fst x)) with group_id.
    rewrite (Permutation_map group_id (order_by_perm _)).
    now apply groups_cover_snippets.
  - intros s H. apply in_listed in H. destruct H as (g & Hg & E).
    destruct (group_of_stored_snippet db g Ds Hg) as [Hr _].
    exists (fst g). split; [exact Hr|]. rewrite E. apply shows_parse_row.
  - rewrite listed_unfold, !map_map. simpl.
    apply StronglySorted_map.
    eapply StronglySorted_weaken; [|apply order_by_sorted].
    unfold newer_first. intros; lia.
  - intros s H. apply in_listed in H. destruct H as (g & Hg & ->).
    rewrite (T g Hg). split; [now apply linked_names_NoDup|].
    intros n. apply in_linked_names.
Qed.

(** ** Insert-or-reuse of a tag *)

Lemma has_tag_name_In db name :
  has_tag_name db name = true <-> exists t, In t (tags db) /\ t_name t = name.
Proof.
  unfold has_tag_name. rewrite existsb_exists.
  split; intros (t & H & E); exists t; split; trivial; now apply String.eqb_eq.
Qed.


Lemma insert_or_ignore_tag_sequence db name :
  seq_tags db < seq_tags (insert_or_ignore_tag db name).
Proof. unfold insert_or_ignore_tag, next_rowid. simpl. lia. Qed.

Lemma insert_or_ignore_tag_has db name :
  has_tag_name (insert_or_ignore_tag db name) name = true.
Proof.
  unfold has_tag_name at 1. unfold insert_or_ignore_tag. cbn [tags].
  destruct (has_tag_name db name) eqn:E; [exact E|].
  rewrite existsb_app. simpl.
  now rewrite String.eqb_refl, orb_true_r.
Qed.

Lemma NoDup_snoc {A} (l : list A) a : NoDup l -> ~ In a l -> NoDup (l ++ [a]).
Proof.
  intros D N. apply NoDup_app_intro; [exact D | repeat constructor; auto |].
  intros x Hx [<-|[]]. contradiction.
Qed.

Lemma insert_or_ignore_tag_names_unique db name :
  NoDup (map t_name (tags db)) ->
  NoDup (map t_name (tags (insert_or_ignore_tag db name))).
Proof.
  intros D. unfold insert_or_ignore_tag. cbn [tags].
  destruct (has_tag_name db name) eqn:E; [exact D|].
  rewrite map_app. simpl. apply NoDup_snoc; [exact D|].
  intros H. apply in_map_iff in H. destruct H as (t & Et & Ht).
  assert (has_tag_name db name = true) by (apply has_tag_name_In; eauto).
  congruence.
Qed.

(** Under [UNIQUE(name)] the lookup finds the one row of that name. *)
Lemma select_tag_id_unique db name t :
  NoDup (map t_name (tags db)) ->
  In t (tags db) -> t_name t = name ->
  select_tag_id db name = Some (t_id t) /\
  filter (fun t => String.eqb (t_name t) name) (tags db) = [t].
Proof.
  unfold select_tag_id. induction (tags db) as [|a l IH]; simpl;
    intros D H E; [contradiction|].
  inversion D as [|? ? N D']; subst.
  destruct H as [->|H].
  - rewrite String.eqb_refl. split; [reflexivity|]. f_equal.
    apply filter_none. intros x Hx. apply String.eqb_neq. intros Ex.
    apply N. rewrite <- Ex. now apply in_map.
  - assert (String.eqb (t_name a) (t_name t) = false) as ->.
    { apply String.eqb_neq. intros Ex. apply N. rewrite Ex. now apply in_map. }
    now apply IH.
Qed.


(** The sequence does move: after the insert of the stored name [array]
    is ignored, the next new tag gets the id 4, not 3. *)
Example ignored_insert_moves_the_sequence :
  seq_tags sample_db = 2 /\
  insert_or_reuse_tag sample_db "array" =
    ({| snippets := snippets sample_db; tags := tags sample_db;
        snippet_tags := snippet_tags sample_db;
        seq_snippets := 1; seq_tags := 3 |}, Some 1) /\
  snd (insert_or_reuse_tag (fst (insert_or_reuse_tag sample_db "array")) "q") = Some 4.
Proof. repeat split. Qed.

(** ** Sample data *)

Example sample_db_rows :
  sample_db =
  {| snippets := [{| s_id := 1; s_title := "Array Map Example";
                     s_code := "const doubled = [1, 2, 3].map(n => n * 2);";
                     s_language := "javascript"; s_created_at := 100 |}];
     tags := [{| t_id := 1; t_name := "array" |};
              {| t_id := 2; t_name := "functional" |}];
     snippet_tags := [{| l_snippet_id := 1; l_tag_id := 1 |};
                      {| l_snippet_id := 1; l_tag_id := 2 |}];
     seq_snippets := 1;
     seq_tags := 2 |}.
Proof. reflexivity. Qed.

(** ** Validation in the create handler *)

Lemma absent_falsy v : absent v <-> Js.truthy_opt v = false.
Proof.
  unfold absent. destruct v as [[|c s]|]; simpl; split; intros H; auto;
    try discriminate; destruct H; discriminate.
Qed.

(** C5, amended.  A create request whose title or code is missing or the
    empty string is answered with status 400; the database file is left as
    it was and no statement reaches the store. *)
Theorem create_without_title_or_code_is_rejected :
  forall fault sched now db body,
    absent (b_title body) \/ absent (b_code body) ->
    SnippetController.createSnippet fault sched now db body =
    {| SnippetController.h_file := db;
       SnippetController.h_response :=
         SnippetController.Json 400 false "Title and code are required" None;
       SnippetController.h_trace := [] |}.
Proof.
  intros fault sched now db body H.
  unfold SnippetController.createSnippet.
  destruct H as [H|H]; apply absent_falsy in H; rewrite H; simpl;
    rewrite ?orb_true_r; reflexivity.
Qed.

(** C5 as stated fails: a title of three spaces is empty after trimming,
    yet the handler answers 201 and the row is stored. *)
Lemma create_with_blank_title_is_stored :
  let body := {| SnippetController.b_title := Some "   ";
                 SnippetController.b_code := Some "c";
                 SnippetController.b_language := None;
                 SnippetController.b_tags := None |} in
  let h := SnippetController.createSnippet no_faults fifo 100 empty_database body in
  Text.trim "   " = "" /\
  SnippetController.h_response h =
    SnippetController.Json 201 true "Snippet created successfully"
      (Some {| new_id := 1;
               new_data := {| d_title := "   "; d_code := "c";
                              d_language := "javascript"; d_tags := [] |} |}) /\
  snippets (SnippetController.h_file h) =
    [{| s_id := 1; s_title := "   "; s_code := "c";
        s_language := "javascript"; s_created_at := 100 |}] /\
  SnippetController.h_trace h =
    [(SqlBegin, None); (SqlInsertSnippet "   " "c" "javascript", None);
     (SqlCommit, None)].
Proof. repeat split. Qed.

(** ** The delete handler *)

Lemma changes_zero {A} (f : A -> bool) l :
  (Z.of_nat (List.length (filter f l)) =? 0) = negb (existsb f l).
Proof.
  induction l as [|a l IH]; simpl; [reflexivity|].
  destruct (f a); simpl; [reflexivity | exact IH].
Qed.

Lemma delete_snippet_nothing real c v :
  existsb (fun s => rowid_is real v (s_id s)) (snippets (c_db c)) = false ->
  c_db (fst (delete_snippet real c v)) = c_db c.
Proof.
  intros H. unfold delete_snippet. simpl.
  assert (forall s, In s (snippets (c_db c)) -> rowid_is real v (s_id s) = false) as N.
  { intros s Hs. destruct (rowid_is real v (s_id s)) eqn:E; [|reflexivity].
    rewrite <- H. symmetry. apply existsb_exists. eauto. }
  rewrite filter_all by (intros s Hs; now rewrite N).
  rewrite (filter_none _ _ N). simpl.
  rewrite filter_all by reflexivity.
  destruct (c_foreign_keys c), (c_db c); reflexivity.
Qed.

(** C8, amended.  The delete handler answers 400 exactly when [isNaN(id)]
    holds, that is when the id is not a numeric literal, and then leaves
    the store alone; otherwise it sends the one [DELETE] to the store and,
    unless the store fails, answers 200 when a row had that id and 404,
    with the file unchanged, when none had.  Which row has the id is the
    store's comparison of the text with the rowid, whatever its
    conversion of real literals. *)
Theorem delete_handler_checks_numeric_id :
  forall real fault db id,
    let h := SnippetController.deleteSnippet real fault db id in
    let stmt := SqlDelete (VText id) in
    (SnippetController.h_response h =
       SnippetController.Json 400 false "Invalid snippet ID" None
     <-> Js.isNaN id = true) /\
    (Js.isNaN id = true ->
       SnippetController.h_file h = db /\ SnippetController.h_trace h = []) /\
    (Js.isNaN id = false ->
       SnippetController.h_trace h = [(stmt, fault 0%nat stmt)] /\
       match fault 0%nat stmt with
       | Some e =>
           SnippetController.h_response h = SnippetController.Next e /\
           SnippetController.h_file h = db
       | None =>
           if existsb (fun s => rowid_is real (VText id) (s_id s)) (snippets db)
           then SnippetController.h_response h =
                  SnippetController.Json 200 true "Snippet deleted successfully" None
           else SnippetController.h_response h =
                  SnippetController.Json 404 false "Snippet not found" None /\
                SnippetController.h_file h = db
       end).
Proof.
  intros real fault db id h stmt. subst h stmt.
  unfold SnippetController.deleteSnippet, SnippetModel.deleteSnippet.
  destruct (Js.isNaN id) eqn:E.
  - simpl. repeat split; auto; discriminate.
  - split; [split; [|discriminate]|split; [discriminate|]].
    + destruct (fault 0%nat (SqlDelete (VText id))); simpl; [discriminate|].
      destruct (_ =? 0); discriminate.
    + intros _. destruct (fault 0%nat (SqlDelete (VText id))) as [e|]; simpl.
      * repeat split.
      * split; [reflexivity|].
        rewrite changes_zero.
        destruct (existsb _ (snippets db)) eqn:X; simpl; [reflexivity|].
        split; [reflexivity|].
        exact (delete_snippet_nothing real (createConnection db) (VText id) X).
Qed.

Example delete_handler_examples :
  h_response (SnippetController.deleteSnippet no_rounding no_faults sample_db "1")
    = Json 200 true "Snippet deleted successfully" None /\
  h_response (SnippetController.deleteSnippet no_rounding no_faults sample_db "999999")
    = Json 404 false "Snippet not found" None /\
  h_response (SnippetController.deleteSnippet no_rounding no_faults sample_db "abc")
    = Json 400 false "Invalid snippet ID" None /\
  h_response (SnippetController.deleteSnippet no_rounding (fun _ _ => Some (StoreFailure 7))
                sample_db "1")
    = Next (StoreFailure 7).
Proof. repeat split. Qed.

(** A literal with a fraction is compared as the store converts it: under
    a conversion that rounds the long literal below to 1, as SQLite's
    does, the request deletes snippet 1; the exact value matches no
    row. *)
Example delete_by_rounded_literal :
  let id := "0.99999999999999999999999" in
  let rounding : conversion :=
    fun t => if String.eqb t id then Some 1 else no_rounding t in
  Js.isNaN id = false /\
  h_response (SnippetController.deleteSnippet rounding no_faults sample_db id)
    = Json 200 true "Snippet deleted successfully" None /\
  snippets (h_file (SnippetController.deleteSnippet rounding no_faults sample_db id)) = [] /\
  h_response (SnippetController.deleteSnippet no_rounding no_faults sample_db id)
    = Json 404 false "Snippet not found" None.
Proof. repeat split. Qed.

(** C8 as stated fails: [-5] is not a positive integer, yet the handler
    raises no validation error; it runs the [DELETE] and answers 404. *)
Lemma delete_negative_id_passes_validation :
  let h := SnippetController.deleteSnippet no_rounding no_faults sample_db "-5" in
  is_positive_integer "-5" = false /\
  Js.isNaN "-5" = false /\
  SnippetController.h_response h =
    SnippetController.Json 404 false "Snippet not found" None /\
  SnippetController.h_trace h = [(SqlDelete (VText "-5"), None)].
Proof. repeat split. Qed.

(** ** Deleting a snippet *)

(** The model's delete runs on a connection of [createConnection], whose
    foreign keys are off: whatever the id, no row of [snippet_tags] and no
    row of [tags] goes away. *)
Lemma deleteSnippet_keeps_links_and_tags real fault db v :
  snippet_tags (file (SnippetModel.deleteSnippet real fault db v)) = snippet_tags db /\
  tags (file (SnippetModel.deleteSnippet real fault db v)) = tags db.
Proof.
  unfold SnippetModel.deleteSnippet.
  destruct (fault 0%nat (SqlDelete v)); simpl; auto.
Qed.

(** On a connection that did turn foreign keys on, the same statement
    takes the snippet's link rows with it. *)
Lemma delete_snippet_cascades real c v l s :
  c_foreign_keys c = true ->
  In l (snippet_tags (c_db (fst (delete_snippet real c v)))) ->
  In s (snippets (c_db c)) ->
  s_id s = l_snippet_id l ->
  rowid_is real v (s_id s) = false.
Proof.
  unfold delete_snippet. simpl. intros -> H Hs E.
  apply filter_In in H. destruct H as [_ H].
  apply negb_true_iff in H.
  destruct (rowid_is real v (s_id s)) eqn:R; [|reflexivity].
  rewrite <- H. symmetry. apply existsb_exists. exists s. split.
  - apply filter_In. split; [exact Hs | exact R].
  - now apply Z.eqb_eq.
Qed.

(** C6 (the code departs from it). Deleting the stored snippet, which has
    two tags, through the delete handler: the snippet row goes, both rows
    of [snippet_tags] stay behind, pointing at a snippet that is gone; the
    tag rows stay.  The same statement on a connection with foreign keys
    on removes the two link rows. *)
Example delete_leaves_link_rows_behind :
  forall real,
  let h := SnippetController.deleteSnippet real no_faults sample_db "1" in
  h_response h = Json 200 true "Snippet deleted successfully" None /\
  snippets (h_file h) = [] /\
  snippet_tags (h_file h) = [{| l_snippet_id := 1; l_tag_id := 1 |};
                             {| l_snippet_id := 1; l_tag_id := 2 |}] /\
  tags (h_file h) = tags sample_db /\
  snippet_tags (c_db (fst (delete_snippet real
     (pragma_foreign_keys_on (createConnection sample_db)) (VText "1")))) = [].
Proof. intros real. repeat split. Qed.

(** ** Searching by tag *)

(** Whatever the search text, no snippet is listed twice. *)
Lemma listing_has_each_snippet_once db q : NoDup (map id (listed no_faults db q)).
Proof.
  rewrite listed_unfold, !map_map. simpl.
  change (fun x : group => s_id (fst x)) with group_id.
  eapply Permutation_NoDup;
    [symmetry; apply Permutation_map, order_by_perm | apply group_by_id_NoDup].
Qed.

(** C3 (the code departs from it). The stored snippet has the tags
    [array] and [functional].  Searching for [functional], which is found
    in neither title, code nor language, lists the snippet once, with the
    tag list [functional] alone: the [WHERE] clause has dropped the joined
    row of [array] before [GROUP_CONCAT] ran.  The unfiltered listing
    shows both tags. *)
Example search_by_tag_lists_matching_tags_only :
  map id (listed no_faults sample_db "functional") = [1] /\
  map tag_names (listed no_faults sample_db "functional") = [["functional"]] /\
  map tag_names (listed no_faults sample_db "") = [["array"; "functional"]] /\
  contains_nocase "functional" "Array Map Example" = false /\
  contains_nocase "functional" "const doubled = [1, 2, 3].map(n => n * 2);" = false /\
  contains_nocase "functional" "javascript" = false.
Proof. repeat split. Qed.

(** C4 (the code departs from it).  The search text is put between two
    [%] and bound to the four [LIKE]s as it is, so a [_] in it stands for
    any character: the text [_] is found in no column and no tag name of
    the stored snippet, yet the search for it lists the snippet. *)
Lemma underscore_search_lists_unmatched_snippet :
  map id (listed no_faults sample_db "_") = [1] /\
  forall row, In row (snippets sample_db) -> ~ matches_search sample_db "_" row.
Proof.
  split; [reflexivity|].
  intros row [<-|[]] [H|[H|[H|(n & L & H)]]]; try discriminate.
  destruct L as (l & t & Hl & _ & Ht & _ & <-).
  destruct Ht as [<-|[<-|[]]]; discriminate.
Qed.

(** C7 (the code departs from it).  After a snippet is created with the
    tags [a,b] and [a], its two link rows lead to the names [a,b] and [a],
    but the listing reports the tag list [a; b; a], with a duplicate and
    with a name, [b], that no link row leads to: the names are joined by
    [GROUP_CONCAT] with commas and taken apart with [split(',')], and a
    comma in a name is not told from a separator. *)
Lemma comma_in_tag_name_duplicates_listed_tags :
  let data := {| d_title := "t"; d_code := "c"; d_language := "javascript";
                 d_tags := ["a,b"; "a"] |} in
  let db := file (SnippetModel.createSnippet no_faults fifo 100 empty_database data) in
  map t_name (tags db) = ["a,b"; "a"] /\
  linked_names db {| s_id := 1; s_title := "t"; s_code := "c";
                     s_language := "javascript"; s_created_at := 100 |}
    = ["a,b"; "a"] /\
  map tag_names (listed no_faults db "") = [["a"; "b"; "a"]] /\
  ~ NoDup ["a"; "b"; "a"].
Proof.
  repeat split.
  intros D. inversion D as [|? ? N _]; subst. apply N. simpl. auto.
Qed.

(** The same slip with the NUL character, at which [LIKE] stops reading
    the pattern: the search for it lists the snippet, which holds no
    NUL. *)
Example nul_search_lists_unmatched_snippet :
  let nul := String zero EmptyString in
  map id (listed no_faults sample_db nul) = [1] /\
  forall row, In row (snippets sample_db) -> ~ matches_search sample_db nul row.
Proof.
  split; [reflexivity|].
  intros row [<-|[]] [H|[H|[H|(n & L & H)]]]; try discriminate.
  destruct L as (l & t & Hl & _ & Ht & _ & <-).
  destruct Ht as [<-|[<-|[]]]; discriminate.
Qed.

(** The tags of a record come in the order of their ids, not in the order
    in which they were given: [y] was stored with the first snippet, so
    the second snippet, created with the tags [x] and [y], is listed with
    [y] before [x]. *)
Example tags_are_listed_by_tag_id :
  let db1 := file (SnippetModel.createSnippet no_faults fifo 100 empty_database
                     (tagged ["y"])) in
  let db2 := file (SnippetModel.createSnippet no_faults fifo 200 db1
                     (tagged ["x"; "y"])) in
  map t_name (tags db2) = ["y"; "x"] /\
  snippet_tags db2 = [{| l_snippet_id := 1; l_tag_id := 1 |};
                      {| l_snippet_id := 2; l_tag_id := 2 |};
                      {| l_snippet_id := 2; l_tag_id := 1 |}] /\
  map tag_names (listed no_faults db2 EmptyString) = [["y"; "x"]; ["y"]].
Proof. vm_compute. repeat split. Qed.

(** ** The tag loop of [createSnippet] *)

(** *** Picking a pending statement *)

Lemma take_at_Some {A} i (l : list A) :
  (i < List.length l)%nat -> exists x r, take_at i l = Some (x, r).
Proof.
  revert i. induction l as [|a l IH]; simpl; intros i H; [lia|].
  destruct i as [|i]; simpl; [eauto|].
  destruct (IH i) as (x & r & E); [lia|]. rewrite E. eauto.
Qed.

Lemma take_at_perm {A} i (l : list A) x r :
  take_at i l = Some (x, r) -> Permutation l (x :: r).
Proof.
  revert i x r. induction l as [|a l IH]; simpl; intros i x r H; [discriminate|].
  destruct i as [|i].
  - injection H as <- <-. reflexivity.
  - destruct (take_at i l) as [[y r']|] eqn:E; [|discriminate].
    injection H as <- <-. rewrite (IH _ _ _ E). apply perm_swap.
Qed.

Lemma pick_perm {A} i (l : list A) x r :
  pick i l = Some (x, r) -> Permutation l (x :: r).
Proof. apply take_at_perm. Qed.

Lemma pick_None {A} i (l : list A) : pick i l = None -> l = [].
Proof.
  unfold pick. destruct l as [|a l]; [reflexivity|]. intros H.
  destruct (take_at_Some (i mod List.length (a :: l)) (a :: l)) as (x & r & E).
  - apply Nat.mod_upper_bound. discriminate.
  - congruence.
Qed.

Lemma pick_nil {A} i : pick i (@nil A) = None.
Proof. reflexivity. Qed.

Lemma weight_perm l l' : Permutation l l' -> weight l = weight l'.
Proof.
  intros P. unfold weight. induction P; simpl; lia.
Qed.

Lemma weight_app l l' : weight (l ++ l') = (weight l + weight l')%nat.
Proof. unfold weight. now rewrite map_app, list_sum_app. Qed.

Lemma failures_app l l' : failures (l ++ l') = failures l ++ failures l'.
Proof. unfold failures. now rewrite map_app, somes_app. Qed.

(** *** One callback *)

(** The cases of [step]. *)
Ltac step_cases Hpick Hfault :=
  unfold step;
  match goal with
  | |- context [pick ?c ?l] =>
      destruct (pick c l) as [[?stmt ?rest]|] eqn:Hpick
  end;
  [ match goal with
    | |- context [match ?f ?k ?s with _ => _ end] =>
        destruct (f k s) as [?err|] eqn:Hfault
    end
  | ].

Lemma no_faults_statement_level : statement_level no_faults.
Proof. intros k stmt e H. discriminate H. Qed.

Lemma fail_statement_kept c e :
  ends_transaction e = false -> fail_statement c e = c.
Proof. unfold fail_statement. now intros ->. Qed.

(** A violated constraint fails the statement and nothing more. *)
Lemma insert_snippet_tag_error c s t e :
  insert_snippet_tag c s t = inl e -> ends_transaction e = false.
Proof.
  unfold insert_snippet_tag. destruct (has_link _ _).
  - intros H. injection H as <-. reflexivity.
  - destruct (_ && _); [|discriminate]. intros H. injection H as <-. reflexivity.
Qed.

Lemma checkCompletion_invariant fault snippetId data db0 st :
  statement_level fault ->
  tagErrors st = failures (log st) ->
  Forall (fun s => is_tag_statement s = true) (pending st) ->
  (forall name, In (SqlSelectTag name) (pending st) ->
                has_tag_name (c_db (conn st)) name = true) ->
  result st = Pending ->
  c_saved (conn st) = Some db0 ->
  (processedTags st + List.length (pending st) = List.length (d_tags data))%nat ->
  loop_invariant fault snippetId data db0 (checkCompletion fault snippetId data st).
Proof.
  intros Q He Hs Hl Hr Hc Hn. unfold checkCompletion.
  destruct (processedTags st =? List.length (d_tags data))%nat eqn:E.
  - apply Nat.eqb_eq in E.
    assert (pending st = []) as Hp by (apply length_zero_iff_nil; lia).
    destruct (tagErrors st) as [|e es] eqn:Et.
    + unfold run_commit. rewrite Hc.
      destruct (fault (List.length (log st)) SqlCommit) as [ce|] eqn:Fc.
      * rewrite (fail_statement_kept _ _ (Q _ _ _ Fc)).
        constructor; cbn [pending conn result log tagErrors processedTags fst snd].
        -- exact Hs.
        -- rewrite Hp. intros name [].
        -- split; [exact Hp|]. split; [reflexivity|]. split; [reflexivity|].
           split; [exact E|]. right. exists ce, (List.length (log st)).
           split; [exact Fc|].
           rewrite failures_app, <- He. split; [reflexivity|].
           split; [apply in_app_iff; right; now left|].
           unfold close. now rewrite Hc.
      * constructor; cbn [pending conn result log tagErrors processedTags fst snd].
        -- exact Hs.
        -- rewrite Hp. intros name [].
        -- split; [exact Hp|]. split; [reflexivity|]. split; [reflexivity|].
           split; [exact E|]. left.
           rewrite failures_app, <- He. split; reflexivity.
    + unfold run_rollback. rewrite Hc.
      constructor; cbn [pending conn result log tagErrors processedTags fst snd].
      * exact Hs.
      * rewrite Hp. intros name [].
      * split; [exact Hp|]. split.
        -- unfold rollback, close. rewrite Hc. reflexivity.
        -- split; [|reflexivity].
           unfold first_failure. rewrite failures_app, <- He. reflexivity.
  - apply Nat.eqb_neq in E. constructor; [exact Hs | exact Hl |].
    rewrite Hr. repeat split; [exact He | exact Hc | exact Hn |].
    intros Hp. rewrite Hp in Hn. simpl in Hn. lia.
Qed.

Lemma insert_snippet_tag_saved c s t c' :
  insert_snippet_tag c s t = inr c' ->
  c_saved c' = c_saved c /\ tags (c_db c') = tags (c_db c).
Proof.
  unfold insert_snippet_tag. destruct (has_link _ _); [discriminate|].
  destruct (_ && _); [discriminate|]. intros H. injection H as <-. split; reflexivity.
Qed.

(** [INSERT OR IGNORE] removes no tag. *)
Lemma insert_or_ignore_tag_keeps db name other :
  has_tag_name db other = true ->
  has_tag_name (insert_or_ignore_tag db name) other = true.
Proof.
  intros H. unfold has_tag_name at 1. unfold insert_or_ignore_tag. cbn [tags].
  destruct (has_tag_name db name); [exact H|].
  unfold has_tag_name in H. rewrite existsb_app, H. reflexivity.
Qed.

Lemma select_tag_id_found db name :
  has_tag_name db name = true -> exists i, select_tag_id db name = Some i.
Proof.
  unfold has_tag_name, select_tag_id. intros H.
  apply existsb_exists in H. destruct H as (t & Ht & E).
  destruct (find _ (tags db)) as [t'|] eqn:F; [simpl; eauto|].
  apply (find_none _ _ F) in Ht. congruence.
Qed.

(** On a store whose failures leave the transaction open, every callback
    keeps the invariant. *)
Lemma step_invariant fault snippetId data db0 choice st :
  statement_level fault ->
  loop_invariant fault snippetId data db0 st ->
  loop_invariant fault snippetId data db0 (step fault snippetId data choice st).
Proof.
  intros Q I. step_cases Hpick Hfault; [| |exact I].
  all: pose proof (pick_perm _ _ _ _ Hpick) as P.
  all: destruct I as [Hs Hl Hr].
  all: assert (Forall (fun s => is_tag_statement s = true) (stmt :: rest)) as Hs'
        by (eapply Permutation_Forall; eassumption).
  all: inversion Hs' as [|? ? Hstmt Hrest]; subst.
  all: assert (List.length (pending st) = S (List.length rest)) as Hlen
        by (rewrite (Permutation_length P); reflexivity).
  all: assert (forall name, In (SqlSelectTag name) (stmt :: rest) ->
                 has_tag_name (c_db (conn st)) name = true) as Hl'
        by (intros name Hin; apply Hl;
            eapply Permutation_in; [symmetry; exact P | exact Hin]).
  all: destruct (result st) eqn:R;
       try (destruct Hr as [Hr _]; rewrite Hr in Hlen; discriminate Hlen);
       try contradiction.
  all: destruct Hr as (He & Hc & Hn & _).
  - (* the statement failed *)
    unfold tag_failed. rewrite (fail_statement_kept _ _ (Q _ _ _ Hfault)).
    apply checkCompletion_invariant; simpl; trivial.
    + rewrite failures_app, He. reflexivity.
    + intros name Hin. apply Hl'. now right.
    + lia.
  - destruct stmt; try discriminate Hstmt.
    + (* INSERT OR IGNORE *)
      constructor; simpl.
      * apply Forall_app. split; [exact Hrest | repeat constructor].
      * intros other Hin. apply in_app_iff in Hin. destruct Hin as [Hin|[E|[]]].
        -- apply insert_or_ignore_tag_keeps, Hl'. now right.
        -- injection E as <-. apply insert_or_ignore_tag_has.
      * split; [rewrite failures_app, He; simpl; now rewrite app_nil_r|].
        repeat split; [exact Hc | | ].
        -- rewrite length_app. simpl. lia.
        -- intros F. apply app_eq_nil in F. destruct F; discriminate.
    + (* SELECT id *)
      destruct (select_tag_id_found (c_db (conn st)) name) as (tag_id & ->);
        [apply Hl'; now left|].
      constructor; simpl.
      * apply Forall_app. split; [exact Hrest | repeat constructor].
      * intros other Hin. apply in_app_iff in Hin. destruct Hin as [Hin|[E|[]]].
        -- apply Hl'. now right.
        -- discriminate E.
      * split; [rewrite failures_app, He; simpl; now rewrite app_nil_r|].
        repeat split; [exact Hc | | ].
        -- rewrite length_app. simpl. lia.
        -- intros F. apply app_eq_nil in F. destruct F; discriminate.
    + (* INSERT INTO snippet_tags *)
      destruct (insert_snippet_tag _ _ _) as [err|c'] eqn:L.
      * unfold tag_failed.
        rewrite (fail_statement_kept _ _ (insert_snippet_tag_error _ _ _ _ L)).
        apply checkCompletion_invariant; simpl; trivial.
        -- rewrite failures_app, He. reflexivity.
        -- intros name Hin. apply Hl'. now right.
        -- lia.
      * destruct (insert_snippet_tag_saved _ _ _ _ L) as [Sv Tg].
        apply checkCompletion_invariant; simpl; trivial.
        -- rewrite failures_app, He. simpl. now rewrite app_nil_r.
        -- intros name Hin. unfold has_tag_name. rewrite Tg. apply Hl'. now right.
        -- rewrite Sv. exact Hc.
        -- lia.
Qed.

(** *** All callbacks *)

Lemma checkCompletion_pending fault snippetId data st :
  pending (checkCompletion fault snippetId data st) = pending st.
Proof.
  unfold checkCompletion. destruct (_ =? _)%nat; [|reflexivity].
  destruct (tagErrors st); reflexivity.
Qed.

Lemma remaining_positive stmt : is_tag_statement stmt = true -> (1 <= remaining stmt)%nat.
Proof. destruct stmt; simpl; intros H; try discriminate; lia. Qed.

Lemma weight_zero l :
  Forall (fun s => is_tag_statement s = true) l -> weight l = 0%nat -> l = [].
Proof.
  destruct 1 as [|s l Hs _]; [reflexivity|].
  apply remaining_positive in Hs. unfold weight. simpl. lia.
Qed.

(** A callback uses up one unit of the outstanding work. *)
Lemma step_weight fault snippetId data choice st :
  Forall (fun s => is_tag_statement s = true) (pending st) ->
  pending st <> [] ->
  (weight (pending (step fault snippetId data choice st)) < weight (pending st))%nat.
Proof.
  intros Hs Hne. step_cases Hpick Hfault;
    [| |now apply pick_None in Hpick].
  all: pose proof (pick_perm _ _ _ _ Hpick) as P.
  all: rewrite (weight_perm _ _ P).
  all: assert (1 <= remaining stmt)%nat as Hpos
        by (apply remaining_positive;
            apply (Permutation_Forall P) in Hs; now inversion Hs).
  all: change (weight (stmt :: rest)) with (remaining stmt + weight rest)%nat.
  - unfold tag_failed. rewrite checkCompletion_pending. simpl. lia.
  - destruct stmt; simpl in Hpos; try lia.
    + simpl. rewrite weight_app. simpl. unfold weight at 2. simpl. lia.
    + destruct (select_tag_id _ _); simpl.
      * rewrite weight_app. unfold weight at 2. simpl. lia.
      * unfold weight at 1. simpl. lia.
    + destruct (insert_snippet_tag _ _ _); unfold tag_failed;
        rewrite checkCompletion_pending; simpl; lia.
Qed.

Lemma step_idle fault snippetId data choice st :
  pending st = [] -> step fault snippetId data choice st = st.
Proof. intros H. unfold step. now rewrite H, pick_nil. Qed.

(** Only statements of tag chains are ever outstanding. *)
Lemma step_statements fault snippetId data choice st :
  Forall (fun s => is_tag_statement s = true) (pending st) ->
  Forall (fun s => is_tag_statement s = true)
         (pending (step fault snippetId data choice st)).
Proof.
  intros Hs. step_cases Hpick Hfault; [| |exact Hs].
  all: pose proof (pick_perm _ _ _ _ Hpick) as P.
  all: apply (Permutation_Forall P) in Hs.
  all: inversion Hs as [|? ? Hstmt Hrest]; subst.
  - unfold tag_failed. rewrite checkCompletion_pending. exact Hrest.
  - destruct stmt; try discriminate Hstmt.
    + simpl. apply Forall_app. split; [exact Hrest | repeat constructor].
    + destruct (select_tag_id _ _); simpl; [|constructor].
      apply Forall_app. split; [exact Hrest | repeat constructor].
    + destruct (insert_snippet_tag _ _ _); unfold tag_failed;
        rewrite checkCompletion_pending; exact Hrest.
Qed.

Lemma run_callbacks_statements fault snippetId data sched fuel :
  forall step_no st,
    Forall (fun s => is_tag_statement s = true) (pending st) ->
    Forall (fun s => is_tag_statement s = true)
           (pending (run_callbacks fault snippetId data sched fuel step_no st)).
Proof.
  induction fuel as [|fuel IH]; intros step_no st Hs; simpl; [exact Hs|].
  apply IH. now apply step_statements.
Qed.

(** Running the callbacks uses up the fuel or the outstanding statements. *)
Lemma run_callbacks_weight fault snippetId data sched fuel :
  forall step_no st,
    Forall (fun s => is_tag_statement s = true) (pending st) ->
    let st' := run_callbacks fault snippetId data sched fuel step_no st in
    pending st' = [] \/ (weight (pending st') + fuel <= weight (pending st))%nat.
Proof.
  induction fuel as [|fuel IH]; intros step_no st Hs; simpl.
  - right. lia.
  - destruct (IH (S step_no) _ (step_statements fault snippetId data (sched step_no) st Hs))
      as [W|W]; [now left|].
    destruct (pending st) as [|s l] eqn:Hp.
    + left. rewrite step_idle in W |- * by exact Hp.
      clear - Hp. revert step_no.
      induction fuel as [|fuel IHf]; intros step_no; simpl; [exact Hp|].
      rewrite step_idle by exact Hp. apply IHf.
    + right.
      pose proof (step_weight fault snippetId data (sched step_no) st) as D.
      rewrite Hp in D. specialize (D Hs ltac:(discriminate)). lia.
Qed.

(** Three steps for every tag let every callback run, whatever fails. *)
Lemma run_callbacks_finishes fault snippetId data sched c tags so_far :
  pending (run_callbacks fault snippetId data sched (3 * List.length tags) 0
             (forEach_tag c tags so_far)) = [].
Proof.
  assert (Forall (fun s => is_tag_statement s = true)
                 (pending (forEach_tag c tags so_far))) as H0
    by (apply Forall_map, Forall_forall; reflexivity).
  pose proof (run_callbacks_weight fault snippetId data sched
                (3 * List.length tags) 0 _ H0) as W.
  cbv zeta in W. destruct W as [W|W]; [exact W|].
  apply weight_zero; [now apply run_callbacks_statements|].
  cbn [forEach_tag pending] in W.
  assert (weight (map SqlInsertTag tags) = (3 * List.length tags)%nat) as Wi.
  { unfold weight. clear. induction tags as [|n names IH]; simpl in *; lia. }
  lia.
Qed.

Lemma run_callbacks_invariant fault snippetId data db0 sched fuel :
  statement_level fault ->
  forall step_no st,
    loop_invariant fault snippetId data db0 st ->
    loop_invariant fault snippetId data db0
      (run_callbacks fault snippetId data sched fuel step_no st).
Proof.
  intros Q. induction fuel as [|fuel IH]; intros step_no st I; simpl; [exact I|].
  apply IH. now apply step_invariant.
Qed.

(** *** The whole call *)

Lemma weight_inserts names : weight (map SqlInsertTag names) = (3 * List.length names)%nat.
Proof.
  unfold weight. induction names as [|n names IH]; simpl in *; lia.
Qed.

Lemma in_failures stmt e l : In (stmt, Some e) l -> failures l <> [].
Proof.
  intros H E. assert (In e (failures l)) as F.
  { unfold failures. apply in_somes, in_map_iff. exists (stmt, Some e). auto. }
  rewrite E in F. contradiction.
Qed.

(** The state the tag loop starts from keeps the invariant, and so does
    the state it ends in, with nothing outstanding. *)
Lemma tag_loop_finishes fault sched db db1 snippetId data so_far :
  statement_level fault ->
  d_tags data <> [] ->
  failures so_far = [] ->
  let st :=
    run_callbacks fault snippetId data sched (3 * List.length (d_tags data)) 0
      (forEach_tag (with_db (begin_transaction (createConnection db)) db1)
                   (d_tags data) so_far) in
  loop_invariant fault snippetId data db st /\ pending st = [].
Proof.
  intros Q Hne Hlog st. split; [|apply run_callbacks_finishes].
  apply run_callbacks_invariant; [exact Q|].
  constructor; simpl.
  - apply Forall_map, Forall_forall. reflexivity.
  - intros name H. apply in_map_iff in H. destruct H as (x & E & _). discriminate.
  - repeat split.
    + now rewrite Hlog.
    + now rewrite length_map.
    + destruct (d_tags data); [congruence | discriminate].
Qed.

(** With tags and a snippet insert that did not fail, [createSnippet] is
    the tag loop run to its end. *)
Lemma createSnippet_with_tags fault sched now db data :
  d_tags data <> [] ->
  fault 1%nat (SqlInsertSnippet (d_title data) (d_code data)
                 (language_or_default (d_language data))) = None ->
  SnippetModel.createSnippet fault sched now db data =
  finished
    (run_callbacks fault
       (next_rowid (seq_snippets db) (map s_id (snippets db))) data sched
       (3 * List.length (d_tags data)) 0
       (forEach_tag
          (with_db (begin_transaction (createConnection db))
             (fst (insert_snippet db (d_title data) (d_code data)
                     (language_or_default (d_language data)) now)))
          (d_tags data)
          [(SqlBegin, None);
           (SqlInsertSnippet (d_title data) (d_code data)
              (language_or_default (d_language data)), None)])).
Proof.
  intros Hne Hf. unfold SnippetModel.createSnippet. rewrite Hf.
  unfold insert_snippet. cbn [fst].
  destruct (d_tags data); [congruence | reflexivity].
Qed.

(** A snippet insert that fails rejects the call and leaves the file as it
    was, whether or not the failure ended the transaction. *)
Lemma createSnippet_insert_fails fault sched now db data err :
  fault 1%nat (SqlInsertSnippet (d_title data) (d_code data)
                 (language_or_default (d_language data))) = Some err ->
  let r := SnippetModel.createSnippet fault sched now db data in
  settled r = Rejected err /\ first_failure (trace r) = Some err /\ file r = db.
Proof.
  intros F. unfold SnippetModel.createSnippet. rewrite F.
  unfold fail_statement. destruct (ends_transaction err); repeat split.
Qed.

(** On a store whose failures leave the transaction open, [createSnippet]
    always settles its promise: it is rejected with the first failure of
    the log, the file being as before the call, or it is resolved, and
    then either the log holds no failure or its one failure is that of
    [COMMIT] and the file is as before the call. *)
Lemma createSnippet_settles fault sched now db data :
  statement_level fault ->
  let r := SnippetModel.createSnippet fault sched now db data in
  (exists e, settled r = Rejected e /\ first_failure (trace r) = Some e /\ file r = db) \/
  (exists c, settled r = Resolved c /\
     (failures (trace r) = [] \/
      exists e k, fault k SqlCommit = Some e /\
                  failures (trace r) = [e] /\ In (SqlCommit, Some e) (trace r) /\
                  file r = db)).
Proof.
  intros Q.
  destruct (fault 1%nat (SqlInsertSnippet (d_title data) (d_code data)
                           (language_or_default (d_language data)))) as [err|] eqn:F.
  - left. exists err. now apply createSnippet_insert_fails.
  - destruct (d_tags data) as [|t ts] eqn:T.
    + right. unfold SnippetModel.createSnippet. rewrite F, T.
      cbn [insert_snippet]. unfold run_commit. cbn [with_db begin_transaction createConnection open c_saved].
      destruct (fault 2%nat SqlCommit) as [ce|] eqn:Fc.
      * rewrite (fail_statement_kept _ _ (Q _ _ _ Fc)).
        eexists. split; [reflexivity|]. right. exists ce, 2%nat.
        split; [exact Fc|].
        split; [reflexivity|]. split; [simpl; auto | reflexivity].
      * eexists. split; [reflexivity|]. left. reflexivity.
    + rewrite createSnippet_with_tags by (trivial; congruence).
      destruct (tag_loop_finishes fault sched db
                  (fst (insert_snippet db (d_title data) (d_code data)
                          (language_or_default (d_language data)) now))
                  (next_rowid (seq_snippets db) (map s_id (snippets db))) data
                  [(SqlBegin, None);
                   (SqlInsertSnippet (d_title data) (d_code data)
                      (language_or_default (d_language data)), None)])
        as [J Hp]; [exact Q | congruence | reflexivity |].
      cbv zeta in J, Hp. unfold finished. cbn [file settled trace].
      destruct J as [Hs Hl Hr].
      destruct (result _) as [c|e| |].
      * right. exists c. split; [reflexivity|].
        destruct Hr as (_ & _ & _ & _ & [[Hf _]|(e & k & Hk & Hf & Hin & Hc)]);
          [now left | right; exists e, k; auto].
      * left. exists e. destruct Hr as (_ & Hc & Hf & _). auto.
      * contradiction.
      * destruct Hr as (_ & _ & _ & Hr). contradiction.
Qed.

(** C1 (the code departs from it).  The stored snippet has the tags
    [array] and [functional].  A snippet is created with the tags [array],
    [q] and [z], and the store runs full at the insert of [q]: SQLite rolls
    the transaction back, the snippet row with it, and the connection goes
    on outside any transaction.  The chains of [array] and [z] run to
    their ends all the same and what they write is kept; the final
    [ROLLBACK] fails, there being no transaction.  The promise is rejected
    with the first failure, but the file has gained the tag [z] and two
    link rows of snippet 2, a snippet that does not exist. *)
Example lost_transaction_leaves_rows_behind :
  let r := SnippetModel.createSnippet (disk_full_at_tag "q") fifo 200 sample_db
             (tagged ["array"; "q"; "z"]) in
  settled r = Rejected (TransactionLost 13) /\
  first_failure (trace r) = Some (TransactionLost 13) /\
  snippets (file r) = snippets sample_db /\
  tags (file r) = tags sample_db ++ [{| t_id := 3; t_name := "z" |}] /\
  snippet_tags (file r) =
    snippet_tags sample_db ++ [{| l_snippet_id := 2; l_tag_id := 1 |};
                               {| l_snippet_id := 2; l_tag_id := 3 |}] /\
  seq_snippets (file r) = 1 /\
  trace r =
    [(SqlBegin, None); (SqlInsertSnippet "t" "c" "javascript", None);
     (SqlInsertTag "array", None);
     (SqlInsertTag "q", Some (TransactionLost 13));
     (SqlInsertTag "z", None);
     (SqlSelectTag "array", None); (SqlSelectTag "z", None);
     (SqlLink 2 1, None); (SqlLink 2 3, None);
     (SqlRollback, Some NoTransaction)].
Proof. repeat split. Qed.

(** ** A tag loop without failures *)

Lemma op_names_perm l l' : Permutation l l' -> Permutation (op_names l) (op_names l').
Proof. apply Permutation_flat_map. Qed.

Lemma op_tag_ids_perm l l' : Permutation l l' -> Permutation (op_tag_ids l) (op_tag_ids l').
Proof. apply Permutation_flat_map. Qed.

Lemma claimed_ids_perm sid db l l' :
  Permutation l l' -> Permutation (claimed_ids sid db l) (claimed_ids sid db l').
Proof. intros P. unfold claimed_ids. now rewrite (op_tag_ids_perm _ _ P). Qed.

(** The order of the outstanding statements does not matter. *)
Lemma clean_perm sid names db1 db fk pend pend' processed :
  Permutation pend pend' ->
  clean sid names db1 db fk pend processed ->
  clean sid names db1 db fk pend' processed.
Proof.
  intros P K. destruct K.
  pose proof (op_names_perm _ _ P) as Pn.
  pose proof (claimed_ids_perm sid db _ _ P) as Pc.
  constructor; trivial.
  - now apply (Permutation_NoDup Pn).
  - intros x Hx. apply k_pending_named0.
    now apply (Permutation_in _ (Permutation_sym Pn)).
  - intros s t H. apply (k_link_sid0 s t).
    now apply (Permutation_in _ (Permutation_sym P)).
  - now apply (Permutation_NoDup Pc).
  - intros tid H. apply (Permutation_in _ (Permutation_sym Pc)) in H.
    destruct (k_claimed_named0 tid H) as (t & H1 & H2 & H3 & H4).
    exists t. repeat split; trivial.
    intros F. apply H4. now apply (Permutation_in _ (Permutation_sym Pn)).
  - intros name H. destruct (k_progress0 name H) as [L|(t & H1 & H2 & H3)].
    + left. now apply (Permutation_in _ Pn).
    + right. exists t. repeat split; trivial. now apply (Permutation_in _ Pc).
  - intros name H. destruct (k_inserted0 name H) as [L|R]; [left|now right].
    now apply (Permutation_in _ P).
Qed.

Lemma max_id_ge i l : In i l -> i <= max_id l.
Proof.
  induction l as [|a l IH]; simpl; intros H; [contradiction|].
  destruct H as [->|H]; [lia|]. specialize (IH H). lia.
Qed.

Lemma next_rowid_fresh seq l : ~ In (next_rowid seq l) l.
Proof. intros H. apply max_id_ge in H. unfold next_rowid in H. lia. Qed.

(** What [INSERT OR IGNORE] does to the tables. *)
Lemma insert_or_ignore_tag_shape db name :
  let db' := insert_or_ignore_tag db name in
  (exists extra, tags db' = tags db ++ extra /\
                 forall t, In t extra -> t_name t = name) /\
  snippet_tags db' = snippet_tags db /\
  snippets db' = snippets db /\
  seq_snippets db' = seq_snippets db.
Proof.
  unfold insert_or_ignore_tag. destruct (has_tag_name db name); simpl.
  - split; [|auto]. exists []. rewrite app_nil_r. split; [reflexivity | intros t []].
  - split; [|auto]. eexists. split; [reflexivity|].
    intros t [<-|[]]. reflexivity.
Qed.

Lemma insert_or_ignore_tag_ids_unique db name :
  NoDup (map t_id (tags db)) ->
  NoDup (map t_id (tags (insert_or_ignore_tag db name))).
Proof.
  intros D. unfold insert_or_ignore_tag.
  destruct (has_tag_name db name); [exact D|].
  simpl. rewrite map_app. simpl. apply NoDup_snoc; [exact D|].
  apply next_rowid_fresh.
Qed.

Lemma in_op_names_insert n l : In (SqlInsertTag n) l -> In n (op_names l).
Proof.
  intros H. unfold op_names. apply in_flat_map.
  exists (SqlInsertTag n). split; [exact H | now left].
Qed.

Lemma claimed_ids_same_links sid db db' pend :
  snippet_tags db' = snippet_tags db ->
  claimed_ids sid db' pend = claimed_ids sid db pend.
Proof. intros E. unfold claimed_ids, linked_ids. now rewrite E. Qed.

(** The insert of a tag has run: its lookup is outstanding. *)
Lemma clean_insert sid names db1 db fk name rest processed :
  clean sid names db1 db fk (SqlInsertTag name :: rest) processed ->
  clean sid names db1 (insert_or_ignore_tag db name) fk
        (SqlSelectTag name :: rest) processed.
Proof.
  intros K. destruct K as [Kfk Kn Ki Kp Kpn Ks Kc Kcn Kpr Kin Kt Kl Ksn].
  destruct (insert_or_ignore_tag_shape db name)
    as ((extra & Et & Hextra) & El & Esn & Eseq).
  assert (forall t, In t (tags db) -> In t (tags (insert_or_ignore_tag db name))) as Mono
    by (intros t Ht; rewrite Et; apply in_app_iff; now left).
  constructor.
  - exact Kfk.
  - now apply insert_or_ignore_tag_names_unique.
  - now apply insert_or_ignore_tag_ids_unique.
  - exact Kp.
  - exact Kpn.
  - intros s t [H|H]; [discriminate | apply (Ks s t); now right].
  - rewrite (claimed_ids_same_links _ _ _ _ El). exact Kc.
  - intros tid H. rewrite (claimed_ids_same_links _ _ _ _ El) in H.
    destruct (Kcn tid H) as (t & H1 & H2 & H3 & H4). exists t. auto.
  - intros n Hn. destruct (Kpr n Hn) as [L|(t & H1 & H2 & H3)]; [now left|].
    right. exists t. rewrite (claimed_ids_same_links _ _ _ _ El). auto.
  - intros n Hn. destruct (Kin n Hn) as [[L|L]|R].
    + injection L as <-. right. apply insert_or_ignore_tag_has.
    + left. now right.
    + right. now apply insert_or_ignore_tag_keeps.
  - destruct Kt as (added & Ea & Ha). exists (added ++ extra). split.
    + rewrite Et, Ea. now rewrite app_assoc.
    + rewrite map_app. apply incl_app; [exact Ha|].
      intros n Hn. apply in_map_iff in Hn. destruct Hn as (t & <- & Ht).
      rewrite (Hextra t Ht). apply Kpn. now left.
  - rewrite El. exact Kl.
  - rewrite Esn, Eseq. exact Ksn.
Qed.

(** The lookup of a tag has run: it found the tag, whose link is
    outstanding. *)
Lemma clean_select sid names db1 db fk name rest processed :
  clean sid names db1 db fk (SqlSelectTag name :: rest) processed ->
  exists tid,
    select_tag_id db name = Some tid /\
    clean sid names db1 db fk (SqlLink sid tid :: rest) processed.
Proof.
  intros K. destruct K as [Kfk Kn Ki Kp Kpn Ks Kc Kcn Kpr Kin Kt Kl Ksn].
  simpl in Kp. inversion Kp as [|? ? Nname Kp']; subst.
  assert (In name names) as Hname by (apply Kpn; now left).
  assert (has_tag_name db name = true) as Hhas.
  { destruct (Kin name Hname) as [[L|L]|R]; [discriminate| |exact R].
    exfalso. apply Nname. now apply in_op_names_insert. }
  apply has_tag_name_In in Hhas. destruct Hhas as (t & Ht & Et).
  destruct (select_tag_id_unique db name t Kn Ht Et) as [Sel _].
  exists (t_id t). split; [exact Sel|].
  change (claimed_ids sid db (SqlSelectTag name :: rest))
    with (claimed_ids sid db rest) in *.
  assert (~ In (t_id t) (claimed_ids sid db rest)) as Fresh.
  { intros H. destruct (Kcn _ H) as (t' & H1 & H2 & _ & H4).
    assert (t' = t) by (apply (NoDup_map_injective t_id (tags db)); trivial).
    subst t'. apply H4. left. now symmetry. }
  constructor; trivial.
  - intros x Hx. apply Kpn. now right.
  - intros s t' [H|H]; [now injection H | apply (Ks s t'); now right].
  - change (NoDup (t_id t :: claimed_ids sid db rest)). now constructor.
  - change (forall tid, In tid (t_id t :: claimed_ids sid db rest) ->
              exists t0, In t0 (tags db) /\ t_id t0 = tid /\
                         In (t_name t0) names /\ ~ In (t_name t0) (op_names rest)).
    intros tid [<-|H].
    + exists t. rewrite Et. auto.
    + destruct (Kcn tid H) as (t' & H1 & H2 & H3 & H4). exists t'.
      repeat split; trivial. intros F. apply H4. now right.
  - change (forall n, In n names ->
              In n (op_names rest) \/
              exists t0, In t0 (tags db) /\ t_name t0 = n /\
                         In (t_id t0) (t_id t :: claimed_ids sid db rest)).
    intros n Hn. destruct (Kpr n Hn) as [[<-|L]|(t' & H1 & H2 & H3)].
    + right. exists t. simpl. auto.
    + now left.
    + right. exists t'. simpl. auto.
  - intros n Hn. destruct (Kin n Hn) as [[L|L]|R]; [discriminate| |now right].
    left. now right.
Qed.

Lemma has_link_linked db sid tid :
  has_link db {| l_snippet_id := sid; l_tag_id := tid |} = true ->
  In tid (linked_ids sid db).
Proof.
  unfold has_link, linked_ids. intros H. apply existsb_exists in H.
  destruct H as (l & Hl & E). unfold link_eqb in E. simpl in E.
  apply andb_true_iff in E. destruct E as [E1 E2].
  apply Z.eqb_eq in E1, E2. apply in_map_iff. exists l. split; [congruence|].
  apply filter_In. split; [exact Hl | apply Z.eqb_eq; congruence].
Qed.

(** The link of a tag runs: it does not fail, and the tag is processed. *)
Lemma clean_link sid names db1 c s tid rest processed :
  clean sid names db1 (c_db c) (c_foreign_keys c) (SqlLink s tid :: rest) processed ->
  exists c',
    insert_snippet_tag c s tid = inr c' /\
    c_saved c' = c_saved c /\
    clean sid names db1 (c_db c') (c_foreign_keys c') rest (S processed).
Proof.
  intros K. destruct K as [Kfk Kn Ki Kp Kpn Ks Kc Kcn Kpr Kin Kt Kl Ksn].
  assert (s = sid) as -> by (apply (Ks s tid); now left).
  change (claimed_ids sid (c_db c) (SqlLink sid tid :: rest))
    with (tid :: claimed_ids sid (c_db c) rest) in *.
  inversion Kc as [|? ? Ntid Kc']; subst.
  unfold insert_snippet_tag.
  destruct (has_link _ _) eqn:HL.
  { exfalso. apply Ntid. unfold claimed_ids. apply in_app_iff. right.
    now apply has_link_linked. }
  rewrite Kfk. simpl. eexists. split; [reflexivity|]. split; [reflexivity|].
  simpl.
  assert (Permutation
            (claimed_ids sid
               {| snippets := snippets (c_db c); tags := tags (c_db c);
                  snippet_tags := snippet_tags (c_db c) ++
                                  [{| l_snippet_id := sid; l_tag_id := tid |}];
                  seq_snippets := seq_snippets (c_db c);
                  seq_tags := seq_tags (c_db c) |} rest)
            (tid :: claimed_ids sid (c_db c) rest)) as P.
  { unfold claimed_ids, linked_ids. simpl. rewrite filter_app, map_app. simpl.
    rewrite Z.eqb_refl. simpl. rewrite app_assoc.
    symmetry. apply Permutation_cons_append. }
  constructor; simpl; trivial.
  - intros s t H. apply (Ks s t). now right.
  - apply (Permutation_NoDup (Permutation_sym P)). exact Kc.
  - intros tid' H. apply (Permutation_in _ P) in H. exact (Kcn tid' H).
  - intros n Hn. destruct (Kpr n Hn) as [L|(t & H1 & H2 & H3)]; [now left|].
    right. exists t. repeat split; trivial.
    now apply (Permutation_in _ (Permutation_sym P)).
  - intros n Hn. destruct (Kin n Hn) as [[L|L]|R]; [discriminate| |now right].
    now left.
  - destruct Kl as (added & Ea & Fa & La).
    exists (added ++ [{| l_snippet_id := sid; l_tag_id := tid |}]).
    split; [now rewrite Ea, app_assoc|]. split.
    + apply Forall_app. split; [exact Fa | repeat constructor].
    + rewrite length_app. simpl. lia.
Qed.

Lemma checkCompletion_clean sid names db1 snippetId data st :
  clean_state sid names db1 st ->
  clean_state sid names db1 (checkCompletion no_faults snippetId data st).
Proof.
  intros [He K]. unfold checkCompletion.
  destruct (_ =? _)%nat; [|now split].
  rewrite He. split; [reflexivity|].
  cbn [conn pending processedTags]. unfold run_commit.
  destruct (c_saved (conn st)); exact K.
Qed.

(** Without store failures, a callback of a clean loop leaves a clean
    loop: no statement of the chain fails on its own. *)
Lemma step_clean snippetId data db1 choice st :
  clean_state snippetId (d_tags data) db1 st ->
  clean_state snippetId (d_tags data) db1 (step no_faults snippetId data choice st).
Proof.
  intros [He K]. step_cases Hpick Hfault; [discriminate Hfault| |now split].
  apply (clean_perm _ _ _ _ _ _ _ _ (pick_perm _ _ _ _ Hpick)) in K.
  destruct stmt; try (now split; [exact He | eapply clean_perm; [symmetry; eapply pick_perm; eassumption | exact K]]).
  - split; [exact He|]. simpl.
    apply (clean_perm _ _ _ _ _ (SqlSelectTag name :: rest));
      [apply Permutation_cons_append|].
    now apply clean_insert.
  - destruct (clean_select _ _ _ _ _ _ _ _ K) as (tid & -> & K').
    split; [exact He|]. simpl.
    apply (clean_perm _ _ _ _ _ (SqlLink snippetId tid :: rest));
      [apply Permutation_cons_append | exact K'].
  - destruct (clean_link _ _ _ _ _ _ _ _ K) as (c' & -> & _ & K').
    apply checkCompletion_clean. split; [exact He | exact K'].
Qed.

Lemma run_callbacks_clean snippetId data db1 sched fuel :
  forall step_no st,
    clean_state snippetId (d_tags data) db1 st ->
    clean_state snippetId (d_tags data) db1
      (run_callbacks no_faults snippetId data sched fuel step_no st).
Proof.
  induction fuel as [|fuel IH]; intros step_no st K; simpl; [exact K|].
  apply IH. now apply step_clean.
Qed.

(** ** Creating a snippet with distinct tags *)

Lemma linked_ids_none sid db :
  Forall (fun l => l_snippet_id l <> sid) (snippet_tags db) -> linked_ids sid db = [].
Proof.
  intros F. unfold linked_ids. rewrite filter_none; [reflexivity|].
  intros l Hl. apply Z.eqb_neq. now apply (proj1 (Forall_forall _ _) F).
Qed.

Lemma next_rowid_above seq l : seq < next_rowid seq l.
Proof. unfold next_rowid. lia. Qed.

(** The loop starts clean. *)
Lemma clean_start sid names db fk :
  fk = false ->
  NoDup names ->
  NoDup (map t_name (tags db)) ->
  NoDup (map t_id (tags db)) ->
  Forall (fun l => l_snippet_id l <> sid) (snippet_tags db) ->
  clean sid names db db fk (map SqlInsertTag names) 0.
Proof.
  intros Hfk Dn Dt Di Hl.
  assert (op_names (map SqlInsertTag names) = names) as En.
  { unfold op_names. induction names as [|n l IH]; simpl; [reflexivity|].
    inversion Dn; subst. now rewrite IH. }
  assert (claimed_ids sid db (map SqlInsertTag names) = []) as Ec.
  { unfold claimed_ids. rewrite (linked_ids_none _ _ Hl), app_nil_r.
    unfold op_tag_ids. clear. induction names; simpl; trivial. }
  constructor; trivial.
  - now rewrite En.
  - rewrite En. apply incl_refl.
  - intros s t H. apply in_map_iff in H. destruct H as (x & E & _). discriminate.
  - rewrite Ec. constructor.
  - rewrite Ec. intros tid [].
  - intros n Hn. left. now rewrite En.
  - intros n Hn. left. now apply in_map.
  - exists []. rewrite app_nil_r. split; [reflexivity | intros x []].
  - exists []. rewrite app_nil_r. repeat split. constructor.
  - split; reflexivity.
Qed.

Lemma NoDup_app_disjoint {A} (l l' : list A) x :
  NoDup (l ++ l') -> In x l -> ~ In x l'.
Proof.
  induction l as [|a l IH]; simpl; intros D H; [contradiction|].
  inversion D as [|? ? N D']; subst. destruct H as [->|H]; [|now apply IH].
  intros F. apply N. apply in_app_iff. now right.
Qed.

Lemma in_linked_ids sid db tid :
  In tid (linked_ids sid db) <->
  exists l, In l (snippet_tags db) /\ l_snippet_id l = sid /\ l_tag_id l = tid.
Proof.
  unfold linked_ids. rewrite in_map_iff. split.
  - intros (l & E & H). apply filter_In in H. destruct H as [H Es].
    apply Z.eqb_eq in Es. eauto.
  - intros (l & H & Es & E). exists l. split; [exact E|].
    apply filter_In. split; [exact H | now apply Z.eqb_eq].
Qed.

(** What a clean loop with nothing outstanding has done to the tables:
    [tags] has gained one row for each name that was not stored,
    [snippet_tags] one row of the snippet per processed tag, and the
    snippet is linked to the given names and no other. *)
Lemma clean_end sid names db1 db fk processed :
  NoDup names ->
  clean sid names db1 db fk [] processed ->
  (exists added, tags db = tags db1 ++ added /\
     Permutation (map t_name added)
                 (filter (fun n => negb (has_tag_name db1 n)) names)) /\
  (exists added, snippet_tags db = snippet_tags db1 ++ added /\
     Forall (fun l => l_snippet_id l = sid) added /\
     List.length added = processed) /\
  (forall n, is_linked db sid n <-> In n names).
Proof.
  intros Dn K. destruct K as [Kfk Kn Ki Kp Kpn Ks Kc Kcn Kpr Kin Kt Kl Ksn].
  split; [|split; [exact Kl|]].
  - destruct Kt as (added & Ea & Ha). exists added. split; [exact Ea|].
    rewrite Ea, map_app in Kn.
    apply NoDup_Permutation.
    + now apply NoDup_app_remove_l in Kn.
    + now apply NoDup_filter.
    + intros n. rewrite filter_In, negb_true_iff. split.
      * intros H. split; [now apply Ha|].
        destruct (has_tag_name db1 n) eqn:E; [|reflexivity]. exfalso.
        apply has_tag_name_In in E. destruct E as (t & Ht & <-).
        apply (NoDup_app_disjoint _ _ (t_name t) Kn); [now apply in_map | exact H].
      * intros [Hn Hno]. destruct (Kin n Hn) as [[]|R].
        apply has_tag_name_In in R. destruct R as (t & Ht & <-).
        rewrite Ea in Ht. apply in_app_iff in Ht. destruct Ht as [Ht|Ht].
        -- assert (has_tag_name db1 (t_name t) = true)
             by (apply has_tag_name_In; eauto). congruence.
        -- now apply in_map.
  - intros n. split.
    + intros (l & t & Hl & Es & Ht & Et & <-).
      destruct (Kcn (l_tag_id l)) as (t' & Ht' & Et' & Hn & _).
      { unfold claimed_ids. simpl. apply in_linked_ids. eauto. }
      replace t with t'; [exact Hn|].
      apply (NoDup_map_injective t_id (tags db)); congruence.
    + intros Hn. destruct (Kpr n Hn) as [[]|(t & Ht & Et & Hc)].
      unfold claimed_ids in Hc. simpl in Hc. apply in_linked_ids in Hc.
      destruct Hc as (l & Hl & Es & El). exists l, t. auto.
Qed.

(** C2, amended.  On a store whose constraints hold, without store
    failures and under any order of the callbacks, creating a snippet
    whose tag names are pairwise different succeeds: the promise resolves
    with the new id and the data as given (its tag list included), the
    snippet row is stored, [tags] gains one row for each given name that
    was not stored before (two for [x] and [y] when neither was), and
    [snippet_tags] gains one row per given name, linking the snippet to the
    given names and to nothing else. *)
Theorem createSnippet_distinct_tags_succeeds :
  forall sched now db data,
    NoDup (d_tags data) ->
    constraints_hold db ->
    sequence_ahead db ->
    let r := SnippetModel.createSnippet no_faults sched now db data in
    let sid := next_rowid (seq_snippets db) (map s_id (snippets db)) in
    settled r = Resolved {| new_id := sid; new_data := data |} /\
    snippets (file r) =
      snippets db ++ [{| s_id := sid; s_title := d_title data;
                         s_code := d_code data;
                         s_language := language_or_default (d_language data);
                         s_created_at := now |}] /\
    (exists added, tags (file r) = tags db ++ added /\
       Permutation (map t_name added)
                   (filter (fun n => negb (has_tag_name db n)) (d_tags data))) /\
    (exists added, snippet_tags (file r) = snippet_tags db ++ added /\
       Forall (fun l => l_snippet_id l = sid) added /\
       List.length added = List.length (d_tags data)) /\
    (forall n, is_linked (file r) sid n <-> In n (d_tags data)).
Proof.
  intros sched now db data Dn C S r sid.
  assert (Forall (fun l => l_snippet_id l <> sid) (snippet_tags db)) as Fresh.
  { eapply Forall_impl; [|apply (links_below_seq _ S)].
    intros l Hl. pose proof (next_rowid_above (seq_snippets db) (map s_id (snippets db))).
    simpl in Hl. subst sid. lia. }
  set (db1 := fst (insert_snippet db (d_title data) (d_code data)
                     (language_or_default (d_language data)) now)).
  destruct (d_tags data) as [|t ts] eqn:T.
  - (* no tags: committed at once *)
    subst r. unfold SnippetModel.createSnippet. simpl. rewrite T. simpl.
    split; [|split; [reflexivity|split; [|split]]].
    + f_equal. f_equal. destruct data; simpl in *; now subst.
    + exists []. rewrite app_nil_r. split; [reflexivity | constructor].
    + exists []. rewrite app_nil_r. repeat split. constructor.
    + intros n. split; [|intros []].
      intros (l & _ & Hl & Es & _).
      apply (proj1 (Forall_forall _ _) Fresh l Hl Es).
  - (* the tag loop, run to its end *)
    rewrite <- T in *.
    assert (d_tags data <> []) as Hne by congruence.
    subst r. rewrite createSnippet_with_tags by trivial. fold sid db1.
    destruct (tag_loop_finishes no_faults sched db db1 sid data
                [(SqlBegin, None);
                 (SqlInsertSnippet (d_title data) (d_code data)
                    (language_or_default (d_language data)), None)])
      as [J Hp]; [exact no_faults_statement_level | exact Hne | reflexivity |].
    (* nothing fails on the way *)
    assert (clean_state sid (d_tags data) db1
              (forEach_tag (with_db (begin_transaction (createConnection db)) db1)
                 (d_tags data)
                 [(SqlBegin, None);
                  (SqlInsertSnippet (d_title data) (d_code data)
                     (language_or_default (d_language data)), None)])) as K0.
    { split; [reflexivity|]. apply clean_start; trivial;
        [apply (tag_names_unique _ C) | apply (tag_ids_unique _ C)]. }
    apply (run_callbacks_clean sid data db1 sched
             (3 * List.length (d_tags data)) 0) in K0.
    cbv zeta in J, Hp.
    set (st := run_callbacks _ _ _ _ _ _ _) in *.
    destruct K0 as [He K]. rewrite Hp in K.
    destruct J as [Js Jl Jr].
    unfold finished. cbn [file settled].
    destruct (result st) as [c|e| |].
    + destruct Jr as (_ & _ & -> & Hcount & [[_ Hsaved]|(e & k & Hk & _)]);
        [|discriminate Hk].
      unfold close. rewrite Hsaved.
      destruct (clean_end sid (d_tags data) db1 (c_db (conn st)) _ _ Dn K)
        as (Ht & Hl & Hlinked).
      split; [reflexivity|].
      split; [apply (proj1 (k_snippets _ _ _ _ _ _ _ K))|].
      split; [exact Ht|]. split; [|exact Hlinked].
      destruct Hl as (added & Ea & Fa & La). exists added.
      repeat split; trivial. now rewrite La.
    + exfalso. destruct Jr as (_ & _ & _ & Hf). rewrite He in Hf. discriminate.
    + contradiction.
    + destruct Jr as (_ & _ & _ & Hne'). contradiction.
Qed.

(** C2 as stated fails: with the tag list [x; x; y] the second link of [x]
    violates the primary key of [snippet_tags]; the promise is rejected
    with that error and the transaction rolled back, so no record is
    returned and [tags] gains no row. *)
Lemma duplicate_tag_names_are_rejected :
  let r := SnippetModel.createSnippet no_faults fifo 100 empty_database
             (tagged ["x"; "x"; "y"]) in
  settled r = Rejected ConstraintPrimaryKey /\
  file r = empty_database /\
  trace r =
    [(SqlBegin, None); (SqlInsertSnippet "t" "c" "javascript", None);
     (SqlInsertTag "x", None); (SqlInsertTag "x", None); (SqlInsertTag "y", None);
     (SqlSelectTag "x", None); (SqlSelectTag "x", None); (SqlSelectTag "y", None);
     (SqlLink 1 1, None); (SqlLink 1 1, Some ConstraintPrimaryKey);
     (SqlLink 1 3, None); (SqlRollback, None)].
Proof. vm_compute. repeat split. Qed.

(** ** Duplicate tag names under every order of the callbacks *)

Lemma step_choice_mod fault sid data choice st :
  step fault sid data choice st =
  step fault sid data (choice mod List.length (pending st)) st.
Proof.
  unfold step, pick.
  destruct (pending st) as [|s l] eqn:E; [reflexivity|].
  rewrite Nat.Div0.mod_mod. reflexivity.
Qed.

Lemma run_callbacks_idle fault sid data sched fuel :
  forall step_no st,
    pending st = [] -> run_callbacks fault sid data sched fuel step_no st = st.
Proof.
  induction fuel as [|fuel IH]; intros step_no st H; simpl; [reflexivity|].
  rewrite step_idle by exact H. now apply IH.
Qed.

Lemma all_runs_busy fault sid data fuel st :
  pending st <> [] ->
  all_runs fault sid data (S fuel) st =
  flat_map (fun i => all_runs fault sid data fuel (step fault sid data i st))
           (seq 0 (List.length (pending st))).
Proof. simpl. destruct (pending st); [congruence | reflexivity]. Qed.

Lemma all_runs_idle fault sid data fuel st :
  pending st = [] -> all_runs fault sid data fuel st = [st].
Proof. intros H. destruct fuel; simpl; [reflexivity | now rewrite H]. Qed.

(** Whatever the schedule, the run is one of the enumerated runs. *)
Lemma run_callbacks_in_all_runs fault sid data sched fuel :
  forall step_no st,
    In (run_callbacks fault sid data sched fuel step_no st)
       (all_runs fault sid data fuel st).
Proof.
  induction fuel as [|fuel IH]; intros step_no st; [now left|].
  assert (pending st = [] \/ pending st <> []) as [E|N]
    by (destruct (pending st); [left | right]; congruence).
  - rewrite run_callbacks_idle, all_runs_idle by exact E. now left.
  - rewrite all_runs_busy by exact N. cbn [run_callbacks].
    apply in_flat_map.
    exists (sched step_no mod List.length (pending st))%nat. split.
    + apply in_seq. split; [lia|]. simpl.
      apply Nat.mod_upper_bound. intros Z. now apply length_zero_iff_nil in Z.
    + rewrite <- step_choice_mod. apply IH.
Qed.

Lemma all_runs_of_duplicates now :
  forallb rejected_on_empty
    (all_runs no_faults 1 (tagged ["x"; "x"; "y"]) 9
       (forEach_tag
          (with_db (begin_transaction (createConnection empty_database))
             (fst (insert_snippet empty_database "t" "c" "javascript" now)))
          ["x"; "x"; "y"]
          [(SqlBegin, None); (SqlInsertSnippet "t" "c" "javascript", None)]))
  = true.
Proof. vm_compute. reflexivity. Qed.

(** In whatever order the driver finishes the statements, creating a
    snippet with the tag list [x; x; y] on the empty database is rejected
    with the primary-key violation and leaves the database empty. *)
Lemma any_order_rejects_duplicate_tag_names sched now :
  let r := SnippetModel.createSnippet no_faults sched now empty_database
             (tagged ["x"; "x"; "y"]) in
  settled r = Rejected ConstraintPrimaryKey /\ file r = empty_database.
Proof.
  pose proof (all_runs_of_duplicates now) as A.
  rewrite forallb_forall in A.
  specialize (A _ (run_callbacks_in_all_runs no_faults 1 (tagged ["x"; "x"; "y"])
                     sched 9 0 _)).
  match type of A with
  | rejected_on_empty ?st = true =>
      change (SnippetModel.createSnippet no_faults sched now empty_database
                (tagged ["x"; "x"; "y"])) with (finished st);
      generalize dependent st
  end.
  intros final A. unfold finished. cbn [file settled].
  unfold rejected_on_empty in A.
  destruct (result final) as [?|[| | | |]| |]; try discriminate.
  destruct (close (conn final)) as [[|] [|] [|] [| |] [| |]]; try discriminate.
  split; reflexivity.
Qed.

(** ** The schema constraints are invariants of the model *)

Lemma empty_database_ok : store_ok empty_database.
Proof. split; constructor; simpl; constructor. Qed.

Lemma insert_snippet_ok db t c l now :
  store_ok db -> store_ok (fst (insert_snippet db t c l now)).
Proof.
  intros [[Ds Dt Dn Dl] [Ss Sl St]]. unfold insert_snippet. simpl.
  pose proof (next_rowid_above (seq_snippets db) (map s_id (snippets db))) as A.
  split; constructor; simpl; trivial.
  - rewrite map_app. simpl. apply NoDup_snoc; [exact Ds | apply next_rowid_fresh].
  - apply Forall_app. split.
    + eapply Forall_impl; [|exact Ss]. simpl. intros; lia.
    + repeat constructor. simpl. lia.
  - eapply Forall_impl; [|exact Sl]. simpl. intros; lia.
Qed.

Lemma insert_or_ignore_tag_ok db name :
  store_ok db -> store_ok (insert_or_ignore_tag db name).
Proof.
  intros [C S].
  pose proof (insert_or_ignore_tag_names_unique db name (tag_names_unique _ C)) as Hn.
  pose proof (insert_or_ignore_tag_ids_unique db name (tag_ids_unique _ C)) as Hi.
  destruct C as [Ds Dt Dn Dl]. destruct S as [Ss Sl St].
  pose proof (next_rowid_above (seq_tags db) (map t_id (tags db))) as A.
  split; constructor; trivial.
  unfold insert_or_ignore_tag. cbn [tags seq_tags].
  destruct (has_tag_name db name).
  - eapply Forall_impl; [|exact St]. simpl. intros; lia.
  - apply Forall_app. split.
    + eapply Forall_impl; [|exact St]. simpl. intros; lia.
    + repeat constructor. simpl. lia.
Qed.

Lemma has_link_false db l : has_link db l = false -> ~ In l (snippet_tags db).
Proof.
  unfold has_link. intros H I.
  assert (existsb (link_eqb l) (snippet_tags db) = true) as F; [|congruence].
  apply existsb_exists. exists l. split; [exact I|].
  unfold link_eqb. now rewrite !Z.eqb_refl.
Qed.

Lemma insert_snippet_tag_ok c s t c' :
  store_ok (c_db c) ->
  s <= seq_snippets (c_db c) ->
  insert_snippet_tag c s t = inr c' ->
  store_ok (c_db c') /\ seq_snippets (c_db c') = seq_snippets (c_db c).
Proof.
  intros [[Ds Dt Dn Dl] [Ss Sl St]] Hs. unfold insert_snippet_tag.
  destruct (has_link _ _) eqn:HL; [discriminate|].
  destruct (_ && _); [discriminate|]. intros E. injection E as <-. simpl.
  split; [|reflexivity]. split; constructor; simpl; trivial.
  - apply NoDup_snoc; [exact Dl | now apply has_link_false].
  - apply Forall_app. split; [exact Sl | repeat constructor; exact Hs].
Qed.

Lemma Forall_filter_keep {A} (P : A -> Prop) (f : A -> bool) l :
  Forall P l -> Forall P (filter f l).
Proof.
  intros H. apply Forall_forall. intros x Hx. apply filter_In in Hx.
  now apply (proj1 (Forall_forall _ _) H).
Qed.

Lemma delete_snippet_ok real c v :
  store_ok (c_db c) -> store_ok (c_db (fst (delete_snippet real c v))).
Proof.
  intros [[Ds Dt Dn Dl] [Ss Sl St]]. unfold delete_snippet. simpl.
  split; constructor; simpl; trivial.
  - now apply NoDup_map_filter.
  - destruct (c_foreign_keys c); [now apply NoDup_filter | exact Dl].
  - now apply Forall_filter_keep.
  - destruct (c_foreign_keys c); [now apply Forall_filter_keep | exact Sl].
Qed.

Lemma checkCompletion_store_ok fault sid data db0 st :
  store_ok db0 ->
  c_saved (conn st) = Some db0 ->
  loop_store_ok sid st ->
  loop_store_ok sid (checkCompletion fault sid data st).
Proof.
  intros H0 Hc (Hok & Hseq & Hl). unfold checkCompletion.
  destruct (_ =? _)%nat; [|split; [|split]; assumption].
  unfold run_rollback, run_commit. rewrite Hc.
  destruct (tagErrors st).
  - destruct (fault _ SqlCommit) as [e|];
      (split; [|split]); cbn [conn result pending fst]; trivial; try discriminate.
    unfold fail_statement. destruct (ends_transaction e); [|exact Hok].
    unfold rollback. now rewrite Hc.
  - (split; [|split]); cbn [conn result pending fst]; trivial; try discriminate.
    unfold rollback. now rewrite Hc.
Qed.

Lemma pending_means_transaction_open fault sid data db0 st stmt rest :
  loop_invariant fault sid data db0 st ->
  Permutation (pending st) (stmt :: rest) ->
  result st = Pending /\ c_saved (conn st) = Some db0.
Proof.
  intros [_ _ Hr] P. destruct (result st).
  - destruct Hr as [Hr _]. rewrite Hr in P. now apply Permutation_nil in P.
  - destruct Hr as [Hr _]. rewrite Hr in P. now apply Permutation_nil in P.
  - contradiction.
  - destruct Hr as (_ & Hc & _). now split.
Qed.

(** On a store whose failures leave the transaction open, every callback
    keeps the constraints and the sequence ahead. *)
Lemma step_store_ok fault sid data db0 choice st :
  statement_level fault ->
  store_ok db0 ->
  loop_invariant fault sid data db0 st ->
  loop_store_ok sid st ->
  loop_store_ok sid (step fault sid data choice st).
Proof.
  intros Q H0 I G. step_cases Hpick Hfault; [| |exact G].
  all: pose proof (pick_perm _ _ _ _ Hpick) as P.
  all: destruct G as (Hok & Hseq & Hl).
  all: assert (forall s t, In (SqlLink s t) (stmt :: rest) -> s = sid) as Hl'
        by (intros s t Hin; apply (Hl s t);
            eapply Permutation_in; [symmetry; exact P | exact Hin]).
  all: destruct (pending_means_transaction_open _ _ _ _ _ _ _ I P) as [R Hc].
  all: assert (forall s t, In (SqlLink s t) rest -> s = sid) as Hrest
        by (intros s t Hin; apply (Hl' s t); now right).
  - unfold tag_failed. rewrite (fail_statement_kept _ _ (Q _ _ _ Hfault)).
    apply (checkCompletion_store_ok fault sid data db0); simpl; trivial.
    split; [|split]; simpl; trivial.
  - destruct stmt; try (split; [|split]; assumption).
    + split; [|split]; simpl.
      * now apply insert_or_ignore_tag_ok.
      * intros _. now apply Hseq.
      * intros s t Hin. apply in_app_iff in Hin. destruct Hin as [Hin|[E|[]]];
          [now apply (Hrest s t) | discriminate].
    + destruct (select_tag_id _ _) as [tag_id|]; (split; [|split]); simpl;
        trivial; try discriminate.
      * intros s t Hin. apply in_app_iff in Hin. destruct Hin as [Hin|[E|[]]];
          [now apply (Hrest s t) | now injection E].
      * intros s t [].
    + assert (snippet_id = sid) as -> by (apply (Hl' _ tag_id); now left).
      destruct (insert_snippet_tag _ _ _) as [err|c'] eqn:L.
      * unfold tag_failed.
        rewrite (fail_statement_kept _ _ (insert_snippet_tag_error _ _ _ _ L)).
        apply (checkCompletion_store_ok fault sid data db0); simpl; trivial.
        split; [|split]; simpl; trivial.
      * assert (sid <= seq_snippets (c_db (conn st))) as Hle
          by (rewrite (Hseq R); lia).
        destruct (insert_snippet_tag_ok _ _ _ _ Hok Hle L) as [Hok' Hseq'].
        destruct (insert_snippet_tag_saved _ _ _ _ L) as [Sv _].
        apply (checkCompletion_store_ok fault sid data db0); simpl; trivial.
        -- now rewrite Sv.
        -- split; [|split]; simpl; trivial.
           intros _. rewrite Hseq'. now apply Hseq.
Qed.

Lemma run_callbacks_store_ok fault sid data db0 sched fuel :
  statement_level fault ->
  store_ok db0 ->
  forall step_no st,
    loop_invariant fault sid data db0 st ->
    loop_store_ok sid st ->
    loop_store_ok sid (run_callbacks fault sid data sched fuel step_no st).
Proof.
  intros Q H0. induction fuel as [|fuel IH]; intros step_no st I G; simpl; [exact G|].
  apply IH; [now apply step_invariant | now apply step_store_ok with (db0 := db0)].
Qed.

(** The state the tag loop starts from. *)
Lemma forEach_tag_invariant fault sid data db db1 so_far :
  d_tags data <> [] ->
  failures so_far = [] ->
  loop_invariant fault sid data db
    (forEach_tag (with_db (begin_transaction (createConnection db)) db1)
                 (d_tags data) so_far).
Proof.
  intros Hne Hlog. constructor; simpl.
  - apply Forall_map, Forall_forall. reflexivity.
  - intros name H. apply in_map_iff in H. destruct H as (x & E & _). discriminate.
  - repeat split.
    + now rewrite Hlog.
    + now rewrite length_map.
    + destruct (d_tags data); [congruence | discriminate].
Qed.

(** On a store whose failures leave the transaction open, [createSnippet]
    keeps the constraints and the sequence ahead, whatever else happens in
    it. *)
Lemma createSnippet_keeps_store_ok fault sched now db data :
  statement_level fault ->
  store_ok db ->
  store_ok (file (SnippetModel.createSnippet fault sched now db data)).
Proof.
  intros Q H0.
  pose proof (insert_snippet_ok db (d_title data) (d_code data)
                (language_or_default (d_language data)) now H0) as H1.
  destruct (fault 1%nat (SqlInsertSnippet (d_title data) (d_code data)
                           (language_or_default (d_language data)))) as [err|] eqn:F.
  { destruct (createSnippet_insert_fails fault sched now db data err F) as (_ & _ & ->).
    exact H0. }
  destruct (d_tags data) as [|t ts] eqn:T.
  { unfold SnippetModel.createSnippet. rewrite F, T.
    cbn [insert_snippet]. unfold run_commit.
    cbn [with_db begin_transaction createConnection open c_saved].
    destruct (fault 2%nat SqlCommit) as [ce|] eqn:Fc.
    - rewrite (fail_statement_kept _ _ (Q _ _ _ Fc)). exact H0.
    - exact H1. }
  assert (d_tags data <> []) as Hne by congruence.
  rewrite createSnippet_with_tags by trivial.
  set (sid := next_rowid (seq_snippets db) (map s_id (snippets db))).
  set (db1 := fst (insert_snippet db (d_title data) (d_code data)
                     (language_or_default (d_language data)) now)) in *.
  set (start := forEach_tag _ _ _).
  assert (loop_invariant fault sid data db start) as J0
    by (apply forEach_tag_invariant; [exact Hne | reflexivity]).
  assert (loop_store_ok sid start) as G0.
  { split; [exact H1|]. split; simpl; [reflexivity|].
    intros s t' H. apply in_map_iff in H. destruct H as (x & E & _). discriminate. }
  pose proof (run_callbacks_store_ok fault sid data db sched
                (3 * List.length (d_tags data)) Q H0 0 start J0 G0) as [Hok _].
  pose proof (run_callbacks_invariant fault sid data db sched
                (3 * List.length (d_tags data)) Q 0 start J0) as J.
  pose proof (run_callbacks_finishes fault sid data sched
                (with_db (begin_transaction (createConnection db)) db1)
                (d_tags data)
                [(SqlBegin, None);
                 (SqlInsertSnippet (d_title data) (d_code data)
                    (language_or_default (d_language data)), None)]) as Hp.
  fold start in Hp.
  unfold finished. cbn [file].
  destruct J as [_ _ Jr].
  destruct (result _) as [c|e| |].
  - destruct Jr as (_ & _ & _ & _ & [[_ Hsaved]|(e & k & _ & _ & _ & Hclose)]).
    + unfold close. now rewrite Hsaved.
    + now rewrite Hclose.
  - destruct Jr as (_ & Hclose & _). now rewrite Hclose.
  - contradiction.
  - destruct Jr as (_ & _ & _ & Hn). contradiction.
Qed.

Lemma deleteSnippet_keeps_store_ok real fault db id :
  store_ok db -> store_ok (file (SnippetModel.deleteSnippet real fault db id)).
Proof.
  intros H0. unfold SnippetModel.deleteSnippet.
  destruct (fault 0%nat _); [exact H0|]. simpl.
  exact (delete_snippet_ok real (createConnection db) id H0).
Qed.

(** On every store produced out of the empty database while no failure
    ended a transaction, the constraints of the schema hold and
    [sqlite_sequence] is ahead of the rowids in use. *)
Lemma undisturbed_store_ok db : undisturbed db -> store_ok db.
Proof.
  induction 1 as [|fault sched now db data Q _ IH|real fault db id _ IH].
  - apply empty_database_ok.
  - now apply createSnippet_keeps_store_ok.
  - now apply deleteSnippet_keeps_store_ok.
Qed.

Lemma undisturbed_reachable db : undisturbed db -> reachable db.
Proof.
  induction 1; [constructor | now constructor | now constructor].
Qed.

(** ** What holds whatever fails *)

Lemma next_rowid_positive seq ids : 0 < next_rowid seq ids.
Proof.
  unfold next_rowid. assert (0 <= max_id ids); [|lia].
  induction ids as [|i ids IH]; simpl; lia.
Qed.

Lemma rows_ok_empty : rows_ok empty_database.
Proof. constructor; [constructor|..]; simpl; constructor. Qed.

Lemma insert_snippet_rows_ok db t c l now :
  rows_ok db -> rows_ok (fst (insert_snippet db t c l now)).
Proof.
  intros [[Ds Dt Dn Dl] Ss St]. unfold insert_snippet. simpl.
  pose proof (next_rowid_above (seq_snippets db) (map s_id (snippets db))) as A.
  pose proof (next_rowid_positive (seq_snippets db) (map s_id (snippets db))) as B.
  constructor; [constructor|..]; simpl; trivial.
  - rewrite map_app. simpl. apply NoDup_snoc; [exact Ds | apply next_rowid_fresh].
  - apply Forall_app. split.
    + eapply Forall_impl; [|exact Ss]. simpl. intros; lia.
    + constructor; [|constructor]. simpl. lia.
Qed.

Lemma insert_or_ignore_tag_rows_ok db name :
  rows_ok db -> rows_ok (insert_or_ignore_tag db name).
Proof.
  intros [C Ss St].
  pose proof (insert_or_ignore_tag_names_unique db name (tag_names_unique _ C)) as Hn.
  pose proof (insert_or_ignore_tag_ids_unique db name (tag_ids_unique _ C)) as Hi.
  destruct C as [Ds Dt Dn Dl].
  pose proof (next_rowid_above (seq_tags db) (map t_id (tags db))) as A.
  pose proof (next_rowid_positive (seq_tags db) (map t_id (tags db))) as B.
  constructor; [constructor|..]; trivial.
  unfold insert_or_ignore_tag. cbn [tags seq_tags].
  destruct (has_tag_name db name).
  - eapply Forall_impl; [|exact St]. simpl. intros; lia.
  - apply Forall_app. split.
    + eapply Forall_impl; [|exact St]. simpl. intros; lia.
    + constructor; [|constructor]. simpl. lia.
Qed.

Lemma insert_snippet_tag_rows_ok c s t c' :
  conn_rows_ok c ->
  insert_snippet_tag c s t = inr c' ->
  conn_rows_ok c'.
Proof.
  intros [[[Ds Dt Dn Dl] Ss St] Hsaved]. unfold insert_snippet_tag.
  destruct (has_link _ _) eqn:HL; [discriminate|].
  destruct (_ && _); [discriminate|]. intros E. injection E as <-.
  split; [|exact Hsaved].
  constructor; [constructor|..]; simpl; trivial.
  apply NoDup_snoc; [exact Dl | now apply has_link_false].
Qed.

Lemma delete_snippet_rows_ok real c v :
  rows_ok (c_db c) -> rows_ok (c_db (fst (delete_snippet real c v))).
Proof.
  intros [[Ds Dt Dn Dl] Ss St]. unfold delete_snippet. simpl.
  constructor; [constructor|..]; simpl; trivial.
  - now apply NoDup_map_filter.
  - destruct (c_foreign_keys c); [now apply NoDup_filter | exact Dl].
  - now apply Forall_filter_keep.
Qed.

Lemma rollback_rows_ok c : conn_rows_ok c -> conn_rows_ok (rollback c).
Proof.
  intros [H Hs]. unfold rollback.
  destruct (c_saved c) as [d|] eqn:E; [|split; [exact H | now rewrite E]].
  split; simpl; [now apply Hs | discriminate].
Qed.

Lemma fail_statement_rows_ok c e : conn_rows_ok c -> conn_rows_ok (fail_statement c e).
Proof.
  intros H. unfold fail_statement.
  destruct (ends_transaction e); [now apply rollback_rows_ok | exact H].
Qed.

Lemma run_rollback_rows_ok c : conn_rows_ok c -> conn_rows_ok (fst (run_rollback c)).
Proof.
  intros H. pose proof (rollback_rows_ok c H) as R.
  unfold run_rollback. destruct (c_saved c); [exact R | exact H].
Qed.

Lemma run_commit_rows_ok fault k c : conn_rows_ok c -> conn_rows_ok (fst (run_commit fault k c)).
Proof.
  intros H. unfold run_commit. destruct (c_saved c) eqn:E; [|exact H].
  destruct (fault k SqlCommit); cbn [fst]; [now apply fail_statement_rows_ok|].
  destruct H as [H _]. split; simpl; [exact H | discriminate].
Qed.

Lemma close_rows_ok c : conn_rows_ok c -> rows_ok (close c).
Proof.
  intros [H Hs]. unfold close. destruct (c_saved c); [now apply Hs | exact H].
Qed.

Lemma checkCompletion_rows_ok fault sid data st :
  conn_rows_ok (conn st) -> conn_rows_ok (conn (checkCompletion fault sid data st)).
Proof.
  intros H. unfold checkCompletion.
  destruct (_ =? _)%nat; [|exact H].
  destruct (tagErrors st); cbn [conn];
    [now apply run_commit_rows_ok | now apply run_rollback_rows_ok].
Qed.

(** Every callback keeps the tables sound, whatever fails and whether or
    not the transaction is still open. *)
Lemma step_rows_ok fault sid data choice st :
  conn_rows_ok (conn st) -> conn_rows_ok (conn (step fault sid data choice st)).
Proof.
  intros H. step_cases Hpick Hfault; [| |exact H].
  - unfold tag_failed. apply checkCompletion_rows_ok. cbn [conn].
    now apply fail_statement_rows_ok.
  - destruct stmt; try exact H.
    + cbn [conn]. destruct H as [H Hsaved]. split; [|exact Hsaved].
      now apply insert_or_ignore_tag_rows_ok.
    + destruct (select_tag_id _ _); exact H.
    + destruct (insert_snippet_tag _ _ _) as [err|c'] eqn:L.
      * unfold tag_failed. apply checkCompletion_rows_ok. cbn [conn].
        now apply fail_statement_rows_ok.
      * apply checkCompletion_rows_ok. cbn [conn].
        now apply (insert_snippet_tag_rows_ok _ _ _ _ H L).
Qed.

Lemma run_callbacks_rows_ok fault sid data sched fuel :
  forall step_no st,
    conn_rows_ok (conn st) ->
    conn_rows_ok (conn (run_callbacks fault sid data sched fuel step_no st)).
Proof.
  induction fuel as [|fuel IH]; intros step_no st H; simpl; [exact H|].
  apply IH. now apply step_rows_ok.
Qed.

(** [createSnippet] keeps the tables sound, whatever happens in it. *)
Lemma createSnippet_keeps_rows_ok fault sched now db data :
  rows_ok db ->
  rows_ok (file (SnippetModel.createSnippet fault sched now db data)).
Proof.
  intros H0.
  pose proof (insert_snippet_rows_ok db (d_title data) (d_code data)
                (language_or_default (d_language data)) now H0) as H1.
  assert (conn_rows_ok
            (with_db (begin_transaction (createConnection db))
               (fst (insert_snippet db (d_title data) (d_code data)
                       (language_or_default (d_language data)) now)))) as C1.
  { split; [exact H1|]. simpl. intros d E. injection E as <-. exact H0. }
  destruct (fault 1%nat (SqlInsertSnippet (d_title data) (d_code data)
                           (language_or_default (d_language data)))) as [err|] eqn:F.
  { destruct (createSnippet_insert_fails fault sched now db data err F) as (_ & _ & ->).
    exact H0. }
  destruct (d_tags data) as [|t ts] eqn:T.
  { unfold SnippetModel.createSnippet. rewrite F, T.
    cbn [insert_snippet file]. apply close_rows_ok, run_commit_rows_ok. exact C1. }
  rewrite createSnippet_with_tags by (trivial; congruence).
  unfold finished. cbn [file]. apply close_rows_ok, run_callbacks_rows_ok. exact C1.
Qed.

Lemma deleteSnippet_keeps_rows_ok real fault db id :
  rows_ok db -> rows_ok (file (SnippetModel.deleteSnippet real fault db id)).
Proof.
  intros H0. unfold SnippetModel.deleteSnippet.
  destruct (fault 0%nat _); [exact H0|]. simpl.
  exact (delete_snippet_rows_ok real (createConnection db) id H0).
Qed.

(** On every store the model can produce out of the empty database,
    whatever failed on the way, the constraints of the schema hold and the
    rowids of snippets and tags lie between 1 and their entries in
    [sqlite_sequence]. *)
Lemma reachable_rows_ok db : reachable db -> rows_ok db.
Proof.
  induction 1 as [|fault sched now db data _ IH|real fault db id _ IH].
  - apply rows_ok_empty.
  - now apply createSnippet_keeps_rows_ok.
  - now apply deleteSnippet_keeps_rows_ok.
Qed.

(** ** The theorems at concrete inputs *)

Ltac concrete_nodup :=
  repeat constructor; simpl; intuition (try discriminate; try lia).

Lemma sample_db_constraints : constraints_hold sample_db.
Proof. rewrite sample_db_rows. constructor; concrete_nodup. Qed.

Lemma sample_db_sequence : sequence_ahead sample_db.
Proof. rewrite sample_db_rows. constructor; simpl; repeat constructor; simpl; lia. Qed.

Lemma createSnippet_distinct_tags_succeeds_witness :
  NoDup (d_tags (tagged ["x"; "y"])) /\
  constraints_hold sample_db /\
  sequence_ahead sample_db /\
  let r := SnippetModel.createSnippet no_faults fifo 200 sample_db (tagged ["x"; "y"]) in
  settled r = Resolved {| new_id := 2; new_data := tagged ["x"; "y"] |} /\
  (exists added, tags (file r) = tags sample_db ++ added /\
     Permutation (map t_name added) ["x"; "y"]) /\
  (forall n, is_linked (file r) 2 n <-> In n ["x"; "y"]).
Proof.
  assert (NoDup (d_tags (tagged ["x"; "y"]))) as D by concrete_nodup.
  split; [exact D|]. split; [exact sample_db_constraints|].
  split; [exact sample_db_sequence|].
  destruct (createSnippet_distinct_tags_succeeds fifo 200 sample_db (tagged ["x"; "y"])
              D sample_db_constraints sample_db_sequence)
    as (H1 & _ & H3 & _ & H5).
  split; [exact H1|]. split; [exact H3 | exact H5].
Defined.

Lemma sample_db_nul_free : texts_nul_free sample_db.
Proof.
  rewrite sample_db_rows. split.
  - intros s [<-|[]]. repeat split.
  - intros t [<-|[<-|[]]]; reflexivity.
Qed.

Lemma search_lists_exactly_the_matches_witness :
  "map" <> EmptyString /\ wildcard_free "map" = true /\ nul_free "map" = true /\
  texts_nul_free sample_db /\
  (forall row, In row (snippets sample_db) -> matches_search sample_db "map" row ->
     exists s, In s (listed no_faults sample_db "map") /\ id s = s_id row).
Proof.
  assert ("map" <> EmptyString) as N by discriminate.
  split; [exact N|]. split; [reflexivity|]. split; [reflexivity|].
  split; [exact sample_db_nul_free|].
  exact (proj1 (proj2 (search_lists_exactly_the_matches sample_db "map" N
                         eq_refl eq_refl sample_db_nul_free))).
Defined.

Lemma create_without_title_or_code_is_rejected_witness :
  let body := {| b_title := None; b_code := Some "c";
                 b_language := None; b_tags := Some ["x"] |} in
  (absent (b_title body) \/ absent (b_code body)) /\
  SnippetController.createSnippet no_faults fifo 200 sample_db body =
  {| h_file := sample_db;
     h_response := Json 400 false "Title and code are required" None;
     h_trace := [] |}.
Proof.
  assert (absent (@None string) \/ absent (Some "c")) as H by (left; now left).
  split; [exact H|].
  exact (create_without_title_or_code_is_rejected no_faults fifo 200 sample_db
           {| b_title := None; b_code := Some "c";
              b_language := None; b_tags := Some ["x"] |} H).
Defined.

Lemma sample_db_plain_names :
  forall t, In t (tags sample_db) -> plain_name (t_name t).
Proof.
  intros t [<-|[<-|[]]]; split; simpl; (discriminate || reflexivity).
Qed.

Lemma unfiltered_listing_is_complete_and_ordered_witness :
  constraints_hold sample_db /\
  (forall t, In t (tags sample_db) -> plain_name (t_name t)) /\
  Permutation (map id (listed no_faults sample_db EmptyString))
              (map s_id (snippets sample_db)) /\
  StronglySorted Z.ge (map created_at (listed no_faults sample_db EmptyString)) /\
  (forall s, In s (listed no_faults sample_db EmptyString) ->
     NoDup (tag_names s) /\
     forall n, In n (tag_names s) <-> is_linked sample_db (id s) n).
Proof.
  split; [exact sample_db_constraints|]. split; [exact sample_db_plain_names|].
  destruct (unfiltered_listing_is_complete_and_ordered sample_db
              sample_db_constraints sample_db_plain_names) as (H1 & _ & H3 & H4).
  split; [exact H1|]. split; [exact H3 | exact H4].
Defined.


Lemma unlinked_snippet_has_empty_tags_witness :
  let row := {| s_id := 1; s_title := "t"; s_code := "c";
                s_language := "javascript"; s_created_at := 100 |} in
  In row (snippets untagged_db) /\
  (forall l, In l (snippet_tags untagged_db) -> l_snippet_id l <> s_id row) /\
  (forall s, In s (listed no_faults untagged_db "t") -> id s = s_id row ->
             tag_names s = []) /\
  (exists s, In s (listed no_faults untagged_db EmptyString) /\ id s = s_id row /\
             tag_names s = []).
Proof.
  assert (In {| s_id := 1; s_title := "t"; s_code := "c";
                s_language := "javascript"; s_created_at := 100 |}
             (snippets untagged_db)) as H1 by (left; reflexivity).
  assert (forall l, In l (snippet_tags untagged_db) -> l_snippet_id l <> 1) as H2
    by (intros l []).
  split; [exact H1|]. split; [exact H2|].
  exact (unlinked_snippet_has_empty_tags untagged_db "t" _ H1 H2).
Defined.

(** ** Checks of the built-ins *)

Example isNaN_examples :
  Js.isNaN "abc" = true /\ Js.isNaN "12abc" = true /\ Js.isNaN "1e" = true /\
  Js.isNaN "." = true /\ Js.isNaN "+-1" = true /\ Js.isNaN "0x" = true /\
  Js.isNaN "42" = false /\ Js.isNaN "-5" = false /\ Js.isNaN "0" = false /\
  Js.isNaN " 1.5e3 " = false /\ Js.isNaN "0x1F" = false /\ Js.isNaN ".5" = false /\
  Js.isNaN "5." = false /\ Js.isNaN "-Infinity" = false /\ Js.isNaN "" = false.
Proof. repeat split. Qed.

Example text_as_integer_examples :
  forall real,
  text_as_integer real "7" = Some 7 /\ text_as_integer real " 7 " = Some 7 /\
  text_as_integer real "-3" = Some (-3) /\ text_as_integer real "+3" = Some 3 /\
  text_as_integer real "1.0" = real "1.0" /\
  text_as_integer real " 10e-1 " = real "10e-1" /\
  text_as_integer real "0x10" = None /\ text_as_integer real "abc" = None /\
  text_as_integer real "1e" = None /\ text_as_integer real "" = None.
Proof. intros real. repeat split. Qed.

Example no_rounding_examples :
  no_rounding "1.0" = Some 1 /\ no_rounding "10e-1" = Some 1 /\ no_rounding "1.5" = None /\
  no_rounding ".5e1" = Some 5 /\ no_rounding "0.99999999999999999999999" = None.
Proof. repeat split. Qed.

Example split_examples :
  Js.split "," "a,b,,c" = ["a"; "b"; ""; "c"] /\
  Js.split "," "" = [""] /\
  Js.split "," "array" = ["array"].
Proof. repeat split. Qed.

Example like_examples :
  like "%map%" "Array Map Example" = true /\
  like "%MAP%" "Array Map Example" = true /\
  like "%a_r%" "Array" = true /\
  like "%a_r%" "ar" = false /\
  like "%%%" "" = true /\
  like "%x%" "Array" = false.
Proof. repeat split. Qed.

(** Pattern and text end at a NUL character: the pattern made for a
    search for NUL is [%], which every text matches, and [b] is not found
    behind the NUL of [a NUL b]. *)
Example like_stops_at_nul :
  let nul := String zero EmptyString in
  like ("%" ++ nul ++ "%") "Array" = true /\
  like "%b%" ("a" ++ nul ++ "b") = false /\
  like "%a%" ("a" ++ nul ++ "b") = true.
Proof. repeat split. Qed.

(** [initializeDatabase] leaves the file as it is: its pragma goes away
    with its connection, and every later connection starts with foreign
    keys off. *)
Lemma initializeDatabase_leaves_no_pragma db :
  initializeDatabase db = db /\
  c_foreign_keys (createConnection (initializeDatabase db)) = false.
Proof. split; reflexivity. Qed.

(** * Further properties *)

(** ** Listings, snippet by snippet *)

Lemma filter_map_swap {A B} (f : A -> B) (p : B -> bool) l :
  filter p (map f l) = map f (filter (fun x => p (f x)) l).
Proof.
  induction l as [|a l IH]; simpl; [reflexivity|].
  destruct (p (f a)); simpl; now rewrite IH.
Qed.

Lemma filter_filter_swap {A} (p q : A -> bool) l :
  filter p (filter q l) = filter q (filter p l).
Proof.
  induction l as [|a l IH]; simpl; [reflexivity|].
  destruct (p a) eqn:P, (q a) eqn:Q; simpl; rewrite ?P, ?Q, IH; reflexivity.
Qed.

(** With unique snippet ids, the rows of a stored snippet that pass the
    filter are its joined rows that pass it. *)
Lemma kept_rows_of db q row :
  NoDup (map s_id (snippets db)) ->
  In row (snippets db) ->
  map j_tag_name (filter (fun r => row_id r =? s_id row) (kept_rows db q)) =
  passing_names db q row.
Proof.
  intros D H. unfold kept_rows, passing_names.
  destruct (search_pattern q) as [p|].
  - rewrite filter_filter_swap, from_clause_rows_of by assumption.
    rewrite filter_map_swap, map_map. simpl. apply map_id.
  - rewrite from_clause_rows_of by assumption.
    rewrite map_map. simpl. apply map_id.
Qed.

(** The groups of a listing, with unique snippet ids: one for each stored
    snippet that has a passing row, holding the names of its passing rows. *)
Lemma in_groups_iff db q g :
  NoDup (map s_id (snippets db)) ->
  In g (group_by_id (kept_rows db q)) <->
  In (fst g) (snippets db) /\ snd g <> [] /\ snd g = passing_names db q (fst g).
Proof.
  intros D.
  assert (forall g, In g (group_by_id (kept_rows db q)) ->
            In (fst g) (snippets db) /\ snd g <> [] /\
            snd g = passing_names db q (fst g)) as Fwd.
  { intros g0 Hg. apply group_by_id_spec in Hg. destruct Hg as (Hn & r & Hr & E).
    assert (In (fst g0) (snippets db)) as Hs.
    { apply in_kept_rows, in_from_clause in Hr. rewrite <- E. tauto. }
    unfold group_id in Hn. rewrite (kept_rows_of db q _ D Hs) in Hn.
    repeat split; trivial.
    rewrite Hn, <- (kept_rows_of db q _ D Hs). intros F.
    apply map_eq_nil in F.
    assert (In r (filter (fun r => row_id r =? s_id (fst g0)) (kept_rows db q))) as I
      by (apply filter_In; split; [exact Hr | apply Z.eqb_eq; unfold row_id; now rewrite E]).
    rewrite F in I. contradiction. }
  split; [apply Fwd|].
  intros (Hs & Hne & E).
  destruct (snd g) as [|n ns] eqn:Sg; [congruence|].
  assert (In (make_row (fst g) n) (kept_rows db q)) as Hr.
  { assert (In n (passing_names db q (fst g))) as Hn by (rewrite <- E; now left).
    unfold passing_names in Hn. unfold kept_rows.
    destruct (search_pattern q) as [p|].
    - apply filter_In in Hn. destruct Hn as [Hn Hw].
      apply filter_In. split; [|exact Hw]. apply in_from_clause. simpl. auto.
    - apply in_from_clause. simpl. auto. }
  assert (In (s_id (fst g)) (map group_id (group_by_id (kept_rows db q)))) as Hi.
  { apply group_by_id_ids. apply in_map_iff. exists (make_row (fst g) n). auto. }
  apply in_map_iff in Hi. destruct Hi as (g' & Eg & Hg').
  destruct (Fwd g' Hg') as (Hs' & _ & E').
  assert (fst g' = fst g) as Ef
    by (apply (NoDup_map_injective s_id (snippets db)); trivial).
  replace g with g'; [exact Hg'|].
  destruct g as [a b], g' as [a' b']. simpl in *. subst. congruence.
Qed.

Lemma in_listed_iff db q s :
  NoDup (map s_id (snippets db)) ->
  In s (listed no_faults db q) <->
  exists row, In row (snippets db) /\ passing_names db q row <> [] /\
              s = record_of row (passing_names db q row).
Proof.
  intros D. rewrite in_listed. split.
  - intros (g & Hg & ->). apply (in_groups_iff db q g D) in Hg.
    destruct Hg as (Hs & Hne & E). exists (fst g). rewrite <- E.
    split; [exact Hs|]. split; [exact Hne|]. unfold record_of. now destruct g.
  - intros (row & Hs & Hne & ->). exists (row, passing_names db q row).
    split; [|reflexivity]. apply in_groups_iff; simpl; auto.
Qed.

Lemma listed_sorted db q :
  StronglySorted Z.ge (map created_at (listed no_faults db q)).
Proof.
  rewrite listed_unfold, !map_map. simpl.
  apply StronglySorted_map.
  eapply StronglySorted_weaken; [|apply order_by_sorted].
  unfold newer_first. intros; lia.
Qed.

(** X1. [getAllSnippets], read snippet by snippet.  On a store with
    unique snippet ids and for every search text, a record is listed
    exactly when it is the record of a stored snippet one of whose joined
    rows passes the filter, carrying the tag names of its passing rows in
    the order of the join, which reads [snippet_tags] through its
    primary-key index, that is by tag id; no id is listed twice, and the
    records come newest [created_at] first. *)
Theorem listing_by_snippet :
  forall db q,
    NoDup (map s_id (snippets db)) ->
    (forall s, In s (listed no_faults db q) <->
       exists row, In row (snippets db) /\ passing_names db q row <> [] /\
                   s = record_of row (passing_names db q row)) /\
    NoDup (map id (listed no_faults db q)) /\
    StronglySorted Z.ge (map created_at (listed no_faults db q)).
Proof.
  intros db q D. split; [|split].
  - intros s. now apply in_listed_iff.
  - apply listing_has_each_snippet_once.
  - apply listed_sorted.
Qed.

Lemma listing_by_snippet_witness :
  NoDup (map s_id (snippets sample_db)) /\
  (forall s, In s (listed no_faults sample_db "functional") <->
     exists row, In row (snippets sample_db) /\
                 passing_names sample_db "functional" row <> [] /\
                 s = record_of row (passing_names sample_db "functional" row)).
Proof.
  assert (NoDup (map s_id (snippets sample_db))) as D
    by apply (snippet_ids_unique _ sample_db_constraints).
  split; [exact D|].
  exact (proj1 (listing_by_snippet sample_db "functional" D)).
Defined.

(** ** Deleting and listing *)

Lemma join_links_same db db' row :
  snippet_tags db' = snippet_tags db ->
  tags db' = tags db ->
  join_links db' row = join_links db row.
Proof.
  intros El Et. unfold join_links. rewrite El.
  destruct (index_order _) as [|l ls]; [reflexivity|].
  apply flat_map_ext. intros a. unfold join_tags. now rewrite Et.
Qed.

Lemma passing_names_same db db' q row :
  join_links db' row = join_links db row ->
  passing_names db' q row = passing_names db q row.
Proof. intros E. unfold passing_names. now rewrite E. Qed.

Lemma deleteSnippet_tables real db v :
  let db' := file (SnippetModel.deleteSnippet real no_faults db v) in
  snippets db' = filter (fun s => negb (rowid_is real v (s_id s))) (snippets db) /\
  snippet_tags db' = snippet_tags db /\
  tags db' = tags db.
Proof. repeat split. Qed.

Lemma listing_after_delete real db v q :
  NoDup (map s_id (snippets db)) ->
  forall s,
    In s (listed no_faults (file (SnippetModel.deleteSnippet real no_faults db v)) q) <->
    In s (listed no_faults db q) /\ rowid_is real v (id s) = false.
Proof.
  intros D. set (r := SnippetModel.deleteSnippet real no_faults db v).
  destruct (deleteSnippet_tables real db v) as (Es & El & Et). fold r in Es, El, Et.
  assert (NoDup (map s_id (snippets (file r)))) as D'
    by (rewrite Es; now apply NoDup_map_filter).
  intros s. rewrite (in_listed_iff _ q s D'), (in_listed_iff _ q s D). split.
  - intros (row & Hrow & Hne & ->). rewrite Es in Hrow.
    apply filter_In in Hrow. destruct Hrow as [Hrow Hv].
    rewrite (passing_names_same db (file r) q row (join_links_same _ _ _ El Et)) in *.
    split; [exists row; auto|]. now apply negb_true_iff in Hv.
  - intros [(row & Hrow & Hne & ->) Hv]. exists row.
    rewrite (passing_names_same db (file r) q row (join_links_same _ _ _ El Et)).
    repeat split; trivial. rewrite Es. apply filter_In. split; [exact Hrow|].
    now apply negb_true_iff.
Qed.

(** X2. Deleting and listing compose: after [deleteSnippet], for every
    search text, the listing holds exactly the records it held before whose
    id the store does not find equal to the given value, each with the tag
    list it had; and [changes] counts the deleted rows.  This holds
    whatever the store's conversion of real literals makes of a text. *)
Theorem delete_takes_one_record_off_the_listing :
  forall real db v q,
    NoDup (map s_id (snippets db)) ->
    let r := SnippetModel.deleteSnippet real no_faults db v in
    settled r =
      Resolved {| success := true;
                  changes := Z.of_nat (List.length
                    (filter (fun s => rowid_is real v (s_id s)) (snippets db))) |} /\
    forall s, In s (listed no_faults (file r) q) <->
              In s (listed no_faults db q) /\ rowid_is real v (id s) = false.
Proof.
  intros real db v q D r. split; [reflexivity|]. now apply listing_after_delete.
Qed.

Lemma delete_takes_one_record_off_the_listing_witness :
  NoDup (map s_id (snippets sample_db)) /\
  forall s,
    In s (listed no_faults
            (file (SnippetModel.deleteSnippet no_rounding no_faults sample_db (VInteger 1)))
            EmptyString) <->
    In s (listed no_faults sample_db EmptyString) /\
    rowid_is no_rounding (VInteger 1) (id s) = false.
Proof.
  assert (NoDup (map s_id (snippets sample_db))) as D
    by apply (snippet_ids_unique _ sample_db_constraints).
  split; [exact D|].
  exact (proj2 (delete_takes_one_record_off_the_listing no_rounding sample_db (VInteger 1)
                  EmptyString D)).
Defined.

(** X3. Deleting twice: the second [deleteSnippet] of the same id finds no
    row (its [changes] is 0) and leaves the file as the first one left it;
    through the handler the second request is answered 404. *)
Theorem delete_twice_finds_nothing :
  forall real db v,
    let once := file (SnippetModel.deleteSnippet real no_faults db v) in
    let again := SnippetModel.deleteSnippet real no_faults once v in
    settled again = Resolved {| success := true; changes := 0 |} /\
    file again = once /\
    forall id,
      Js.isNaN id = false ->
      h_response (SnippetController.deleteSnippet real no_faults
                    (h_file (SnippetController.deleteSnippet real no_faults db id)) id)
      = Json 404 false "Snippet not found" None.
Proof.
  intros real db v once again.
  assert (forall w, existsb (fun s => rowid_is real w (s_id s))
            (snippets (file (SnippetModel.deleteSnippet real no_faults db w))) = false) as N.
  { intros w. destruct (existsb _ _) eqn:X; [|reflexivity]. exfalso.
    apply existsb_exists in X. destruct X as (s & Hs & Hv).
    simpl in Hs. apply filter_In in Hs. destruct Hs as [_ Hn].
    rewrite Hv in Hn. discriminate. }
  split; [|split].
  - unfold again, SnippetModel.deleteSnippet. simpl. do 2 f_equal.
    pose proof (changes_zero (fun s => rowid_is real v (s_id s)) (snippets once)) as C.
    unfold once in C. rewrite (N v) in C. simpl in C. apply Z.eqb_eq in C. exact C.
  - exact (delete_snippet_nothing real (createConnection once) v (N v)).
  - intros id E. unfold SnippetController.deleteSnippet. rewrite E.
    unfold SnippetModel.deleteSnippet. cbn [no_faults h_file file settled changes].
    simpl. rewrite changes_zero.
    specialize (N (VText id)). simpl in N. rewrite N. reflexivity.
Qed.

Lemma delete_twice_finds_nothing_witness :
  Js.isNaN "1" = false /\
  h_response (SnippetController.deleteSnippet no_rounding no_faults
                (h_file (SnippetController.deleteSnippet no_rounding no_faults sample_db "1")) "1")
  = Json 404 false "Snippet not found" None.
Proof.
  assert (Js.isNaN "1" = false) as E by reflexivity.
  split; [exact E|].
  exact (proj2 (proj2 (delete_twice_finds_nothing no_rounding sample_db (VInteger 1))) "1" E).
Defined.

(** ** The tables during the tag loop, while the transaction stays open *)

Lemma links_have_tags_more db db' :
  snippet_tags db' = snippet_tags db ->
  (exists added, tags db' = tags db ++ added) ->
  links_have_tags db -> links_have_tags db'.
Proof.
  intros El (added & Et) H. unfold links_have_tags. rewrite El, Et, map_app.
  eapply Forall_impl; [|exact H]. simpl. intros l Hl. apply in_app_iff. now left.
Qed.

Lemma grown_refl sid db : grown sid db db.
Proof.
  constructor; trivial.
  - exists []. now rewrite app_nil_r.
  - exists []. rewrite app_nil_r. split; [reflexivity | constructor].
Qed.

Lemma grown_insert_tag sid db1 db name :
  grown sid db1 db -> grown sid db1 (insert_or_ignore_tag db name).
Proof.
  intros [Gs Gq (ta & Gt) Gl Gh].
  destruct (insert_or_ignore_tag_shape db name) as ((extra & Et & _) & El & Es & Eq).
  constructor.
  - now rewrite Es.
  - now rewrite Eq.
  - exists (ta ++ extra). now rewrite Et, Gt, app_assoc.
  - now rewrite El.
  - intros H1. apply (links_have_tags_more db); [exact El | now exists extra | auto].
Qed.

Lemma grown_link sid db1 c c' tid :
  grown sid db1 (c_db c) ->
  In tid (map t_id (tags (c_db c))) ->
  insert_snippet_tag c sid tid = inr c' ->
  grown sid db1 (c_db c').
Proof.
  intros [Gs Gq Gt (la & Gl & Fl) Gh] Ht L. unfold insert_snippet_tag in L.
  destruct (has_link _ _); [discriminate|].
  destruct (_ && _); [discriminate|].
  injection L as <-. constructor; simpl; trivial.
  - exists (la ++ [{| l_snippet_id := sid; l_tag_id := tid |}]).
    split; [now rewrite Gl, app_assoc|].
    apply Forall_app. split; [exact Fl | now repeat constructor].
  - intros H1. unfold links_have_tags. simpl. apply Forall_app. split; [now apply Gh|].
    now repeat constructor.
Qed.

Lemma run_commit_db fault k c :
  statement_level fault -> c_db (fst (run_commit fault k c)) = c_db c.
Proof.
  intros Q. unfold run_commit. destruct (c_saved c); [|reflexivity].
  destruct (fault k SqlCommit) as [e|] eqn:F; [|reflexivity].
  cbn [fst]. now rewrite (fail_statement_kept _ _ (Q _ _ _ F)).
Qed.

Lemma checkCompletion_tables fault sid data db1 st :
  statement_level fault ->
  result st = Pending ->
  loop_tables sid db1 st -> loop_tables sid db1 (checkCompletion fault sid data st).
Proof.
  intros Q R [Hl Hg]. rewrite R in Hg. unfold checkCompletion.
  destruct (_ =? _)%nat; [|split; [exact Hl | now rewrite R]].
  destruct (tagErrors st); (split; [discriminate|]); cbn [result conn]; [|exact I].
  now rewrite run_commit_db.
Qed.

(** Every callback keeps them so. *)
Lemma step_tables fault sid data db0 db1 choice st :
  statement_level fault ->
  loop_invariant fault sid data db0 st ->
  loop_tables sid db1 st ->
  loop_tables sid db1 (step fault sid data choice st).
Proof.
  intros Q J G. step_cases Hpick Hfault; [| |exact G].
  all: pose proof (pick_perm _ _ _ _ Hpick) as P.
  all: destruct (pending_means_transaction_open _ _ _ _ _ _ _ J P) as [R _].
  all: destruct G as [Hl Hg]; specialize (Hl R); rewrite R in Hg.
  all: assert (forall s t, In (SqlLink s t) (stmt :: rest) ->
                 s = sid /\ In t (map t_id (tags (c_db (conn st))))) as Hl'
        by (intros s t Hin; apply (Hl s t);
            eapply Permutation_in; [symmetry; exact P | exact Hin]).
  all: assert (forall s t, In (SqlLink s t) rest ->
                 s = sid /\ In t (map t_id (tags (c_db (conn st))))) as Hrest
        by (intros s t Hin; apply (Hl' s t); now right).
  - unfold tag_failed. rewrite (fail_statement_kept _ _ (Q _ _ _ Hfault)).
    apply checkCompletion_tables; [exact Q | exact R|].
    split; simpl; [auto | now rewrite R].
  - destruct stmt; try (split; [auto | now rewrite R]).
    + split; cbn [result pending conn c_db with_db];
        [|rewrite R; now apply grown_insert_tag].
      intros _ s t Hin. apply in_app_iff in Hin.
      destruct Hin as [Hin|[E|[]]]; [|discriminate].
      destruct (Hrest s t Hin) as [Es Ht]. split; [exact Es|].
      destruct (insert_or_ignore_tag_shape (c_db (conn st)) name)
        as ((extra & Et & _) & _).
      rewrite Et, map_app. apply in_app_iff. now left.
    + destruct (select_tag_id _ _) as [tag_id|] eqn:S;
        (split; simpl; [|rewrite ?R; trivial]); [|discriminate].
      intros _ s t Hin. apply in_app_iff in Hin.
      destruct Hin as [Hin|[E|[]]]; [now apply Hrest|].
      injection E as <- <-. split; [reflexivity|].
      unfold select_tag_id in S.
      destruct (find _ _) as [tg|] eqn:F; [|discriminate].
      injection S as <-. apply find_some in F. apply in_map. tauto.
    + destruct (Hl' snippet_id tag_id) as [-> Ht]; [now left|].
      destruct (insert_snippet_tag _ _ _) as [err|c'] eqn:L.
      * unfold tag_failed.
        rewrite (fail_statement_kept _ _ (insert_snippet_tag_error _ _ _ _ L)).
        apply checkCompletion_tables; [exact Q | exact R|].
        split; simpl; [auto | now rewrite R].
      * apply checkCompletion_tables; [exact Q | exact R|]. split; simpl.
        -- intros _ s t Hin. destruct (Hrest s t Hin) as [Es Hin']. split; [exact Es|].
           unfold insert_snippet_tag in L.
           destruct (has_link _ _); [discriminate|].
           destruct (_ && _); [discriminate|]. injection L as <-. exact Hin'.
        -- rewrite R. eapply grown_link; eassumption.
Qed.

Lemma run_callbacks_tables fault sid data db0 db1 sched fuel :
  statement_level fault ->
  forall step_no st,
    loop_invariant fault sid data db0 st ->
    loop_tables sid db1 st ->
    loop_tables sid db1 (run_callbacks fault sid data sched fuel step_no st).
Proof.
  intros Q. induction fuel as [|fuel IH]; intros step_no st J G; simpl; [exact G|].
  apply IH; [now apply step_invariant | now apply step_tables with (db0 := db0)].
Qed.

(** ** What a call of [createSnippet] leaves behind *)

Lemma without_tags_same data : d_tags data = [] -> without_tags data = data.
Proof. destruct data; simpl; intros ->; reflexivity. Qed.

Lemma grown_snippet db data now :
  let db1 := fst (insert_snippet db (d_title data) (d_code data)
                    (language_or_default (d_language data)) now) in
  snippets db1 = snippets db ++ [new_row db data now] /\
  tags db1 = tags db /\ snippet_tags db1 = snippet_tags db /\
  seq_snippets db1 = s_id (new_row db data now).
Proof. repeat split. Qed.

(** On a store whose failures leave the transaction open, a call either
    is rejected and changes nothing, or resolves with the new id and the
    data; then either nothing failed, the snippet row is stored and the
    other tables have grown, or [COMMIT] failed and nothing is stored. *)
Lemma createSnippet_outcome fault sched now db data :
  statement_level fault ->
  let r := SnippetModel.createSnippet fault sched now db data in
  (exists e, settled r = Rejected e /\ first_failure (trace r) = Some e /\ file r = db) \/
  (settled r = Resolved {| new_id := s_id (new_row db data now); new_data := data |} /\
   ((failures (trace r) = [] /\
     grown (s_id (new_row db data now))
           (fst (insert_snippet db (d_title data) (d_code data)
                   (language_or_default (d_language data)) now))
           (file r)) \/
    (exists e k, fault k SqlCommit = Some e /\ failures (trace r) = [e] /\
                 In (SqlCommit, Some e) (trace r) /\ file r = db))).
Proof.
  intros Q.
  destruct (fault 1%nat (SqlInsertSnippet (d_title data) (d_code data)
                           (language_or_default (d_language data)))) as [err|] eqn:F.
  - left. exists err. now apply createSnippet_insert_fails.
  - destruct (d_tags data) as [|t ts] eqn:T.
    + right. unfold SnippetModel.createSnippet. rewrite F, T.
      cbn [insert_snippet]. unfold run_commit.
      cbn [with_db begin_transaction createConnection open c_saved].
      rewrite (without_tags_same data T).
      destruct (fault 2%nat SqlCommit) as [ce|] eqn:Fc.
      * rewrite (fail_statement_kept _ _ (Q _ _ _ Fc)).
        split; [reflexivity|]. right. exists ce, 2%nat.
        split; [exact Fc|]. split; [reflexivity|].
        split; [simpl; auto | reflexivity].
      * split; [reflexivity|]. left. split; [reflexivity|]. apply grown_refl.
    + assert (d_tags data <> []) as Hne by congruence.
      rewrite createSnippet_with_tags by trivial.
      set (db1 := fst (insert_snippet db _ _ _ now)).
      set (sid := next_rowid _ _).
      destruct (tag_loop_finishes fault sched db db1 sid data
                  [(SqlBegin, None);
                   (SqlInsertSnippet (d_title data) (d_code data)
                      (language_or_default (d_language data)), None)])
        as [J Hp]; [exact Q | exact Hne | reflexivity |].
      cbv zeta in J, Hp.
      assert (loop_tables sid db1
                (run_callbacks fault sid data sched (3 * List.length (d_tags data)) 0
                   (forEach_tag (with_db (begin_transaction (createConnection db)) db1)
                      (d_tags data)
                      [(SqlBegin, None);
                       (SqlInsertSnippet (d_title data) (d_code data)
                          (language_or_default (d_language data)), None)]))) as G.
      { apply run_callbacks_tables with (db0 := db); [exact Q | |].
        - now apply forEach_tag_invariant.
        - split; simpl; [|apply grown_refl].
          intros _ s t' Hin. apply in_map_iff in Hin.
          destruct Hin as (n & E & _). discriminate. }
      set (st := run_callbacks _ _ _ _ _ _ _) in *.
      destruct J as [Js Jl Jr]. destruct G as [_ G].
      unfold finished. cbn [file settled trace].
      destruct (result st) as [c|e| |].
      * right. destruct Jr as (_ & _ & -> & _ & [[Hf Hsaved]|(e & k & Hk & Hf & Hin & Hc)]).
        -- split; [reflexivity|]. left. unfold close. rewrite Hsaved. auto.
        -- split; [reflexivity|]. right. exists e, k. auto.
      * left. exists e. destruct Jr as (_ & Hc & Hf & _). auto.
      * contradiction.
      * destruct Jr as (_ & _ & _ & Hr). contradiction.
Qed.

(** ** Calls in which nothing fails *)

Lemma failures_app_nil l1 l2 :
  failures (l1 ++ l2) = [] -> failures l1 = [] /\ failures l2 = [].
Proof. rewrite failures_app. apply app_eq_nil. Qed.

Lemma checkCompletion_log fault sid data st :
  exists l, log (checkCompletion fault sid data st) = log st ++ l.
Proof.
  unfold checkCompletion. destruct (_ =? _)%nat.
  - destruct (tagErrors st); eexists; reflexivity.
  - exists []. now rewrite app_nil_r.
Qed.

Lemma step_log fault sid data choice st :
  exists l, log (step fault sid data choice st) = log st ++ l.
Proof.
  step_cases Hpick Hfault.
  - unfold tag_failed.
    match goal with
    | |- context [checkCompletion fault sid data ?s] =>
        destruct (checkCompletion_log fault sid data s) as (l & ->)
    end.
    simpl. rewrite <- app_assoc. eexists; reflexivity.
  - destruct stmt; try (exists []; now rewrite app_nil_r);
      try (eexists; reflexivity).
    + destruct (select_tag_id _ _); eexists; reflexivity.
    + destruct (insert_snippet_tag _ _ _); unfold tag_failed;
        match goal with
        | |- context [checkCompletion fault sid data ?s] =>
            destruct (checkCompletion_log fault sid data s) as (l & ->)
        end; simpl; rewrite <- app_assoc; eexists; reflexivity.
  - exists []. now rewrite app_nil_r.
Qed.

Lemma run_callbacks_log fault sid data sched fuel :
  forall step_no st,
    exists l, log (run_callbacks fault sid data sched fuel step_no st) = log st ++ l.
Proof.
  induction fuel as [|fuel IH]; intros step_no st; simpl.
  - exists []. now rewrite app_nil_r.
  - destruct (IH (S step_no) (step fault sid data (sched step_no) st)) as (l & ->).
    destruct (step_log fault sid data (sched step_no) st) as (l' & ->).
    rewrite <- app_assoc. eexists; reflexivity.
Qed.

(** A commit after which the log holds no failure did what it does when
    the store never fails of its own. *)
Lemma checkCompletion_without_failure fault sid data st :
  failures (log (checkCompletion fault sid data st)) = [] ->
  checkCompletion fault sid data st = checkCompletion no_faults sid data st.
Proof.
  unfold checkCompletion. destruct (_ =? _)%nat; [|reflexivity].
  destruct (tagErrors st); [|reflexivity].
  unfold run_commit. destruct (c_saved (conn st)); [|reflexivity].
  destruct (fault (List.length (log st)) SqlCommit) as [e|]; [|reflexivity].
  cbn [log snd]. intros H. apply failures_app_nil in H.
  destruct H as [_ H]. discriminate H.
Qed.

(** A callback after which the log holds no failure did what it does when
    the store never fails of its own. *)
Lemma step_without_failure fault sid data choice st :
  failures (log (step fault sid data choice st)) = [] ->
  step fault sid data choice st = step no_faults sid data choice st.
Proof.
  unfold step. destruct (pick choice (pending st)) as [[stmt rest]|]; [|reflexivity].
  destruct (fault (List.length (log st)) stmt) as [err|] eqn:F.
  - intros H. exfalso. unfold tag_failed in H.
    match type of H with
    | context [checkCompletion fault sid data ?s] =>
        destruct (checkCompletion_log fault sid data s) as (l & E)
    end.
    rewrite E in H. simpl in H.
    apply failures_app_nil in H. destruct H as [H _].
    apply failures_app_nil in H. destruct H as [_ H]. discriminate.
  - cbn [no_faults]. destruct stmt; try reflexivity.
    destruct (insert_snippet_tag _ _ _) as [err|c'].
    + unfold tag_failed. apply checkCompletion_without_failure.
    + apply checkCompletion_without_failure.
Qed.

Lemma run_callbacks_without_failure fault sid data sched fuel :
  forall step_no st,
    failures (log (run_callbacks fault sid data sched fuel step_no st)) = [] ->
    run_callbacks fault sid data sched fuel step_no st =
    run_callbacks no_faults sid data sched fuel step_no st.
Proof.
  induction fuel as [|fuel IH]; intros step_no st H; simpl in *; [reflexivity|].
  assert (failures (log (step fault sid data (sched step_no) st)) = []) as H1.
  { destruct (run_callbacks_log fault sid data sched fuel (S step_no)
                (step fault sid data (sched step_no) st)) as (l & E).
    rewrite E in H. now apply failures_app_nil in H. }
  apply step_without_failure in H1. rewrite H1 in H |- *. now apply IH.
Qed.

(** A call whose trace holds no failure is the call against a store that
    never fails of its own. *)
Lemma createSnippet_without_failure fault sched now db data :
  failures (trace (SnippetModel.createSnippet fault sched now db data)) = [] ->
  SnippetModel.createSnippet fault sched now db data =
  SnippetModel.createSnippet no_faults sched now db data.
Proof.
  destruct (fault 1%nat (SqlInsertSnippet (d_title data) (d_code data)
                           (language_or_default (d_language data)))) as [err|] eqn:F.
  - unfold SnippetModel.createSnippet at 1. rewrite F. discriminate.
  - destruct (d_tags data) as [|t ts] eqn:T.
    + unfold SnippetModel.createSnippet. rewrite F, T.
      cbn [insert_snippet no_faults]. unfold run_commit.
      cbn [with_db begin_transaction createConnection open c_saved].
      destruct (fault 2%nat SqlCommit) as [ce|]; [discriminate | reflexivity].
    + assert (d_tags data <> []) as Hne by congruence.
      rewrite !createSnippet_with_tags by trivial.
      unfold finished at 1. cbn [trace]. intros H.
      now rewrite (run_callbacks_without_failure _ _ _ _ _ _ _ H).
Qed.

(** Distinct tag names, no failure: the snippet is linked to the given
    names and to no other. *)
Lemma createSnippet_links_given_names sched now db data :
  NoDup (d_tags data) ->
  constraints_hold db ->
  sequence_ahead db ->
  let r := SnippetModel.createSnippet no_faults sched now db data in
  forall n, is_linked (file r) (s_id (new_row db data now)) n <-> In n (d_tags data).
Proof.
  intros Dn C S r. set (sid := s_id (new_row db data now)).
  assert (Forall (fun l => l_snippet_id l <> sid) (snippet_tags db)) as Fresh.
  { eapply Forall_impl; [|apply (links_below_seq _ S)].
    intros l Hl. pose proof (next_rowid_above (seq_snippets db) (map s_id (snippets db))).
    simpl in Hl. subst sid. simpl. lia. }
  set (db1 := fst (insert_snippet db (d_title data) (d_code data)
                     (language_or_default (d_language data)) now)).
  destruct (d_tags data) as [|t ts] eqn:T.
  - subst r. unfold SnippetModel.createSnippet. simpl. rewrite T. simpl.
    intros n. split; [|intros []].
    intros (l & _ & Hl & Es & _).
    apply (proj1 (Forall_forall _ _) Fresh l Hl Es).
  - rewrite <- T in *.
    assert (d_tags data <> []) as Hne by congruence.
    subst r. rewrite createSnippet_with_tags by trivial.
    change (next_rowid (seq_snippets db) (map s_id (snippets db))) with sid.
    fold db1.
    destruct (tag_loop_finishes no_faults sched db db1 sid data
                [(SqlBegin, None);
                 (SqlInsertSnippet (d_title data) (d_code data)
                    (language_or_default (d_language data)), None)])
      as [J Hp]; [exact no_faults_statement_level | exact Hne | reflexivity |].
    assert (clean_state sid (d_tags data) db1
              (forEach_tag (with_db (begin_transaction (createConnection db)) db1)
                 (d_tags data)
                 [(SqlBegin, None);
                  (SqlInsertSnippet (d_title data) (d_code data)
                     (language_or_default (d_language data)), None)])) as K0.
    { split; [reflexivity|]. apply clean_start; trivial;
        [apply (tag_names_unique _ C) | apply (tag_ids_unique _ C)]. }
    apply (run_callbacks_clean sid data db1 sched
             (3 * List.length (d_tags data)) 0) in K0.
    cbv zeta in J, Hp.
    set (st := run_callbacks _ _ _ _ _ _ _) in *.
    destruct K0 as [He K]. rewrite Hp in K.
    destruct J as [Js Jl Jr].
    unfold finished. cbn [file].
    destruct (result st) as [c|e| |].
    + destruct Jr as (_ & _ & _ & _ & [[_ Hsaved]|(e & k & Hk & _)]);
        [|discriminate Hk].
      unfold close. rewrite Hsaved.
      apply (clean_end sid (d_tags data) db1 (c_db (conn st)) _ _ Dn K).
    + exfalso. destruct Jr as (_ & _ & _ & Hf). rewrite He in Hf. discriminate.
    + contradiction.
    + destruct Jr as (_ & _ & _ & Hne'). contradiction.
Qed.


Lemma busy_at_statement_level fails : statement_level (busy_at fails).
Proof.
  intros k stmt e H. unfold busy_at in H.
  destruct (fails stmt); [|discriminate]. injection H as <-. reflexivity.
Qed.

(** X4. [createSnippet] on a store whose failures leave the transaction
    open (busy, locked, a violated constraint), in whatever order the
    callbacks run and for every tag list, has three outcomes.  The promise
    is rejected with the first failure and the file is what it was.  Or it
    resolves with the new id and the data, no statement has failed, the
    snippet row is stored after the old ones, and [tags] and
    [snippet_tags] have only gained rows, the new link rows being rows of
    the new snippet.  Or it resolves likewise, but [COMMIT] failed, and
    nothing is stored: the file is what it was.  A promise left pending or
    a file holding a part of the attempt is not among the outcomes. *)
Theorem createSnippet_is_all_or_nothing :
  forall fault sched now db data,
    statement_level fault ->
    let r := SnippetModel.createSnippet fault sched now db data in
    let sid := s_id (new_row db data now) in
    (exists e, settled r = Rejected e /\ first_failure (trace r) = Some e /\
               file r = db) \/
    (settled r = Resolved {| new_id := sid; new_data := data |} /\
     failures (trace r) = [] /\
     snippets (file r) = snippets db ++ [new_row db data now] /\
     (exists added, tags (file r) = tags db ++ added) /\
     (exists added, snippet_tags (file r) = snippet_tags db ++ added /\
                    Forall (fun l => l_snippet_id l = sid) added)) \/
    (settled r = Resolved {| new_id := sid; new_data := data |} /\
     (exists e k, fault k SqlCommit = Some e /\ failures (trace r) = [e] /\
                  In (SqlCommit, Some e) (trace r)) /\
     file r = db).
Proof.
  intros fault sched now db data Q r sid.
  destruct (createSnippet_outcome fault sched now db data Q)
    as [H|(Hs & [(Hf & G)|(e & k & Hk & Hf & Hin & Hd)])].
  - now left.
  - right. left. destruct G as [Gs _ Gt Gl _].
    split; [exact Hs|]. split; [exact Hf|]. split; [exact Gs|]. split; assumption.
  - right. right. split; [exact Hs|]. split; [|exact Hd]. exists e, k. auto.
Qed.

Lemma createSnippet_is_all_or_nothing_witness :
  statement_level (busy_at (fun stmt => match stmt with SqlSelectTag _ => true | _ => false end)) /\
  let fault := busy_at (fun stmt => match stmt with SqlSelectTag _ => true | _ => false end) in
  let r := SnippetModel.createSnippet fault fifo 200 sample_db (tagged ["q"]) in
  (exists e, settled r = Rejected e /\ first_failure (trace r) = Some e /\
             file r = sample_db) \/
  (settled r = Resolved {| new_id := 2; new_data := tagged ["q"] |} /\
   failures (trace r) = [] /\
   snippets (file r) = snippets sample_db ++ [new_row sample_db (tagged ["q"]) 200] /\
   (exists added, tags (file r) = tags sample_db ++ added) /\
   (exists added, snippet_tags (file r) = snippet_tags sample_db ++ added /\
                  Forall (fun l => l_snippet_id l = 2) added)) \/
  (settled r = Resolved {| new_id := 2; new_data := tagged ["q"] |} /\
   (exists e k, fault k SqlCommit = Some e /\ failures (trace r) = [e] /\
                In (SqlCommit, Some e) (trace r)) /\
   file r = sample_db).
Proof.
  split; [apply busy_at_statement_level|].
  exact (createSnippet_is_all_or_nothing _ fifo 200 sample_db (tagged ["q"])
           (busy_at_statement_level _)).
Defined.

(** The third outcome: the store is locked when the call commits.  The
    promise has resolved with the id 2, and the file holds no snippet 2. *)
Example commit_fails_after_the_promise_resolved :
  let r := SnippetModel.createSnippet busy_at_commit fifo 200 sample_db (tagged ["q"]) in
  settled r = Resolved {| new_id := 2; new_data := tagged ["q"] |} /\
  file r = sample_db /\
  trace r =
    [(SqlBegin, None); (SqlInsertSnippet "t" "c" "javascript", None);
     (SqlInsertTag "q", None); (SqlSelectTag "q", None); (SqlLink 2 3, None);
     (SqlCommit, Some (StoreFailure 5))].
Proof. vm_compute. repeat split. Qed.

(** ** Stores the application can produce *)

Lemma createSnippet_keeps_links_have_tags fault sched now db data :
  statement_level fault ->
  links_have_tags db ->
  links_have_tags (file (SnippetModel.createSnippet fault sched now db data)).
Proof.
  intros Q H.
  destruct (createSnippet_outcome fault sched now db data Q)
    as [(e & _ & _ & ->)|(_ & [(_ & G)|(e & k & _ & _ & _ & ->)])];
    [exact H | | exact H].
  apply (g_have_tags _ _ _ G). exact H.
Qed.

Lemma deleteSnippet_keeps_links_have_tags real fault db v :
  links_have_tags db ->
  links_have_tags (file (SnippetModel.deleteSnippet real fault db v)).
Proof.
  intros H. unfold SnippetModel.deleteSnippet.
  destruct (fault 0%nat _); exact H.
Qed.

Lemma undisturbed_links_have_tags db : undisturbed db -> links_have_tags db.
Proof.
  induction 1 as [|fault sched now db data Q _ IH|real fault db v _ IH].
  - constructor.
  - now apply createSnippet_keeps_links_have_tags.
  - now apply deleteSnippet_keeps_links_have_tags.
Qed.

(** X5. On every database file the application can produce out of the
    empty one by creating and deleting snippets -- whatever failed on the
    way and in whatever order the callbacks ran -- snippet ids, tag ids,
    tag names and link rows are unique and the rowids of snippets and tags
    lie between 1 and their [sqlite_sequence] entries.  If moreover no
    failure ended a transaction on the way, no link row is of a snippet
    above the [sqlite_sequence] entry of [snippets], and every link row
    names a stored tag (while its snippet may be gone). *)
Theorem reachable_stores_keep_the_schema :
  forall db,
    reachable db ->
    rows_ok db /\
    (undisturbed db -> sequence_ahead db /\ links_have_tags db).
Proof.
  intros db R. split; [now apply reachable_rows_ok|].
  intros U. split; [apply (undisturbed_store_ok db U)|].
  now apply undisturbed_links_have_tags.
Qed.

Lemma sample_db_reachable : reachable sample_db.
Proof. apply reach_create, reach_empty. Qed.

Lemma sample_db_undisturbed : undisturbed sample_db.
Proof.
  apply calm_create; [apply no_faults_statement_level | apply calm_empty].
Qed.

Lemma reachable_stores_keep_the_schema_witness :
  reachable sample_db /\
  rows_ok sample_db /\
  (undisturbed sample_db -> sequence_ahead sample_db /\ links_have_tags sample_db).
Proof.
  split; [exact sample_db_reachable|].
  exact (reachable_stores_keep_the_schema sample_db sample_db_reachable).
Defined.

(** The second half needs its hypothesis: the file a lost transaction
    leaves behind is one the application produces, and it holds link rows
    of snippet 2 while [sqlite_sequence] says the last snippet was 1. *)
Example lost_transaction_file_breaks_the_sequence :
  let db := file (SnippetModel.createSnippet (disk_full_at_tag "q") fifo 200 sample_db
                    (tagged ["array"; "q"; "z"])) in
  reachable db /\ ~ sequence_ahead db.
Proof.
  split; [apply reach_create, sample_db_reachable|].
  intros [_ L _]. apply Forall_forall with (x := {| l_snippet_id := 2; l_tag_id := 1 |}) in L.
  - vm_compute in L. now apply L.
  - vm_compute. auto.
Qed.

(** ** Creating and listing *)

Lemma flat_map_ext_In {A B} (f g : A -> list B) l :
  (forall a, In a l -> f a = g a) -> flat_map f l = flat_map g l.
Proof.
  induction l as [|a l IH]; simpl; intros H; [reflexivity|].
  rewrite (H a), IH; auto.
Qed.

Lemma join_tags_old db db' l :
  (exists added, tags db' = tags db ++ added) ->
  NoDup (map t_id (tags db')) ->
  In (l_tag_id l) (map t_id (tags db)) ->
  join_tags db' l = join_tags db l.
Proof.
  intros (added & Et) D Hl. unfold join_tags.
  rewrite Et, filter_app.
  rewrite (filter_none _ added), app_nil_r; [reflexivity|].
  intros t Ht. apply Z.eqb_neq. intros E.
  rewrite Et, map_app in D.
  apply (NoDup_app_disjoint _ _ _ D Hl). rewrite E. now apply in_map.
Qed.

(** A snippet other than the new one joins to the rows it joined to. *)
Lemma join_links_old sid db db' row :
  (exists added, tags db' = tags db ++ added) ->
  (exists added, snippet_tags db' = snippet_tags db ++ added /\
                 Forall (fun l => l_snippet_id l = sid) added) ->
  NoDup (map t_id (tags db')) ->
  links_have_tags db ->
  s_id row <> sid ->
  join_links db' row = join_links db row.
Proof.
  intros Ht (la & El & Fl) D Hh Hne. unfold join_links.
  rewrite El, filter_app.
  rewrite (filter_none _ la), app_nil_r.
  - destruct (index_order _) as [|l0 ls] eqn:F; [reflexivity|].
    rewrite <- F. apply flat_map_ext_In. intros l Hl.
    apply in_index_order, filter_In in Hl. destruct Hl as [Hl _].
    apply join_tags_old; trivial.
    apply (proj1 (Forall_forall _ _) Hh l Hl).
  - intros l Hl. apply Z.eqb_neq. intros E.
    apply (proj1 (Forall_forall _ _) Fl) in Hl. congruence.
Qed.

Lemma record_of_new db data now ns :
  (forall n, In (Some n) ns -> plain_name n) ->
  record_of (new_row db data now) ns = new_record db data now (somes ns).
Proof.
  intros H. unfold record_of, new_record.
  pose proof (parse_row_tag_names (new_row db data now, ns) H) as E.
  simpl snd in E. rewrite <- E. reflexivity.
Qed.

(** What the listings show after a call that resolved and in which no
    statement failed. *)
Lemma created_listing fault sched now db data c :
  constraints_hold db ->
  sequence_ahead db ->
  links_have_tags db ->
  NoDup (d_tags data) ->
  (forall n, In n (d_tags data) -> plain_name n) ->
  let r := SnippetModel.createSnippet fault sched now db data in
  settled r = Resolved c ->
  failures (trace r) = [] ->
  c = {| new_id := s_id (new_row db data now); new_data := data |} /\
  (forall q s, In s (listed no_faults (file r) q) /\ id s <> new_id c <->
               In s (listed no_faults db q)) /\
  exists ns, Permutation ns (d_tags data) /\
    forall s, In s (listed no_faults (file r) EmptyString) <->
              In s (listed no_faults db EmptyString) \/ s = new_record db data now ns.
Proof.
  intros C S Hh Dn Hp r Hs Hf. revert Hs Hf. subst r.
  intros Hs Hf. rewrite (createSnippet_without_failure _ _ _ _ _ Hf) in Hs |- *.
  clear Hf fault. set (r := SnippetModel.createSnippet no_faults sched now db data) in *.
  set (sid := s_id (new_row db data now)).
  pose proof (createSnippet_outcome no_faults sched now db data
                no_faults_statement_level) as O.
  cbv zeta in O. fold r sid in O.
  destruct O as [(e & He & _)|(Hs' & [(_ & G)|(e & k & Hk & _)])];
    [congruence | | discriminate Hk].
  assert (c = {| new_id := sid; new_data := data |}) as -> by congruence.
  split; [reflexivity|]. cbn [new_id].
  pose proof (createSnippet_keeps_store_ok no_faults sched now db data
                no_faults_statement_level (conj C S)) as [C' _].
  fold r in C'.
  assert (forall n, is_linked (file r) sid n <-> In n (d_tags data)) as Hl
    by now apply createSnippet_links_given_names.
  destruct G as [Gs _ Gt Gl _]. simpl in Gs, Gt, Gl.
  pose proof (snippet_ids_unique _ C) as D.
  pose proof (snippet_ids_unique _ C') as D'.
  assert (forall row, In row (snippets db) -> s_id row <> sid) as Hold.
  { intros row Hrow.
    pose proof (proj1 (Forall_forall _ _) (snippets_below_seq _ S) row Hrow) as Hle.
    pose proof (next_rowid_above (seq_snippets db) (map s_id (snippets db))).
    simpl in Hle. subst sid. simpl. lia. }
  assert (forall q row, In row (snippets db) ->
            passing_names (file r) q row = passing_names db q row) as Hsame.
  { intros q row Hrow. apply passing_names_same.
    apply (join_links_old sid); trivial; [apply (tag_ids_unique _ C') | auto]. }
  assert (forall q s, In s (listed no_faults db q) ->
            In s (listed no_faults (file r) q) /\ id s <> sid) as Hkeep.
  { intros q s Hin. apply (in_listed_iff db q s D) in Hin.
    destruct Hin as (row & Hrow & Hne & ->). split; [|now apply Hold].
    apply (in_listed_iff _ q _ D'). exists row.
    rewrite (Hsame q row Hrow). repeat split; trivial.
    rewrite Gs. apply in_app_iff. now left. }
  assert (forall q s, In s (listed no_faults (file r) q) ->
            In s (listed no_faults db q) \/
            s = record_of (new_row db data now)
                  (passing_names (file r) q (new_row db data now))) as Hfrom.
  { intros q s Hin. apply (in_listed_iff _ q s D') in Hin.
    destruct Hin as (row & Hrow & Hne & ->).
    rewrite Gs in Hrow. apply in_app_iff in Hrow.
    destruct Hrow as [Hrow|[<-|[]]]; [left | now right].
    apply (in_listed_iff db q _ D). exists row.
    rewrite <- (Hsame q row Hrow). auto. }
  split.
  - intros q s. split; [|apply Hkeep].
    intros [Hin Hne]. destruct (Hfrom q s Hin) as [H | ->]; [exact H|].
    now contradiction Hne.
  - exists (linked_names (file r) (new_row db data now)). split.
    + apply NoDup_Permutation; [|exact Dn|].
      * apply linked_names_NoDup;
          [apply (tag_names_unique _ C') | apply (links_unique _ C')].
      * intros n. rewrite in_linked_names. apply Hl.
    + assert (record_of (new_row db data now)
                (passing_names (file r) EmptyString (new_row db data now)) =
              new_record db data now (linked_names (file r) (new_row db data now)))
        as Enew.
      { apply record_of_new. intros n Hn. apply Hp, Hl.
        now apply in_join_links_Some in Hn. }
      intros s. split.
      * intros Hin. destruct (Hfrom EmptyString s Hin) as [H | ->];
          [now left | right; exact Enew].
      * intros [Hin | ->]; [now apply Hkeep|].
        apply (in_listed_iff _ EmptyString _ D').
        exists (new_row db data now). split; [|split; [|now rewrite Enew]].
        -- rewrite Gs. apply in_app_iff. right. now left.
        -- apply join_links_nonempty.
Qed.

(** X6. Creating and listing compose.  On a store that keeps its
    constraints, whose [sqlite_sequence] is ahead of the rowids in use and
    whose link rows name stored tags, after a [createSnippet] that
    resolved and in which no statement failed -- with pairwise different
    tag names free of commas and not empty -- every search lists, among
    the records with another id, exactly what it listed before, unchanged;
    and the unfiltered listing is the old one plus one record: the new id,
    the title, code and language as stored, the clock reading, and the
    given tag names in some order. *)
Theorem created_snippet_is_listed :
  forall fault sched now db data c,
    constraints_hold db ->
    sequence_ahead db ->
    links_have_tags db ->
    NoDup (d_tags data) ->
    (forall n, In n (d_tags data) -> plain_name n) ->
    let r := SnippetModel.createSnippet fault sched now db data in
    settled r = Resolved c ->
    failures (trace r) = [] ->
    c = {| new_id := s_id (new_row db data now); new_data := data |} /\
    (forall q s, In s (listed no_faults (file r) q) /\ id s <> new_id c <->
                 In s (listed no_faults db q)) /\
    exists ns, Permutation ns (d_tags data) /\
      forall s, In s (listed no_faults (file r) EmptyString) <->
                In s (listed no_faults db EmptyString) \/
                s = new_record db data now ns.
Proof.
  intros fault sched now db data c C S Hh Dn Hp. now apply created_listing.
Qed.

Lemma sample_db_links_have_tags : links_have_tags sample_db.
Proof. apply undisturbed_links_have_tags, sample_db_undisturbed. Qed.

Lemma created_snippet_is_listed_witness :
  let r := SnippetModel.createSnippet no_faults fifo 200 sample_db (tagged ["x"; "y"]) in
  constraints_hold sample_db /\ sequence_ahead sample_db /\
  links_have_tags sample_db /\
  NoDup (d_tags (tagged ["x"; "y"])) /\
  (forall n, In n (d_tags (tagged ["x"; "y"])) -> plain_name n) /\
  settled r = Resolved {| new_id := 2; new_data := tagged ["x"; "y"] |} /\
  failures (trace r) = [] /\
  exists ns, Permutation ns ["x"; "y"] /\
    forall s, In s (listed no_faults (file r) EmptyString) <->
              In s (listed no_faults sample_db EmptyString) \/
              s = new_record sample_db (tagged ["x"; "y"]) 200 ns.
Proof.
  assert (NoDup (d_tags (tagged ["x"; "y"]))) as D by concrete_nodup.
  assert (forall n, In n (d_tags (tagged ["x"; "y"])) -> plain_name n) as P.
  { intros n [<-|[<-|[]]]; split; (discriminate || reflexivity). }
  assert (settled (SnippetModel.createSnippet no_faults fifo 200 sample_db
                     (tagged ["x"; "y"])) =
          Resolved {| new_id := 2; new_data := tagged ["x"; "y"] |}) as E
    by reflexivity.
  assert (failures (trace (SnippetModel.createSnippet no_faults fifo 200 sample_db
                             (tagged ["x"; "y"]))) = []) as F
    by reflexivity.
  split; [exact sample_db_constraints|]. split; [exact sample_db_sequence|].
  split; [exact sample_db_links_have_tags|].
  split; [exact D|]. split; [exact P|].
  split; [exact E|]. split; [exact F|].
  exact (proj2 (proj2 (created_snippet_is_listed no_faults fifo 200 sample_db
                         (tagged ["x"; "y"]) _ sample_db_constraints
                         sample_db_sequence sample_db_links_have_tags D P E F))).
Defined.

(** On the file a lost transaction left behind, the next snippet gets the
    id of the one that was rolled back and with it the link rows made for
    that one: saved with the tag [q] alone, it is listed with [array], [z]
    and [q]; saved with the tag [array], it is rejected. *)
Example next_snippet_inherits_left_over_links :
  let left_over := file (SnippetModel.createSnippet (disk_full_at_tag "q") fifo 200
                           sample_db (tagged ["array"; "q"; "z"])) in
  let r := SnippetModel.createSnippet no_faults fifo 300 left_over (tagged ["q"]) in
  settled r = Resolved {| new_id := 2; new_data := tagged ["q"] |} /\
  map tag_names (listed no_faults (file r) EmptyString) =
    [["array"; "z"; "q"]; ["array"; "functional"]] /\
  settled (SnippetModel.createSnippet no_faults fifo 300 left_over (tagged ["array"]))
    = Rejected ConstraintPrimaryKey.
Proof. vm_compute. repeat split. Qed.

(** ** Counting the links of a call *)

Lemma named_tag_more names db db' tid :
  (exists added, tags db' = tags db ++ added) ->
  named_tag names db tid -> named_tag names db' tid.
Proof.
  intros (added & Et) (t & Ht & E & Hn). exists t. split; [|auto].
  rewrite Et. apply in_app_iff. now left.
Qed.

Lemma checkCompletion_count fault sid data db1 st :
  statement_level fault ->
  result st = Pending ->
  loop_count sid (d_tags data) db1 st ->
  loop_count sid (d_tags data) db1 (checkCompletion fault sid data st).
Proof.
  intros Q R [Hl Hg]. rewrite R in Hg. unfold checkCompletion.
  destruct (_ =? _)%nat; [|split; [exact Hl | now rewrite R]].
  destruct (tagErrors st) eqn:E; (split; [discriminate|]);
    cbn [result conn tagErrors processedTags]; [|exact I].
  rewrite run_commit_db by exact Q. exact Hg.
Qed.

Lemma step_count fault sid data db0 db1 choice st :
  statement_level fault ->
  loop_invariant fault sid data db0 st ->
  loop_count sid (d_tags data) db1 st ->
  loop_count sid (d_tags data) db1 (step fault sid data choice st).
Proof.
  intros Q J G. step_cases Hpick Hfault; [| |exact G].
  all: pose proof (pick_perm _ _ _ _ Hpick) as P.
  all: destruct (pending_means_transaction_open _ _ _ _ _ _ _ J P) as [R _].
  all: destruct G as [Hl Hg]; destruct (Hl R) as [Hn Hk]; clear Hl; rewrite R in Hg.
  all: destruct Hg as (added & Ea & Fa & La).
  all: assert (forall n, In (SqlInsertTag n) (stmt :: rest) \/
                         In (SqlSelectTag n) (stmt :: rest) -> In n (d_tags data)) as Hn'
        by (intros n [Hin|Hin]; apply (Hn n); [left|right];
            (eapply Permutation_in; [symmetry; exact P | exact Hin])).
  all: assert (forall s t, In (SqlLink s t) (stmt :: rest) ->
                 s = sid /\ named_tag (d_tags data) (c_db (conn st)) t) as Hk'
        by (intros s t Hin; apply (Hk s t);
            eapply Permutation_in; [symmetry; exact P | exact Hin]).
  all: assert (forall n, In (SqlInsertTag n) rest \/ In (SqlSelectTag n) rest ->
                         In n (d_tags data)) as Hnr
        by (intros n [Hin|Hin]; apply (Hn' n); [left|right]; now right).
  all: assert (forall s t, In (SqlLink s t) rest ->
                 s = sid /\ named_tag (d_tags data) (c_db (conn st)) t) as Hkr
        by (intros s t Hin; apply (Hk' s t); now right).
  all: assert (loop_count sid (d_tags data) db1
                 {| conn := conn st; pending := rest;
                    processedTags := S (processedTags st);
                    tagErrors := tagErrors st ++ [Sqlite.StoreFailure 0];
                    result := result st; log := log st |}) as Gfail
        by (split; simpl; [auto|]; rewrite R; exists added;
            split; [exact Ea|]; split; [exact Fa|]; rewrite length_app; simpl; lia).
  - unfold tag_failed. rewrite (fail_statement_kept _ _ (Q _ _ _ Hfault)).
    apply checkCompletion_count; [exact Q | exact R|].
    destruct Gfail as [Gl Gg]. simpl in Gl, Gg. split; simpl; [exact Gl|].
    rewrite R in Gg |- *. destruct Gg as (a & E1 & E2 & E3). exists a.
    rewrite length_app in E3 |- *. auto.
  - destruct stmt;
      try (split; [intros _; split; assumption | rewrite R; exists added; auto]).
    + (* the insert of a tag *)
      assert (exists extra, tags (insert_or_ignore_tag (c_db (conn st)) name) =
                            tags (c_db (conn st)) ++ extra) as Hmore
        by (destruct (insert_or_ignore_tag_shape (c_db (conn st)) name)
              as ((extra & Et & _) & _); eauto).
      split; simpl.
      * intros _. split.
        -- intros n [Hin|Hin]; apply in_app_iff in Hin;
             destruct Hin as [Hin|[E|[]]]; try discriminate; [auto | auto |].
           injection E as <-. apply Hn'. left. now left.
        -- intros s t Hin. apply in_app_iff in Hin.
           destruct Hin as [Hin|[E|[]]]; [|discriminate].
           destruct (Hkr s t Hin) as [Es Ht]. split; [exact Es|].
           now apply (named_tag_more _ (c_db (conn st))).
      * rewrite R. exists added. split; [exact Ea|]. split; [|exact La].
        eapply Forall_impl; [|exact Fa]. simpl. intros l [Es Ht].
        split; [exact Es|]. now apply (named_tag_more _ (c_db (conn st))).
    + (* the lookup of a tag *)
      destruct (select_tag_id _ _) as [tag_id|] eqn:S;
        (split; simpl; [|rewrite ?R; eauto]); [|discriminate].
      intros _. split.
      * intros n [Hin|Hin]; apply in_app_iff in Hin;
          destruct Hin as [Hin|[E|[]]]; try discriminate; auto.
      * intros s t Hin. apply in_app_iff in Hin.
        destruct Hin as [Hin|[E|[]]]; [now apply Hkr|].
        injection E as <- <-. split; [reflexivity|].
        unfold select_tag_id in S.
        destruct (find _ _) as [tg|] eqn:F; [|discriminate].
        injection S as <-. apply find_some in F. destruct F as [Hin Hname].
        apply String.eqb_eq in Hname. exists tg. repeat split; trivial.
        rewrite Hname. apply Hn'. right. now left.
    + (* the link *)
      destruct (Hk' snippet_id tag_id) as [-> Ht]; [now left|].
      destruct (insert_snippet_tag _ _ _) as [err|c'] eqn:L.
      * unfold tag_failed.
        rewrite (fail_statement_kept _ _ (insert_snippet_tag_error _ _ _ _ L)).
        apply checkCompletion_count; [exact Q | exact R|].
        destruct Gfail as [Gl Gg]. simpl in Gl, Gg. split; simpl; [exact Gl|].
        rewrite R in Gg |- *. destruct Gg as (a & E1 & E2 & E3). exists a.
        rewrite length_app in E3 |- *. auto.
      * unfold insert_snippet_tag in L.
        destruct (has_link _ _); [discriminate|].
        destruct (_ && _); [discriminate|]. injection L as <-.
        apply checkCompletion_count; [exact Q | exact R|]. split; simpl.
        -- intros _. split; assumption.
        -- rewrite R. exists (added ++ [{| l_snippet_id := sid; l_tag_id := tag_id |}]).
           split; [now rewrite Ea, app_assoc|]. split.
           ++ apply Forall_app. split; [exact Fa|]. repeat constructor. exact Ht.
           ++ rewrite length_app. simpl. lia.
Qed.

Lemma run_callbacks_count fault sid data db0 db1 sched fuel :
  statement_level fault ->
  forall step_no st,
    loop_invariant fault sid data db0 st ->
    loop_count sid (d_tags data) db1 st ->
    loop_count sid (d_tags data) db1 (run_callbacks fault sid data sched fuel step_no st).
Proof.
  intros Q. induction fuel as [|fuel IH]; intros step_no st J G; simpl; [exact G|].
  apply IH; [now apply step_invariant | now apply step_count with (db0 := db0)].
Qed.

(** The links a call has added name pairwise different tags. *)
Lemma link_names_distinct db sid names added :
  NoDup (map t_name (tags db)) ->
  NoDup added ->
  Forall (fun l => l_snippet_id l = sid /\ named_tag names db (l_tag_id l)) added ->
  exists ns, NoDup ns /\ incl ns names /\ List.length ns = List.length added /\
    forall n, In n ns ->
      exists l t, In l added /\ In t (tags db) /\ t_id t = l_tag_id l /\ t_name t = n.
Proof.
  intros Dn. induction added as [|l ls IH]; intros D F.
  - exists []. repeat split; [constructor | intros n [] | intros n []].
  - inversion D as [|? ? Nl D']; subst.
    inversion F as [|? ? [Es (t & Ht & Et & Hn)] F']; subst.
    destruct (IH D' F') as (ns & Dns & Hincl & Hlen & Hfrom).
    exists (t_name t :: ns). split; [|split; [|split]].
    + constructor; [|exact Dns]. intros Hin.
      destruct (Hfrom _ Hin) as (l' & t' & Hl' & Ht' & Et' & En').
      assert (t' = t) as -> by (eapply NoDup_map_injective; eauto).
      apply Nl. replace l with l'; [exact Hl'|].
      pose proof (proj1 (Forall_forall _ _) F' l' Hl') as [Es' _].
      destruct l, l'; simpl in *; congruence.
    + intros n [<-|Hin]; [exact Hn | now apply Hincl].
    + simpl. now rewrite Hlen.
    + intros n [<-|Hin].
      * exists l, t. repeat split; trivial. now left.
      * destruct (Hfrom n Hin) as (l' & t' & Hl' & H'). exists l', t'.
        split; [now right | exact H'].
Qed.

(** On a store whose failures leave the transaction open, a call that
    resolved was given pairwise different tag names. *)
Lemma resolved_tags_distinct fault sched now db data c :
  statement_level fault ->
  store_ok db ->
  settled (SnippetModel.createSnippet fault sched now db data) = Resolved c ->
  NoDup (d_tags data).
Proof.
  intros Q H0.
  pose proof (insert_snippet_ok db (d_title data) (d_code data)
                (language_or_default (d_language data)) now H0) as H1.
  destruct (fault 1%nat (SqlInsertSnippet (d_title data) (d_code data)
                           (language_or_default (d_language data)))) as [err|] eqn:F;
    [unfold SnippetModel.createSnippet; rewrite F; discriminate|].
  destruct (d_tags data) as [|t ts] eqn:T; [intros _; constructor|].
  rewrite <- T.
  assert (d_tags data <> []) as Hne by congruence.
  rewrite createSnippet_with_tags by trivial.
  set (sid := next_rowid (seq_snippets db) (map s_id (snippets db))).
  set (db1 := fst (insert_snippet db (d_title data) (d_code data)
                     (language_or_default (d_language data)) now)) in *.
  set (start := forEach_tag _ _ _).
  assert (loop_invariant fault sid data db start) as J0
    by now apply forEach_tag_invariant.
  assert (loop_store_ok sid start) as G0.
  { split; [exact H1|]. split; simpl; [reflexivity|].
    intros s t' H. apply in_map_iff in H. destruct H as (x & E & _). discriminate. }
  assert (loop_count sid (d_tags data) db1 start) as K0.
  { split; simpl.
    - intros _. split.
      + intros n [H|H]; apply in_map_iff in H; destruct H as (x & E & Hx);
          [now injection E as <- | discriminate].
      + intros s t' H. apply in_map_iff in H. destruct H as (x & E & _). discriminate.
    - exists []. rewrite app_nil_r. repeat split. constructor. }
  pose proof (run_callbacks_invariant fault sid data db sched
                (3 * List.length (d_tags data)) Q 0 start J0) as J.
  pose proof (run_callbacks_store_ok fault sid data db sched
                (3 * List.length (d_tags data)) Q H0 0 start J0 G0) as [[C _] _].
  pose proof (run_callbacks_count fault sid data db db1 sched
                (3 * List.length (d_tags data)) Q 0 start J0 K0) as [_ K].
  set (st := run_callbacks _ _ _ _ _ _ _) in *.
  unfold finished. cbn [settled]. intros Hs.
  destruct J as [_ _ Jr]. rewrite Hs in Jr, K.
  destruct Jr as (_ & Hf & _ & Hcount & _).
  destruct K as (added & Ea & Fa & La).
  rewrite Hf in La. simpl in La. rewrite Nat.add_0_r in La.
  pose proof (links_unique _ C) as Dl. rewrite Ea in Dl.
  apply NoDup_app_remove_l in Dl.
  destruct (link_names_distinct _ _ _ _ (tag_names_unique _ C) Dl Fa)
    as (ns & Dns & Hincl & Hlen & _).
  apply (NoDup_incl_NoDup (l := ns)); trivial. lia.
Qed.

(** *** The error of a repeated name *)

Lemma checkCompletion_only_primary_key sid data st :
  only_primary_key st -> only_primary_key (checkCompletion no_faults sid data st).
Proof.
  intros [Hk He]. unfold checkCompletion.
  destruct (_ =? _)%nat; [|now split].
  destruct (tagErrors st) eqn:E; split; cbn [conn tagErrors]; trivial.
  - unfold run_commit. now destruct (c_saved (conn st)).
  - unfold run_rollback, rollback. now destruct (c_saved (conn st)).
Qed.

Lemma step_only_primary_key sid data choice st :
  only_primary_key st -> only_primary_key (step no_faults sid data choice st).
Proof.
  intros G. unfold step.
  destruct (pick choice (pending st)) as [[stmt rest]|]; [|exact G].
  destruct G as [Hk He]. cbn [no_faults].
  destruct stmt; try (split; assumption).
  - destruct (select_tag_id _ _); split; assumption.
  - unfold insert_snippet_tag. rewrite Hk.
    destruct (has_link _ _); simpl.
    + apply checkCompletion_only_primary_key. split; simpl; [exact Hk|].
      apply Forall_app. split; [exact He | now repeat constructor].
    + apply checkCompletion_only_primary_key. split; simpl; assumption.
Qed.

Lemma run_callbacks_only_primary_key sid data sched fuel :
  forall step_no st,
    only_primary_key st ->
    only_primary_key (run_callbacks no_faults sid data sched fuel step_no st).
Proof.
  induction fuel as [|fuel IH]; intros step_no st G; simpl; [exact G|].
  apply IH. now apply step_only_primary_key.
Qed.

Lemma rejected_with_primary_key sched now db data e :
  settled (SnippetModel.createSnippet no_faults sched now db data) = Rejected e ->
  e = ConstraintPrimaryKey.
Proof.
  destruct (d_tags data) as [|t ts] eqn:T;
    [unfold SnippetModel.createSnippet; simpl; rewrite T; discriminate|].
  assert (d_tags data <> []) as Hne by congruence.
  clear T. rewrite createSnippet_with_tags by trivial.
  set (sid := next_rowid (seq_snippets db) (map s_id (snippets db))).
  set (start := forEach_tag _ _ _).
  assert (loop_invariant no_faults sid data db start) as J0
    by (apply forEach_tag_invariant; [exact Hne | reflexivity]).
  pose proof (run_callbacks_invariant no_faults sid data db sched
                (3 * List.length (d_tags data)) no_faults_statement_level
                0 start J0) as J.
  assert (only_primary_key start) as G0 by (split; [reflexivity | constructor]).
  apply (run_callbacks_only_primary_key sid data sched
           (3 * List.length (d_tags data)) 0) in G0.
  set (st := run_callbacks _ _ _ _ _ _ _) in *.
  unfold finished. cbn [settled]. intros Hs.
  destruct J as [_ _ Jr]. rewrite Hs in Jr. destruct Jr as (_ & _ & _ & Hf).
  destruct G0 as [_ He]. destruct (tagErrors st) as [|e0 l]; [discriminate|].
  injection Hf as <-. now inversion He.
Qed.

(** X7. A tag name given twice never collapses.  On a store that keeps
    its constraints and whose [sqlite_sequence] is ahead of the rowids in
    use, a [createSnippet] whose tag list repeats a name is rejected under
    every order of the callbacks, whatever else fails with a failure that
    leaves the transaction open, and the file is left as it was; when the
    store does not fail of its own the error is the primary-key violation
    of [snippet_tags]. *)
Theorem repeated_tag_name_always_fails :
  forall fault sched now db data,
    statement_level fault ->
    constraints_hold db ->
    sequence_ahead db ->
    ~ NoDup (d_tags data) ->
    (exists e,
       settled (SnippetModel.createSnippet fault sched now db data) = Rejected e /\
       file (SnippetModel.createSnippet fault sched now db data) = db) /\
    settled (SnippetModel.createSnippet no_faults sched now db data)
      = Rejected ConstraintPrimaryKey.
Proof.
  intros fault sched now db data Q C S N.
  assert (forall f, statement_level f -> exists e,
            settled (SnippetModel.createSnippet f sched now db data) = Rejected e /\
            file (SnippetModel.createSnippet f sched now db data) = db) as H.
  { intros f Qf. destruct (createSnippet_outcome f sched now db data Qf)
      as [(e & Hs & _ & Hd)|(Hs & _)]; [eauto|].
    contradiction N.
    apply (resolved_tags_distinct f sched now db data _ Qf (conj C S) Hs). }
  split; [now apply H|].
  destruct (H no_faults no_faults_statement_level) as (e & Hs & _).
  rewrite Hs. f_equal.
  eapply rejected_with_primary_key. exact Hs.
Qed.

Lemma repeated_tag_name_always_fails_witness :
  statement_level (busy_at (fun _ => false)) /\
  constraints_hold sample_db /\ sequence_ahead sample_db /\
  ~ NoDup (d_tags (tagged ["x"; "y"; "x"])) /\
  (exists e,
     settled (SnippetModel.createSnippet (busy_at (fun _ => false)) fifo 200 sample_db
                (tagged ["x"; "y"; "x"])) = Rejected e /\
     file (SnippetModel.createSnippet (busy_at (fun _ => false)) fifo 200 sample_db
             (tagged ["x"; "y"; "x"])) = sample_db).
Proof.
  assert (~ NoDup (d_tags (tagged ["x"; "y"; "x"]))) as N.
  { intros D. inversion D as [|? ? Hx _]. apply Hx. right. now left. }
  split; [apply busy_at_statement_level|].
  split; [exact sample_db_constraints|]. split; [exact sample_db_sequence|].
  split; [exact N|].
  exact (proj1 (repeated_tag_name_always_fails _ fifo 200 sample_db
                  (tagged ["x"; "y"; "x"]) (busy_at_statement_level _)
                  sample_db_constraints sample_db_sequence N)).
Defined.

(** ** The replies of the server *)

Lemma reply_to_next {A} p e :
  @Server.reply_to A p (Next e) =
  Some {| Server.status := 500%nat; Server.success := false;
          Server.r_message :=
            if Js.truthy (Server.p_text p e) then Server.p_text p e
            else "Internal Server Error";
          Server.data := None;
          Server.r_stack :=
            if Server.p_development p then Some (Server.p_trace p) else None |}.
Proof. reflexivity. Qed.

Lemma createSnippet_handler fault sched now db body :
  Js.truthy_opt (b_title body) = true ->
  Js.truthy_opt (b_code body) = true ->
  let r := SnippetModel.createSnippet fault sched now db (body_data body) in
  SnippetController.createSnippet fault sched now db body =
  {| h_file := file r;
     h_response :=
       match settled r with
       | Resolved s => Json 201 true "Snippet created successfully" (Some s)
       | Rejected e => Next e
       | Uncaught => NoResponse
       | Pending => NoResponse
       end;
     h_trace := trace r |}.
Proof.
  intros Ht Hc. unfold SnippetController.createSnippet. now rewrite Ht, Hc.
Qed.

(** X8. The status of the reply to [POST /api/snippets] tells what
    happened to the file, on a store whose failures leave the transaction
    open and in whatever order the callbacks run, for a request body that
    [express.json()] parsed into string fields and an array of strings as
    [tags] (each possibly missing).  The request is answered.  201 comes
    with the new id and the data, and then the snippet row is stored,
    unless [COMMIT] failed behind the reply and nothing is stored; 400
    means that title or code was missing or empty, and 500 that a
    statement failed (the handler's [next(error)] answered by
    [errorHandler]): after both the file is what it was.  The handler
    sends no other status. *)
Theorem post_status_tells_what_was_stored :
  forall p db body,
    statement_level (Server.p_fault p) ->
    let db' := fst (Server.post_snippets p db body) in
    let data := body_data body in
    let row := new_row db data (Server.p_now p) in
    exists r,
      snd (Server.post_snippets p db body) = Some r /\
      ((Server.status r = 201%nat /\ Server.success r = true /\
        Server.data r = Some {| new_id := s_id row; new_data := data |} /\
        (snippets db' = snippets db ++ [row] \/
         (exists e k, Server.p_fault p k SqlCommit = Some e) /\ db' = db)) \/
       (Server.status r = 400%nat /\ Server.success r = false /\
        (absent (b_title body) \/ absent (b_code body)) /\ db' = db) \/
       (Server.status r = 500%nat /\ Server.success r = false /\
        Server.data r = None /\ db' = db)).
Proof.
  intros p db body Q db' data row. subst db'. unfold Server.post_snippets.
  destruct (Js.truthy_opt (b_title body)) eqn:Ht;
    [destruct (Js.truthy_opt (b_code body)) eqn:Hc|].
  - rewrite (createSnippet_handler _ _ _ _ _ Ht Hc). cbn [h_file h_response fst snd].
    destruct (createSnippet_outcome (Server.p_fault p) (Server.p_sched p)
                (Server.p_now p) db (body_data body) Q)
      as [(e & Hs & _ & Hd)|(Hs & [(_ & G)|(e & k & Hk & _ & _ & Hd)])];
      rewrite Hs.
    + rewrite reply_to_next. eexists. split; [reflexivity|].
      right. right. repeat split. exact Hd.
    + eexists. split; [reflexivity|]. left. repeat split.
      left. apply (g_snippets _ _ _ G).
    + eexists. split; [reflexivity|]. left. repeat split.
      right. split; [eauto | exact Hd].
  - unfold SnippetController.createSnippet. rewrite Ht, Hc. simpl.
    eexists. split; [reflexivity|]. right. left. repeat split.
    right. now apply absent_falsy.
  - unfold SnippetController.createSnippet. rewrite Ht. simpl.
    eexists. split; [reflexivity|]. right. left. repeat split.
    left. now apply absent_falsy.
Qed.

Lemma post_status_tells_what_was_stored_witness :
  statement_level (Server.p_fault (healthy no_rounding fifo 200 false some_text EmptyString)) /\
  exists r,
    snd (Server.post_snippets (healthy no_rounding fifo 200 false some_text EmptyString)
           sample_db (Api.request_body (sent_data loop_inputs))) = Some r.
Proof.
  split; [exact no_faults_statement_level|].
  destruct (post_status_tells_what_was_stored
              (healthy no_rounding fifo 200 false some_text EmptyString) sample_db
              (Api.request_body (sent_data loop_inputs)) no_faults_statement_level)
    as (r & H & _).
  exists r. exact H.
Defined.

(** X9. What [errorHandler] sends does not depend on the status set
    before it runs: the body says [success: false] with a message that is
    never empty, the stack is sent in development only, the status is the
    error's [statusCode] when it has one that is not 0 and 500 otherwise.
    So a request that no route takes, for which [notFound] sets 404 and
    hands on an error without [statusCode], is answered with status 500
    and the message [Not Found - ] followed by the URL. *)
Theorem errorHandler_overrides_the_status :
  forall development err r url trace,
    let sent := Middleware.errorHandler development err r in
    (exists j, Middleware.res_sent sent = Some j /\
               Middleware.j_success j = false /\
               Middleware.j_message j <> EmptyString /\
               (Js.truthy (Middleware.message err) = true ->
                Middleware.j_message j = Middleware.message err) /\
               (Middleware.j_stack j = None <-> development = false) /\
               (development = true ->
                Middleware.j_stack j = Some (Middleware.stack err))) /\
    Middleware.res_status sent <> 0%nat /\
    (forall n, Middleware.statusCode err = Some n -> n <> 0%nat ->
               Middleware.res_status sent = n) /\
    (Middleware.statusCode err = None \/ Middleware.statusCode err = Some 0%nat ->
     Middleware.res_status sent = 500%nat) /\
    (forall r', Middleware.errorHandler development err r' =
                Middleware.errorHandler development err Middleware.new_res) /\
    Middleware.res_status (fst (Middleware.notFound url trace r)) = 404%nat /\
    Server.unrouted development url trace =
      {| Middleware.res_status := 500%nat;
         Middleware.res_sent :=
           Some {| Middleware.j_success := false;
                   Middleware.j_message := ("Not Found - " ++ url)%string;
                   Middleware.j_stack :=
                     if development then Some trace else None |} |}.
Proof.
  intros development err r url trace sent. subst sent.
  unfold Middleware.errorHandler. cbn [Middleware.send_json Middleware.set_status
    Middleware.res_sent Middleware.res_status].
  split; [|split; [|split; [|split; [|split; [|split]]]]].
  - eexists. split; [reflexivity|]. cbn. split; [reflexivity|]. split; [|split; [|split]].
    + destruct (Middleware.message err) as [|c s]; cbn; discriminate.
    + now intros ->.
    + destruct development; split; (discriminate || reflexivity).
    + now intros ->.
  - destruct (Middleware.statusCode err) as [n|]; [|discriminate].
    destruct (n =? 0)%nat eqn:E; [discriminate|]. now apply Nat.eqb_neq in E.
  - intros n -> Hn. apply Nat.eqb_neq in Hn. now rewrite Hn.
  - now intros [->| ->].
  - reflexivity.
  - reflexivity.
  - reflexivity.
Qed.

(** ** Trimming *)

Lemma drop_white_end_cons c s :
  Text.drop_white_end (String c s) =
  match Text.drop_white_end s with
  | EmptyString => if Text.is_white c then EmptyString else String c EmptyString
  | r => String c r
  end.
Proof. reflexivity. Qed.

Lemma drop_white_end_idem s :
  Text.drop_white_end (Text.drop_white_end s) = Text.drop_white_end s.
Proof.
  induction s as [|c s IH]; [reflexivity|]. rewrite drop_white_end_cons.
  destruct (Text.drop_white_end s) as [|d r] eqn:E.
  - destruct (Text.is_white c) eqn:W; [reflexivity|].
    rewrite drop_white_end_cons. cbn [Text.drop_white_end]. now rewrite W.
  - rewrite drop_white_end_cons, IH. reflexivity.
Qed.

Lemma skip_white_head s :
  Text.skip_white s = EmptyString \/
  exists c t, Text.skip_white s = String c t /\ Text.is_white c = false.
Proof.
  induction s as [|c s IH]; [now left|]. cbn [Text.skip_white].
  destruct (Text.is_white c) eqn:W; [exact IH|]. right. eauto.
Qed.

Lemma drop_white_end_head c t :
  Text.is_white c = false ->
  exists t', Text.drop_white_end (String c t) = String c t'.
Proof.
  intros W. rewrite drop_white_end_cons.
  destruct (Text.drop_white_end t); [rewrite W|]; eauto.
Qed.

Lemma trim_head s :
  Text.trim s = EmptyString \/
  exists c t, Text.trim s = String c t /\ Text.is_white c = false.
Proof.
  unfold Text.trim. destruct (skip_white_head s) as [->|(c & t & -> & W)];
    [now left|].
  right. destruct (drop_white_end_head c t W) as (t' & ->). eauto.
Qed.

(** [s.trim().trim()] is [s.trim()]. *)
Lemma trim_idem s : Text.trim (Text.trim s) = Text.trim s.
Proof.
  destruct (trim_head s) as [E|(c & t & E & W)].
  - now rewrite E.
  - unfold Text.trim at 1. rewrite E. cbn [Text.skip_white]. rewrite W.
    rewrite <- E. unfold Text.trim. apply drop_white_end_idem.
Qed.

Lemma length_zero_nonempty s :
  (String.length s =? 0)%nat = negb (Text.nonempty s).
Proof. now destruct s. Qed.

(** ** The create form *)

Lemma blank_trimmed s :
  Utils.blank (Some (Text.trim s)) = negb (Text.nonempty (Text.trim s)).
Proof.
  unfold Utils.blank, Js.truthy. rewrite trim_idem, length_zero_nonempty.
  apply orb_diag.
Qed.

(** The validation of the form, spelled out. *)
Lemma validateSnippetData_inputs inputs :
  Utils.isValid
    (Utils.validateSnippetData
       {| Utils.f_title := Some (Text.trim (App.snippetTitle inputs));
          Utils.f_code := Some (Text.trim (App.snippetCode inputs));
          Utils.f_language := Some (App.snippetLanguage inputs);
          Utils.f_tags := App.tagContainer inputs |})
  = inputs_valid inputs.
Proof.
  unfold Utils.validateSnippetData, inputs_valid.
  cbn [Utils.f_title Utils.f_code Utils.f_language Utils.isValid
       SnippetController.field Js.truthy_opt].
  rewrite !blank_trimmed. unfold Js.truthy.
  destruct (Text.nonempty (Text.trim (App.snippetTitle inputs)));
    cbn [negb andb];
    [rewrite Nat.ltb_antisym;
     destruct (String.length (Text.trim (App.snippetTitle inputs)) <=? 200)%nat;
     cbn [negb andb]|];
    destruct (Text.nonempty (Text.trim (App.snippetCode inputs)));
    destruct (Text.nonempty (App.snippetLanguage inputs)); reflexivity.
Qed.

Lemma search_parameter_back q :
  Js.or_else Js.truthy (Api.search_parameter q) EmptyString = q.
Proof. now destruct q. Qed.

(** [loadSnippets] leaves the file alone; the page gets the listing, or a
    notice when the store failed. *)
Lemma loadSnippets_page p q pg :
  exists pg',
    App.loadSnippets p q pg = Some pg' /\
    App.server_file pg' = App.server_file pg /\
    match Server.p_fault p 0%nat (SqlSelectSnippets (search_pattern q)) with
    | None =>
        App.shown pg' = App.shown pg /\
        App.state_snippets pg' = listed no_faults (App.server_file pg) q
    | Some _ =>
        App.shown pg' = App.shown pg ++ [notify "Failed to load snippets" "danger"] /\
        App.state_snippets pg' = App.state_snippets pg
    end.
Proof.
  unfold App.loadSnippets, Server.get_snippets, SnippetController.getSnippets.
  rewrite search_parameter_back. unfold getAllSnippets.
  destruct (Server.p_fault p 0%nat (SqlSelectSnippets (search_pattern q))) as [e|].
  - cbn [h_response settled]. rewrite reply_to_next.
    eexists. split; [reflexivity|]. repeat split.
  - eexists. split; [reflexivity|]. repeat split.
Qed.

Lemma input_body inputs :
  Text.nonempty (App.snippetLanguage inputs) = true ->
  body_data
    (Api.request_body
       {| Utils.f_title := Some (Text.trim (App.snippetTitle inputs));
          Utils.f_code := Some (Text.trim (App.snippetCode inputs));
          Utils.f_language := Some (App.snippetLanguage inputs);
          Utils.f_tags := App.tagContainer inputs |})
  = input_data inputs.
Proof.
  intros H. unfold body_data, input_data. simpl. unfold Js.truthy. now rewrite H.
Qed.

(** What [handleCreateSnippet] does with inputs that pass the form's
    validation: the page after a reply that is not [ok], and after one
    that is. *)
Lemma handleCreateSnippet_valid p inputs pg :
  inputs_valid inputs = true ->
  let r := SnippetModel.createSnippet (Server.p_fault p) (Server.p_sched p)
             (Server.p_now p) (App.server_file pg) (input_data inputs) in
  match settled r with
  | Resolved _ =>
      exists pg',
        App.loadSnippets p EmptyString
          {| App.server_file := file r; App.shown := App.shown pg;
             App.state_snippets := App.state_snippets pg |} = Some pg' /\
        App.handleCreateSnippet p inputs pg =
        Some {| App.server_file := App.server_file pg';
                App.shown := App.shown pg' ++
                  [notify "Snippet created successfully!" "success"];
                App.state_snippets := App.state_snippets pg' |}
  | Rejected _ =>
      App.handleCreateSnippet p inputs pg =
      Some {| App.server_file := file r;
              App.shown := App.shown pg ++
                [notify "Failed to create snippet" "danger"];
              App.state_snippets := App.state_snippets pg |}
  | _ => App.handleCreateSnippet p inputs pg = None
  end.
Proof.
  intros V r. unfold App.handleCreateSnippet.
  rewrite validateSnippetData_inputs, V. cbn [negb].
  unfold inputs_valid in V. apply andb_true_iff in V. destruct V as [V Hl].
  apply andb_true_iff in V. destruct V as [V Hc].
  apply andb_true_iff in V. destruct V as [Ht _].
  unfold Server.post_snippets.
  rewrite createSnippet_handler by (simpl; assumption).
  rewrite (input_body inputs Hl). fold r. cbn [h_file h_response].
  destruct (settled r) as [c|e| |].
  - cbn [Server.reply_to Api.fetchAPI Server.status Api.ok].
    destruct (loadSnippets_page p EmptyString
                {| App.server_file := file r; App.shown := App.shown pg;
                   App.state_snippets := App.state_snippets pg |})
      as (pg' & E & _).
    exists pg'. split; [exact E|]. simpl. now rewrite E.
  - rewrite reply_to_next. reflexivity.
  - reflexivity.
  - reflexivity.
Qed.

(** X10. [handleCreateSnippet] tells the user what happened, on a store
    whose failures leave the transaction open and in whatever order the
    callbacks run.  Inputs the form's validation refuses (a blank title or
    code, a title of more than 200 characters, no language) are not sent:
    one warning is shown and the server's file and the page's snippets
    stay.  Inputs it accepts are answered by the server, and never with
    its own 400.  Then either the one notice added is the failure notice
    and nothing is stored; or the success notice is the last one shown and
    the snippet row is stored, unless [COMMIT] failed behind the reply:
    then the success notice is shown all the same and nothing is stored. *)
Theorem handleCreateSnippet_tells_what_happened :
  forall p inputs pg,
    statement_level (Server.p_fault p) ->
    exists pg',
      App.handleCreateSnippet p inputs pg = Some pg' /\
      if inputs_valid inputs then
        (exists r,
           snd (Server.post_snippets p (App.server_file pg)
                  (Api.request_body (sent_data inputs))) = Some r /\
           Server.status r <> 400%nat) /\
        ((App.shown pg' = App.shown pg ++ [notify "Failed to create snippet" "danger"] /\
          App.server_file pg' = App.server_file pg /\
          App.state_snippets pg' = App.state_snippets pg) \/
         (exists before,
            App.shown pg' = before ++ [notify "Snippet created successfully!" "success"] /\
            (snippets (App.server_file pg') =
             snippets (App.server_file pg) ++
               [new_row (App.server_file pg) (input_data inputs) (Server.p_now p)] \/
             (exists e k, Server.p_fault p k SqlCommit = Some e) /\
             App.server_file pg' = App.server_file pg)))
      else
        (exists text, App.shown pg' = App.shown pg ++ [notify text "warning"]) /\
        App.server_file pg' = App.server_file pg /\
        App.state_snippets pg' = App.state_snippets pg.
Proof.
  intros p inputs pg Q. destruct (inputs_valid inputs) eqn:V.
  - pose proof (handleCreateSnippet_valid p inputs pg V) as H. cbv zeta in H.
    assert (exists r,
              snd (Server.post_snippets p (App.server_file pg)
                     (Api.request_body (sent_data inputs))) = Some r /\
              Server.status r <> 400%nat) as Hreply.
    { unfold inputs_valid in V. apply andb_true_iff in V. destruct V as [V Hl].
      apply andb_true_iff in V. destruct V as [V Hc].
      apply andb_true_iff in V. destruct V as [Ht _].
      unfold Server.post_snippets.
      rewrite createSnippet_handler by (simpl; assumption).
      cbn [h_response snd].
      destruct (createSnippet_outcome (Server.p_fault p) (Server.p_sched p)
                  (Server.p_now p) (App.server_file pg)
                  (body_data (Api.request_body (sent_data inputs))) Q)
        as [(e & Hs & _)|(Hs & _)]; rewrite Hs.
      - rewrite reply_to_next. eexists. split; [reflexivity|].
        cbn [Server.status]. apply Nat.eqb_neq. reflexivity.
      - eexists. split; [reflexivity|].
        cbn [Server.status]. apply Nat.eqb_neq. reflexivity. }
    assert (forall pg1 pg2,
              App.loadSnippets p EmptyString pg1 = Some pg2 ->
              App.server_file pg2 = App.server_file pg1) as Hfile.
    { intros pg1 pg2 E.
      destruct (loadSnippets_page p EmptyString pg1) as (pg3 & E3 & Ef & _).
      rewrite E in E3. injection E3 as <-. exact Ef. }
    destruct (createSnippet_outcome (Server.p_fault p) (Server.p_sched p)
                (Server.p_now p) (App.server_file pg) (input_data inputs) Q)
      as [(e & Hs & _ & Hd)|(Hs & [(_ & G)|(e & k & Hk & _ & _ & Hd)])];
      rewrite Hs in H.
    + eexists. split; [exact H|]. split; [exact Hreply|].
      left. repeat split. exact Hd.
    + destruct H as (pg' & El & H). eexists. split; [exact H|].
      split; [exact Hreply|]. right.
      cbn [App.shown App.server_file]. exists (App.shown pg'). split; [reflexivity|].
      left. rewrite (Hfile _ _ El). cbn [App.server_file].
      apply (g_snippets _ _ _ G).
    + destruct H as (pg' & El & H). eexists. split; [exact H|].
      split; [exact Hreply|]. right.
      cbn [App.shown App.server_file]. exists (App.shown pg'). split; [reflexivity|].
      right. split; [eauto|]. rewrite (Hfile _ _ El). cbn [App.server_file].
      exact Hd.
  - unfold App.handleCreateSnippet. rewrite validateSnippetData_inputs, V.
    cbn [negb]. eexists. split; [reflexivity|]. cbn. eauto.
Qed.

Lemma handleCreateSnippet_tells_what_happened_witness :
  statement_level (Server.p_fault (healthy no_rounding fifo 200 false some_text EmptyString)) /\
  exists pg',
    App.handleCreateSnippet (healthy no_rounding fifo 200 false some_text EmptyString)
      loop_inputs sample_page = Some pg'.
Proof.
  split; [exact no_faults_statement_level|].
  destruct (handleCreateSnippet_tells_what_happened
              (healthy no_rounding fifo 200 false some_text EmptyString)
              loop_inputs sample_page no_faults_statement_level) as (pg' & H & _).
  exists pg'. exact H.
Defined.



(** ** The tag list of the form component *)

Lemma is_white_lower c : Text.is_white (lower c) = Text.is_white c.
Proof. destruct c as [[] [] [] [] [] [] [] []]; reflexivity. Qed.

Lemma lower_lower c : lower (lower c) = lower c.
Proof. destruct c as [[] [] [] [] [] [] [] []]; reflexivity. Qed.

Lemma toLowerCase_idem s :
  SnippetForm.toLowerCase (SnippetForm.toLowerCase s) = SnippetForm.toLowerCase s.
Proof. induction s as [|c s IH]; simpl; [reflexivity|]. now rewrite lower_lower, IH. Qed.

Lemma toLowerCase_nonempty s :
  Text.nonempty (SnippetForm.toLowerCase s) = Text.nonempty s.
Proof. now destruct s. Qed.

Lemma skip_white_lower s :
  Text.skip_white (SnippetForm.toLowerCase s) =
  SnippetForm.toLowerCase (Text.skip_white s).
Proof.
  induction s as [|c s IH]; [reflexivity|].
  cbn [SnippetForm.toLowerCase Text.skip_white]. rewrite is_white_lower.
  destruct (Text.is_white c); [exact IH | reflexivity].
Qed.

Lemma drop_white_end_lower s :
  Text.drop_white_end (SnippetForm.toLowerCase s) =
  SnippetForm.toLowerCase (Text.drop_white_end s).
Proof.
  induction s as [|c s IH]; [reflexivity|].
  cbn [SnippetForm.toLowerCase]. rewrite !drop_white_end_cons, IH, is_white_lower.
  destruct (Text.drop_white_end s); [|reflexivity].
  cbn [SnippetForm.toLowerCase]. now destruct (Text.is_white c).
Qed.

Lemma trim_lower s :
  Text.trim (SnippetForm.toLowerCase s) = SnippetForm.toLowerCase (Text.trim s).
Proof. unfold Text.trim. now rewrite skip_white_lower, drop_white_end_lower. Qed.

Lemma includes_In ts t : SnippetForm.includes ts t = true <-> In t ts.
Proof.
  unfold SnippetForm.includes. rewrite existsb_exists. split.
  - intros (x & Hx & E). apply String.eqb_eq in E. now subst.
  - intros H. exists t. split; [exact H | apply String.eqb_refl].
Qed.

(** The tag [addTag] would store for a name. *)
Lemma kept_tag_normal s :
  Text.nonempty (Text.trim s) = true ->
  kept_tag (SnippetForm.toLowerCase (Text.trim s)).
Proof.
  intros H. split; [|split].
  - intros E. rewrite <- toLowerCase_nonempty, E in H. discriminate.
  - now rewrite trim_lower, trim_idem.
  - apply toLowerCase_idem.
Qed.

Lemma addTag_cases tagName f :
  (SnippetForm.addTag tagName f = (f, false) /\
   (Text.nonempty (Text.trim tagName) = false \/
    In (SnippetForm.toLowerCase (Text.trim tagName)) (SnippetForm.tags f))) \/
  (SnippetForm.addTag tagName f =
     (SnippetForm.with_tags f
        (SnippetForm.tags f ++ [SnippetForm.toLowerCase (Text.trim tagName)]), true) /\
   Text.nonempty (Text.trim tagName) = true /\
   ~ In (SnippetForm.toLowerCase (Text.trim tagName)) (SnippetForm.tags f)).
Proof.
  unfold SnippetForm.addTag. rewrite length_zero_nonempty.
  destruct (Text.nonempty (Text.trim tagName)) eqn:T; cbn [negb].
  - assert (Js.truthy tagName = true) as ->.
    { destruct tagName; [discriminate | reflexivity]. }
    cbn [negb orb].
    destruct (SnippetForm.includes _ _) eqn:I.
    + left. split; [reflexivity|]. right. now apply includes_In.
    + right. split; [reflexivity|]. split; [reflexivity|].
      intros H. apply includes_In in H. congruence.
  - rewrite orb_true_r. left. split; [reflexivity | now left].
Qed.

Lemma after_event_tags f e :
  NoDup (SnippetForm.tags f) /\ Forall kept_tag (SnippetForm.tags f) ->
  NoDup (SnippetForm.tags (after_event f e)) /\
  Forall kept_tag (SnippetForm.tags (after_event f e)).
Proof.
  intros [D K]. destruct e as [t c l g|o|s|s| |onSubmit]; cbn [after_event].
  - now split.
  - now split.
  - destruct (addTag_cases s f) as [[-> _]|(-> & T & N)]; cbn [fst]; [now split|].
    cbn [SnippetForm.with_tags SnippetForm.tags]. split.
    + now apply NoDup_snoc.
    + apply Forall_app. split; [exact K|]. constructor; [|constructor].
      now apply kept_tag_normal.
  - cbn [SnippetForm.removeTag SnippetForm.with_tags SnippetForm.tags]. split.
    + now apply NoDup_filter.
    + now apply Forall_filter_keep.
  - split; constructor.
  - unfold SnippetForm.submit.
    destruct (negb _); cbn [SnippetForm.form_after]; [now split|].
    destruct (onSubmit _); cbn [SnippetForm.form_after]; [|now split].
    split; constructor.
Qed.

Lemma validate_valid f :
  Utils.isValid (SnippetForm.validate f) = true ->
  Text.nonempty (Text.trim (SnippetForm.titleInput f)) = true /\
  Text.nonempty (Text.trim (SnippetForm.codeInput f)) = true /\
  Text.nonempty (SnippetForm.languageSelect f) = true.
Proof.
  unfold SnippetForm.validate, SnippetForm.getData.
  cbn [Utils.f_title Utils.f_code Utils.f_language Js.truthy_opt Utils.isValid].
  unfold Js.truthy.
  destruct (Text.nonempty (Text.trim (SnippetForm.titleInput f)));
    destruct (Text.nonempty (Text.trim (SnippetForm.codeInput f)));
    destruct (Text.nonempty (SnippetForm.languageSelect f));
    cbn; intros H; try discriminate; auto.
Qed.

(** X12. The tag list of the form component, whatever is done with the
    form after its construction (editing, adding and removing tags,
    resets, submissions that succeed or fail): it never holds a tag twice,
    and every tag is not empty, trimmed and in lower case.  What [submit]
    hands to [onSubmit] has a title, code and language that are not empty
    and that tag list. *)
Theorem form_tags_stay_distinct :
  forall title code language tag events,
    let f := fold_left after_event events (constructed title code language tag) in
    NoDup (SnippetForm.tags f) /\
    Forall kept_tag (SnippetForm.tags f) /\
    forall onSubmit,
      match SnippetForm.handed (SnippetForm.submit onSubmit f) with
      | Some data =>
          Js.truthy_opt (Utils.f_title data) = true /\
          Js.truthy_opt (Utils.f_code data) = true /\
          Js.truthy_opt (Utils.f_language data) = true /\
          Utils.f_tags data = SnippetForm.tags f
      | None =>
          SnippetForm.form_after (SnippetForm.submit onSubmit f) = f /\
          SnippetForm.alerts (SnippetForm.submit onSubmit f) <> []
      end.
Proof.
  intros title code language tag events f.
  assert (forall f0,
            NoDup (SnippetForm.tags f0) /\ Forall kept_tag (SnippetForm.tags f0) ->
            NoDup (SnippetForm.tags (fold_left after_event events f0)) /\
            Forall kept_tag (SnippetForm.tags (fold_left after_event events f0))) as H.
  { induction events as [|e es IH]; intros f0 H0; [exact H0|].
    simpl. apply IH. now apply after_event_tags. }
  destruct (H (constructed title code language tag)) as [D K];
    [split; constructor|].
  fold f in D, K. split; [exact D|]. split; [exact K|].
  intros onSubmit. unfold SnippetForm.submit.
  destruct (Utils.isValid (SnippetForm.validate f)) eqn:V; cbn [negb].
  - apply validate_valid in V. destruct V as (Vt & Vc & Vl).
    destruct (onSubmit _); cbn [SnippetForm.handed SnippetForm.getData
      Utils.f_title Utils.f_code Utils.f_language Utils.f_tags Js.truthy_opt];
      unfold Js.truthy; auto.
  - cbn [SnippetForm.handed SnippetForm.form_after SnippetForm.alerts].
    split; [reflexivity | discriminate].
Qed.

(** X13. [addTag] and [removeTag] on the form component.  Two names that
    differ in letter case or in the white space around them are the same
    tag: when the second is added after the first, [addTag] returns
    [false] and the form stays as it is.  Removing the stored form of a
    name right after [addTag] returned [true] for it gives the form back
    as it was. *)
Theorem addTag_and_removeTag :
  forall s s' f,
    SnippetForm.toLowerCase (Text.trim s') = SnippetForm.toLowerCase (Text.trim s) ->
    let f1 := fst (SnippetForm.addTag s f) in
    SnippetForm.addTag s' f1 = (f1, false) /\
    (snd (SnippetForm.addTag s f) = true ->
     SnippetForm.removeTag (SnippetForm.toLowerCase (Text.trim s)) f1 = f).
Proof.
  intros s s' f E f1. subst f1.
  assert (Text.nonempty (Text.trim s') = Text.nonempty (Text.trim s)) as En
    by (rewrite <- (toLowerCase_nonempty (Text.trim s')), E;
        apply toLowerCase_nonempty).
  destruct (addTag_cases s f) as [[-> [B|I]]|(-> & T & N)]; cbn [fst snd].
  - split; [|discriminate].
    destruct (addTag_cases s' f) as [[-> _]|(_ & T' & _)]; [reflexivity|congruence].
  - split; [|discriminate].
    destruct (addTag_cases s' f) as [[-> _]|(_ & _ & N')]; [reflexivity|].
    rewrite E in N'. contradiction.
  - split.
    + match goal with
      | |- SnippetForm.addTag s' ?g = _ =>
          destruct (addTag_cases s' g) as [[-> _]|(_ & _ & N')]; [reflexivity|]
      end.
      exfalso. apply N'. cbn [SnippetForm.with_tags SnippetForm.tags].
      rewrite E. apply in_app_iff. right. now left.
    + intros _. unfold SnippetForm.removeTag.
      cbn [SnippetForm.with_tags SnippetForm.tags SnippetForm.titleInput
           SnippetForm.codeInput SnippetForm.languageSelect SnippetForm.tagInput
           SnippetForm.languages].
      rewrite filter_app. cbn [filter]. rewrite String.eqb_refl. cbn [negb].
      rewrite app_nil_r, filter_all.
      * now destruct f.
      * intros t Ht. apply negb_true_iff, String.eqb_neq. intros ->. contradiction.
Qed.

Lemma addTag_and_removeTag_witness :
  let f := constructed "t" "c" "javascript" EmptyString in
  SnippetForm.toLowerCase (Text.trim "js ") = SnippetForm.toLowerCase (Text.trim " JS") /\
  SnippetForm.addTag "js " (fst (SnippetForm.addTag " JS" f)) =
    (fst (SnippetForm.addTag " JS" f), false) /\
  SnippetForm.tags (fst (SnippetForm.addTag " JS" f)) = ["js"].
Proof.
  assert (SnippetForm.toLowerCase (Text.trim "js ") =
          SnippetForm.toLowerCase (Text.trim " JS")) as E by reflexivity.
  split; [exact E|]. split; [|reflexivity].
  exact (proj1 (addTag_and_removeTag " JS" "js "
                  (constructed "t" "c" "javascript" EmptyString) E)).
Defined.

(** ** Ids written in decimal digits *)

Lemma digit_char_value d :
  0 <= d < 10 ->
  Text.is_digit (Api.digit_char d) = true /\
  Z.of_nat (nat_of_ascii (Api.digit_char d)) - 48 = d.
Proof.
  intros H.
  assert (d = 0 \/ d = 1 \/ d = 2 \/ d = 3 \/ d = 4 \/ d = 5 \/ d = 6 \/
          d = 7 \/ d = 8 \/ d = 9) as C by lia.
  repeat (destruct C as [->|C]; [split; reflexivity|]). subst. split; reflexivity.
Qed.

Lemma digits_value_app a s1 s2 :
  Text.digits_value a (s1 ++ s2)%string =
  Text.digits_value (Text.digits_value a s1) s2.
Proof. revert a. induction s1 as [|c s1 IH]; intros a; simpl; [reflexivity | apply IH]. Qed.

Lemma all_chars_app p s1 s2 :
  Text.all_chars p (s1 ++ s2)%string = Text.all_chars p s1 && Text.all_chars p s2.
Proof.
  induction s1 as [|c s1 IH]; simpl; [reflexivity|]. now rewrite IH, andb_assoc.
Qed.

Lemma append_snoc s1 c s2 :
  ((s1 ++ String c EmptyString) ++ s2)%string = (s1 ++ String c s2)%string.
Proof. induction s1 as [|d s1 IH]; simpl; [reflexivity | now rewrite IH]. Qed.

Lemma append_empty s : (s ++ EmptyString)%string = s.
Proof. induction s as [|c s IH]; simpl; [reflexivity | now rewrite IH]. Qed.

Lemma length_snoc s c :
  String.length (s ++ String c EmptyString)%string = S (String.length s).
Proof. induction s as [|d s IH]; simpl; [reflexivity | now rewrite IH]. Qed.

(** The digits of a number, most significant first. *)
Lemma digits_spec fuel :
  forall n acc,
    0 <= n < Z.of_nat fuel ->
    exists ds,
      Api.digits fuel n acc = (ds ++ acc)%string /\
      Text.nonempty ds = true /\
      Text.all_chars Text.is_digit ds = true /\
      forall a, Text.digits_value a ds = a * 10 ^ Z.of_nat (String.length ds) + n.
Proof.
  induction fuel as [|fuel IH]; intros n acc H; [simpl in H; lia|].
  cbn [Api.digits].
  destruct (digit_char_value (n mod 10)) as [Hd Hv];
    [apply Z.mod_pos_bound; lia|].
  destruct (n <? 10) eqn:L.
  - apply Z.ltb_lt in L. exists (String (Api.digit_char (n mod 10)) EmptyString).
    split; [reflexivity|]. split; [reflexivity|].
    split; [cbn [Text.all_chars]; now rewrite Hd|].
    intros a. cbn [Text.digits_value String.length]. rewrite Hv.
    rewrite Z.mod_small by lia. change (Z.of_nat 1) with 1.
    rewrite Z.pow_1_r. lia.
  - apply Z.ltb_ge in L.
    assert (0 <= n / 10 < Z.of_nat fuel) as Hq.
    { split; [apply Z.div_pos; lia|].
      assert (n / 10 < n) by (apply Z.div_lt; lia). lia. }
    destruct (IH (n / 10) (String (Api.digit_char (n mod 10)) acc) Hq)
      as (ds & E & Hn & Ha & Hval).
    exists (ds ++ String (Api.digit_char (n mod 10)) EmptyString)%string.
    split; [now rewrite append_snoc|]. split; [now destruct ds|].
    split; [rewrite all_chars_app, Ha; cbn [Text.all_chars andb]; now rewrite Hd|].
    intros a. rewrite digits_value_app, Hval. cbn [Text.digits_value]. rewrite Hv.
    rewrite length_snoc, Nat2Z.inj_succ, Z.pow_succ_r by lia.
    pose proof (Z.div_mod n 10). lia.
Qed.

Lemma number_to_string_digits n :
  0 <= n ->
  Text.nonempty (Api.number_to_string n) = true /\
  Text.all_chars Text.is_digit (Api.number_to_string n) = true /\
  Text.digits_value 0 (Api.number_to_string n) = n.
Proof.
  intros H. unfold Api.number_to_string.
  destruct (n <? 0) eqn:L; [apply Z.ltb_lt in L; lia|].
  destruct (digits_spec (S (Z.to_nat n)) n EmptyString) as (ds & -> & Hn & Ha & Hv);
    [lia|].
  rewrite append_empty. split; [exact Hn|]. split; [exact Ha|]. rewrite Hv. lia.
Qed.

(** *** What the server makes of a string of digits *)

Lemma digit_not_white c : Text.is_digit c = true -> Text.is_white c = false.
Proof. destruct c as [[] [] [] [] [] [] [] []]; (discriminate || reflexivity). Qed.

Lemma digit_head c s :
  Text.is_digit c = true ->
  Text.skip_sign (String c s) = String c s /\
  Text.has_minus (String c s) = false /\
  String.eqb (String c s) "Infinity" = false.
Proof.
  destruct c as [[] [] [] [] [] [] [] []]; intros H; try discriminate H;
    repeat split; reflexivity.
Qed.

Lemma drop_white_end_digits s :
  Text.all_chars Text.is_digit s = true -> Text.drop_white_end s = s.
Proof.
  induction s as [|c s IH]; [reflexivity|]. simpl Text.all_chars. intros H.
  apply andb_true_iff in H. destruct H as [Hc Hs].
  rewrite drop_white_end_cons, (IH Hs), (digit_not_white c Hc). now destruct s.
Qed.

Lemma trim_digits s :
  Text.all_chars Text.is_digit s = true -> Text.trim s = s.
Proof.
  intros H. unfold Text.trim.
  assert (Text.skip_white s = s) as ->; [|now apply drop_white_end_digits].
  destruct s as [|c s]; [reflexivity|]. simpl in H |- *.
  apply andb_true_iff in H. destruct H as [Hc _].
  now rewrite (digit_not_white c Hc).
Qed.

Lemma span_digits_all s :
  Text.all_chars Text.is_digit s = true -> Text.span_digits s = (s, EmptyString).
Proof.
  induction s as [|c s IH]; [reflexivity|]. simpl. intros H.
  apply andb_true_iff in H. destruct H as [Hc Hs]. now rewrite Hc, (IH Hs).
Qed.

(** A string of digits is a number for [isNaN] and is compared with the
    rowid as the integer it writes, whatever the store's conversion of
    real literals. *)
Lemma digits_as_id real s :
  Text.nonempty s = true ->
  Text.all_chars Text.is_digit s = true ->
  Js.isNaN s = false /\ text_as_integer real s = Some (Text.digits_value 0 s).
Proof.
  intros Hn Ha. destruct s as [|c s]; [discriminate|].
  assert (Text.is_digit c = true) as Hc
    by (simpl in Ha; now apply andb_true_iff in Ha).
  destruct (digit_head c s Hc) as (Hs & Hm & Hi).
  split.
  - unfold Js.isNaN, Js.string_numeric_literal. rewrite (trim_digits _ Ha).
    rewrite Hs. unfold Js.unsigned_decimal. rewrite Hi, (span_digits_all _ Ha).
    cbn [Text.nonempty Js.exponent_then_end andb]. now rewrite orb_true_r.
  - unfold text_as_integer, integer_literal, Text.nonempty_all.
    rewrite (trim_digits _ Ha), Hs, Hm, Ha. reflexivity.
Qed.

(** ** The delete button *)

Lemma reachable_ids_positive db :
  reachable db -> Forall (fun s => 0 < s_id s) (snippets db).
Proof.
  intros R. eapply Forall_impl; [|apply (ro_snippets _ (reachable_rows_ok db R))].
  simpl. intros s H. lia.
Qed.

Lemma listed_id_stored db q s :
  In s (listed no_faults db q) -> exists row, In row (snippets db) /\ s_id row = id s.
Proof.
  intros H. apply in_listed in H. destruct H as (g & Hg & ->).
  apply group_by_id_spec in Hg. destruct Hg as (_ & r & Hr & E).
  apply in_kept_rows, in_from_clause in Hr. destruct Hr as [Hr _].
  exists (fst g). split; [now rewrite <- E|]. reflexivity.
Qed.

(** X14. The delete button.  On a store the application can produce and
    a server whose store does not fail, confirming the deletion of a
    record of the unfiltered listing (its id sent as decimal digits in the
    URL) is answered with success: the one notice added is the success
    notice, and the page's snippets are the records listed before with
    another id.  Without the confirmation nothing is sent and the page
    stays as it is. *)
Theorem delete_button_removes_the_record :
  forall real sched now development text trace pg s,
    reachable (App.server_file pg) ->
    In s (listed no_faults (App.server_file pg) EmptyString) ->
    let p := healthy real sched now development text trace in
    (exists pg',
       App.handleDeleteSnippet p true (id s) pg = Some pg' /\
       App.shown pg' =
         App.shown pg ++ [notify "Snippet deleted successfully" "success"] /\
       forall s', In s' (App.state_snippets pg') <->
                  In s' (listed no_faults (App.server_file pg) EmptyString) /\
                  id s' <> id s) /\
    App.handleDeleteSnippet p false (id s) pg = Some pg.
Proof.
  intros real sched now development text trace pg s R Hin p.
  split; [|reflexivity].
  set (db := App.server_file pg) in *.
  pose proof (ro_constraints _ (reachable_rows_ok _ R)) as C.
  destruct (listed_id_stored _ _ _ Hin) as (row & Hrow & Eid).
  assert (0 < id s) as Hpos.
  { rewrite <- Eid.
    apply (proj1 (Forall_forall _ _) (reachable_ids_positive _ R) row Hrow). }
  destruct (number_to_string_digits (id s)) as (Hn & Ha & Hv); [lia|].
  destruct (digits_as_id real _ Hn Ha) as [Hnan Htext]. rewrite Hv in Htext.
  assert (forall i, rowid_is real (VText (Api.number_to_string (id s))) i = (i =? id s))
    as Hrow_is.
  { intros i. unfold rowid_is. cbn [value_as_rowid]. now rewrite Htext. }
  assert (existsb (fun r => rowid_is real (VText (Api.number_to_string (id s))) (s_id r))
            (snippets db) = true) as Hex.
  { apply existsb_exists. exists row. split; [exact Hrow|].
    rewrite Hrow_is. now apply Z.eqb_eq. }
  unfold App.handleDeleteSnippet. cbn [negb].
  unfold Server.delete_snippets, SnippetController.deleteSnippet.
  rewrite Hnan. fold db. cbn [p healthy Server.p_fault Server.p_real].
  set (r := SnippetModel.deleteSnippet real no_faults db
              (VText (Api.number_to_string (id s)))).
  assert (settled r =
          Resolved {| success := true;
                      changes := Z.of_nat (List.length
                        (filter (fun x => rowid_is real
                                            (VText (Api.number_to_string (id s)))
                                            (s_id x)) (snippets db))) |}) as Hs
    by reflexivity.
  cbn [h_file h_response]. rewrite Hs. cbn [changes].
  rewrite changes_zero, Hex. cbn [negb Server.reply_to].
  unfold Api.fetchAPI. cbn [Server.status]. change (Api.ok 200) with true. cbv iota.
  destruct (loadSnippets_page p EmptyString
              {| App.server_file := file r; App.shown := App.shown pg;
                 App.state_snippets := App.state_snippets pg |})
    as (pg2 & E2 & Ef & Hload).
  cbn [p healthy Server.p_fault no_faults App.shown App.state_snippets
       App.server_file] in Hload, Ef.
  destruct Hload as [Hshown Hstate].
  rewrite E2. eexists. split; [reflexivity|].
  cbn [App.shown App.state_snippets]. rewrite Hshown, Hstate.
  split; [reflexivity|]. intros s'.
  unfold r. rewrite (listing_after_delete real db _ EmptyString (snippet_ids_unique _ C)).
  rewrite Hrow_is. split; intros [H1 H2]; (split; [exact H1|]).
  - now apply Z.eqb_neq.
  - now apply Z.eqb_neq.
Qed.

Lemma delete_button_removes_the_record_witness :
  reachable (App.server_file sample_page) /\
  In array_map_record (listed no_faults (App.server_file sample_page) EmptyString) /\
  exists pg',
    App.handleDeleteSnippet (healthy no_rounding fifo 200 false some_text EmptyString) true 1
      sample_page = Some pg' /\
    App.shown pg' = [notify "Snippet deleted successfully" "success"] /\
    forall s', In s' (App.state_snippets pg') <->
               In s' (listed no_faults sample_db EmptyString) /\ id s' <> 1.
Proof.
  assert (In array_map_record
            (listed no_faults (App.server_file sample_page) EmptyString)) as H
    by (left; reflexivity).
  split; [exact sample_db_reachable|]. split; [exact H|].
  exact (proj1 (delete_button_removes_the_record no_rounding fifo 200 false some_text
                  EmptyString sample_page array_map_record sample_db_reachable H)).
Defined.

(** ** Debounced searches *)

Lemma run_app b es1 es2 :
  SearchBar.run b (es1 ++ es2) =
  (fst (SearchBar.run (fst (SearchBar.run b es1)) es2),
   snd (SearchBar.run b es1) ++ snd (SearchBar.run (fst (SearchBar.run b es1)) es2)).
Proof.
  revert b. induction es1 as [|e es1 IH]; intros b; simpl.
  - now destruct (SearchBar.run b es2).
  - destruct (SearchBar.on_event b e) as [b1 c1]. rewrite IH.
    destruct (SearchBar.run b1 es1) as [b2 c2]. simpl.
    now rewrite app_assoc.
Qed.

Lemma run_inputs b vs :
  snd (SearchBar.run b (map SearchBar.Input vs)) = [].
Proof.
  revert b. induction vs as [|v vs IH]; intros b; [reflexivity|].
  cbn [map SearchBar.run SearchBar.on_event].
  set (b1 := SearchBar.handleInput v _). specialize (IH b1).
  now destruct (SearchBar.run b1 (map SearchBar.Input vs)).
Qed.

Lemma run_trimmed b events :
  Forall (fun q => Text.trim q = q) (snd (SearchBar.run b events)).
Proof.
  revert b. induction events as [|e es IH]; intros b; simpl; [constructor|].
  destruct (SearchBar.on_event b e) as [b1 c1] eqn:E.
  specialize (IH b1). destruct (SearchBar.run b1 es) as [b2 c2]. simpl in *.
  apply Forall_app. split; [|exact IH].
  destruct e; simpl in E.
  - injection E as _ <-. constructor.
  - destruct (SearchBar.debounceTimer b); injection E as _ <-;
      repeat constructor. apply trim_idem.
  - injection E as _ <-. repeat constructor.
  - injection E as _ <-. repeat constructor. apply trim_idem.
Qed.

Lemma debounce_calls_burst {A} (t : Utils.debounced A) pre a rest :
  debounce_calls t (map Some pre ++ Some a :: None :: rest) =
  a :: debounce_calls None rest.
Proof.
  revert t. induction pre as [|x pre IH]; intros t; simpl; [reflexivity | apply IH].
Qed.

(** X15. Debouncing, in [utils.js] and in the search bar.  Of a run of
    calls that no timer interrupts, only the last one reaches the
    debounced function, once, when the timer runs.  For the search bar:
    every search it hands to [onSearch] is trimmed; a run of inputs
    followed by the timer gives one search, for the last input; and
    [clear] searches for the empty text at once but leaves a pending
    timer in place, so that the search for the text typed before follows
    it while the bar's value is empty. *)
Theorem debounced_search_takes_the_last_input :
  forall (b : SearchBar.search_bar) (events : list SearchBar.bar_event)
         (vs : list string) (v : string) (t : Utils.debounced string),
    debounce_calls t (map Some vs ++ [Some v; None]) = [v] /\
    Forall (fun q => Text.trim q = q) (snd (SearchBar.run b events)) /\
    SearchBar.run b (map SearchBar.Input vs ++ [SearchBar.Input v; SearchBar.Timer])
      = ({| SearchBar.searchInput := v; SearchBar.debounceTimer := None |},
         [Text.trim v]) /\
    (let (b', calls) :=
       SearchBar.run b [SearchBar.Input v; SearchBar.Clear; SearchBar.Timer] in
     calls = [EmptyString; Text.trim v] /\ SearchBar.getValue b' = EmptyString).
Proof.
  intros b events vs v t. split; [exact (debounce_calls_burst t vs v [])|].
  split; [apply run_trimmed|]. split; [|split; reflexivity].
  rewrite run_app, run_inputs. reflexivity.
Qed.
